(** * MockHttp: a series of request-response cycles

    A shallow embedding of the [MockHttp] class of the test harness
    ([test/util/http.js]): the builder methods that configure a series, the
    transport stub returned by [_http()], and the promise chain that
    [afterResponses()] builds.

    Conventions of the embedding.
    - JavaScript values are the inductive [value]; numbers are exact rationals
      plus [NaN] (infinities, signed zero and binary rounding are not
      represented; the harness only floors and compares numbers).
    - Series objects live in a heap ([gmap nat MockHttp]); the arrays held in
      [_responses] live in a second heap, so that sharing an array between two
      series is visible.
    - A callback supplied by a test is described by what the harness can
      observe of one call: the requests it sends through [Vue.prototype.$http]
      and whether it returns or throws. The request callback, the two hooks,
      the poll and the completion callback are called in a handler of a
      promise chain that returns their result, so for them a rejected promise
      counts as a throw. The guard, the mount callback and the response
      callbacks are called synchronously and their result is not awaited: for
      them [completes] is what the call itself does.
    - A promise chain [p.then(f).then(g)...] is a sequence of handlers run one
      at a time; the scheduler ([action]) decides how the handlers of the
      different chains and the requests of the application interleave. *)

From Stdlib Require Import QArith Qround Ascii String.
From stdpp Require Import base option list gmap strings fin_maps.

Set Default Proof Using "Type".
Set Warnings "-register-all".
Open Scope Z_scope.
Open Scope nat_scope.

(** ** JavaScript values *)

Module Js.

Inductive num := NaN | Fin (q : Q).

Inductive value :=
| VUndefined
| VNull
| VBool (b : bool)
| VNum (n : num)
| VStr (s : string)
| VArr (elems : list value)
| VObj (fields : list (string * value))
| VHost (handle : nat).

Definition of_Z (z : Z) : value := VNum (Fin (inject_Z z)).

(** [v == null] *)
Definition nullish (v : value) : bool :=
  match v with VUndefined | VNull => true | _ => false end.

(** [typeof v] *)
Definition typeof (v : value) : string :=
  match v with
  | VUndefined => "undefined"
  | VNull => "object"
  | VBool _ => "boolean"
  | VNum _ => "number"
  | VStr _ => "string"
  | VArr _ => "object"
  | VObj _ => "object"
  | VHost _ => "object"
  end.

Fixpoint assoc (k : string) (fields : list (string * value)) : value :=
  match fields with
  | [] => VUndefined
  | (k', v) :: rest => if String.eqb k k' then v else assoc k rest
  end.

(** [v.k], or [const { k } = v]: a [TypeError] ([None]) on [undefined] and
    [null]; [undefined] where the property is missing (prototypes carry none of
    the properties the harness reads). *)
Definition get (v : value) (k : string) : option value :=
  match v with
  | VUndefined | VNull => None
  | VObj fields => Some (assoc k fields)
  | _ => Some VUndefined
  end.

(** [{ ...v, k: x }] for an object [v]. *)
Fixpoint put (k : string) (x : value) (fields : list (string * value))
  : list (string * value) :=
  match fields with
  | [] => [(k, x)]
  | (k', v) :: rest =>
      if String.eqb k k' then (k, x) :: rest else (k', v) :: put k x rest
  end.

Definition spread_with (v : value) (k : string) (x : value) : value :=
  match v with
  | VObj fields => VObj (put k x fields)
  | _ => VObj [(k, x)]
  end.

(** *** Numbers *)

Definition digit (c : ascii) : option Z :=
  let n := nat_of_ascii c in
  if (48 <=? n) && (n <=? 57) then Some (Z.of_nat (n - 48)) else None.

Definition is_space (c : ascii) : bool :=
  let n := nat_of_ascii c in
  (n =? 32) || ((9 <=? n) && (n <=? 13)).

(** Integer part: the digits read so far as a number. *)
Fixpoint int_digits (acc : Z) (l : list ascii) : option Z :=
  match l with
  | [] => Some acc
  | c :: l' =>
      match digit c with
      | Some d => int_digits (10 * acc + d) l'
      | None => None
      end
  end.

(** Fraction part: numerator and denominator of the digits after the point. *)
Fixpoint frac_digits (acc : Z) (den : positive) (l : list ascii)
  : option (Z * positive) :=
  match l with
  | [] => Some (acc, den)
  | c :: l' =>
      match digit c with
      | Some d => frac_digits (10 * acc + d) (10 * den) l'
      | None => None
      end
  end.

Fixpoint split_point (l : list ascii) : list ascii * option (list ascii) :=
  match l with
  | [] => ([], None)
  | c :: l' =>
      if Ascii.eqb c "."%char then ([], Some l')
      else let '(a, b) := split_point l' in (c :: a, b)
  end.

Definition unsigned_decimal (l : list ascii) : num :=
  let '(ip, fp) := split_point l in
  match fp with
  | None =>
      match ip, int_digits 0 ip with
      | _ :: _, Some n => Fin (inject_Z n)
      | _, _ => NaN
      end
  | Some fl =>
      match ip, fl with
      | [], [] => NaN
      | _, _ =>
          match int_digits 0 ip, frac_digits 0 1 fl with
          | Some n, Some (f, den) => Fin (Qred (inject_Z n + (f # den)))
          | _, _ => NaN
          end
      end
  end.

Fixpoint drop_spaces (l : list ascii) : list ascii :=
  match l with
  | c :: l' => if is_space c then drop_spaces l' else l
  | [] => []
  end.

Definition trim (l : list ascii) : list ascii :=
  rev (drop_spaces (rev (drop_spaces l))).

(** [Number(s)] for a string: the empty string is [0]; decimal literals with an
    optional sign and fraction are read exactly; anything else is [NaN].
    JavaScript also reads literals with an exponent or a radix prefix and
    [Infinity], and rounds to a binary double: for such strings this function
    differs from [Number], so what is stated below about a status or a code
    given as a string holds for the plain decimal ones. *)
Definition string_to_number (s : string) : num :=
  match trim (list_ascii_of_string s) with
  | [] => Fin 0
  | c :: l =>
      if Ascii.eqb c "-"%char then
        match unsigned_decimal l with
        | Fin q => Fin (Qopp q)
        | NaN => NaN
        end
      else if Ascii.eqb c "+"%char then unsigned_decimal l
      else unsigned_decimal (c :: l)
  end.

(** [Number(v)]. An array converts through its string form: [[]] is the empty
    string, a one-element array is its element's string, and a longer one
    contains a comma. *)
Fixpoint to_number (v : value) : num :=
  match v with
  | VUndefined => NaN
  | VNull => Fin 0
  | VBool b => if b then Fin 1 else Fin 0
  | VNum n => n
  | VStr s => string_to_number s
  | VArr [] => Fin 0
  | VArr [x] =>
      match x with
      | VUndefined | VNull => Fin 0
      | VBool _ | VObj _ | VHost _ => NaN
      | _ => to_number x
      end
  | VArr _ => NaN
  | VObj _ => NaN
  | VHost _ => NaN
  end.

(** [Math.floor(v)] *)
Definition Math_floor (v : value) : value :=
  match to_number v with
  | NaN => VNum NaN
  | Fin q => of_Z (Qfloor q)
  end.

(** [a >= b] and [a < b] on numbers: false as soon as one side is [NaN]. *)
Definition num_ge (a b : num) : bool :=
  match a, b with
  | Fin x, Fin y => Qle_bool y x
  | _, _ => false
  end.

Definition num_lt (a b : num) : bool :=
  match a, b with
  | Fin x, Fin y => negb (Qle_bool y x)
  | _, _ => false
  end.

End Js.
Export Js.

(** ** Data model *)

(** What can be thrown, or be the reason of a rejected promise. *)
Inductive exn :=
| JsError (message : string)          (* new Error(message) *)
| TypeError                           (* raised by the language itself *)
| ErrorWithResponse (response : value)
    (* an Error with .request = {} and .response = response *)
| Thrown (v : value).                 (* any other value *)

Inductive completion := Return (v : value) | Throw (e : exn).
Inductive outcome := Fulfilled (v : value) | Rejected (e : exn).

Definition settle (c : completion) : outcome :=
  match c with Return v => Fulfilled v | Throw e => Rejected e end.

(** One call of a callback supplied by the test: the requests it sends through
    [Vue.prototype.$http], then how it completes. *)
Record behaviour := { sends : list value; completes : completion }.

Definition returns (v : value) : behaviour := {| sends := []; completes := Return v |}.
Definition throws (e : exn) : behaviour := {| sends := []; completes := Throw e |}.

(** The elements of [_responses]: the closure that [respond(callback)] builds
    around [callback]. *)
Inductive response_callback := RespondWrapper (callback : behaviour).

(** [Vue.prototype.$http]: not set, the application's own transport, or the
    function that the call [_http()] made by run [r] returned. *)
Inductive transport := HttpUndefined | Axios (id : nat) | Stub (r : nat).

#[global] Instance transport_eq_dec : EqDecision transport.
Proof. solve_decision. Defined.

Inductive log_entry := LogRequest (config : value) | LogResponse (response : value).

(** The handlers that one request chains on [_responsesPromise], in order:
    [.catch(noop)], the beforeAnyResponse hook, the beforeEachResponse hook,
    and the promise that calls the response callback. *)
Inductive stage := StCatch | StAny | StEach | StExec.

Record job := {
  j_index : nat;
  j_config : value;
  j_callback : option response_callback;   (* this._responses[count] *)
  j_stage : stage
}.

(** The fields that the constructor sets. *)
Record config := {
  _previousPromise : option nat;
  _location : value;
  _beforeEachNavGuard : option (value -> value -> value -> behaviour);
  _mount : option behaviour;
  _request : option (value -> behaviour);
  _responses : nat;                        (* reference into [arrays] *)
  _beforeAnyResponse : option (value -> behaviour);
  _beforeEachResponse : option (value -> value -> nat -> behaviour)
}.

(** The fields that [_initialPromise()] and the stub set during execution.
    [_responsesPromise] holds the handlers not yet run, oldest first. *)
Record context := {
  _inProgress : bool;
  _errorFromBeforeEachNav : option exn;
  _previousHttp : transport;
  _component : value;
  _responsesPromise : list job;
  _errorFromBeforeAnyResponse : option exn;
  _errorFromBeforeEachResponse : option exn;
  _errorFromResponse : option exn;
  _requestWithoutResponse : bool;
  _responseWithoutRequest : bool;
  _requestResponseLog : list log_entry
}.

Record MockHttp := { cfg : config; ctx : context }.

(** The execution fields of a series that [_initialPromise()] has not reached:
    all [undefined], which the harness reads as [false], as no error, and
    never as a list. *)
Definition undefined_context : context :=
  {| _inProgress := false;
     _errorFromBeforeEachNav := None;
     _previousHttp := HttpUndefined;
     _component := VUndefined;
     _responsesPromise := [];
     _errorFromBeforeAnyResponse := None;
     _errorFromBeforeEachResponse := None;
     _errorFromResponse := None;
     _requestWithoutResponse := false;
     _responseWithoutRequest := false;
     _requestResponseLog := [] |}.

(** The handlers of the promise that [afterResponses()] builds, in order. *)
Inductive pc :=
| PInit | PGuard | PNavMount | PAsync | PRequest | PWait | PPoll | PRestore
| PVerify | PCallback | PWrap | PCleanup | PDone.

#[global] Instance pc_eq_dec : EqDecision pc.
Proof. solve_decision. Defined.

(** One call of [afterResponses()]: the promise it builds on the series
    [r_self], the handler that runs next, what the chain has settled to so
    far, and the variable [count] of the closure that [_http()] returns. *)
Record run := {
  r_self : nat;
  r_callback : option (value -> behaviour);
  r_pollWork : option (value -> behaviour);
  r_pc : pc;
  r_settled : outcome;
  r_count : nat
}.

(** What the stub and the hooks did, for the statements about order. *)
Inductive event :=
| EvRequest (s index : nat) (config : value)
    (* the stub took a request and queued response [index] for it *)
| EvSurplus (s : nat) (config : value)
    (* the stub rejected a request at once: no response is left *)
| EvBeforeAny (s : nat) (c : completion)
| EvBeforeEach (s : nat) (config : value) (index : nat) (c : completion)
| EvResponse (s index : nat) (c : completion)
    (* the response callback completed *)
| EvSettle (s index : nat) (o : outcome)
    (* the promise returned for request [index] settled *)
| EvGuard (s : nat) (to from : value) (c : completion).

(** [inProgress] is the module-level flag, [http] is [Vue.prototype.$http],
    [guards] the series whose guard [beforeEachNav()] has installed on the
    router, and [trace] the history of the stub, latest event first. *)
Record world := {
  inProgress : bool;
  http : transport;
  heap : gmap nat MockHttp;
  arrays : gmap nat (list response_callback);
  runs : gmap nat run;
  guards : list nat;
  trace : list event
}.

Definition empty_world (t : transport) : world :=
  {| inProgress := false; http := t; heap := ∅; arrays := ∅; runs := ∅;
     guards := []; trace := [] |}.

(** *** Field updates *)

Definition set_inProgress (x : bool) (c : context) : context :=
  {| _inProgress := x; _errorFromBeforeEachNav := _errorFromBeforeEachNav c;
     _previousHttp := _previousHttp c; _component := _component c;
     _responsesPromise := _responsesPromise c;
     _errorFromBeforeAnyResponse := _errorFromBeforeAnyResponse c;
     _errorFromBeforeEachResponse := _errorFromBeforeEachResponse c;
     _errorFromResponse := _errorFromResponse c;
     _requestWithoutResponse := _requestWithoutResponse c;
     _responseWithoutRequest := _responseWithoutRequest c;
     _requestResponseLog := _requestResponseLog c |}.

Definition set_errorFromBeforeEachNav (x : option exn) (c : context) : context :=
  {| _inProgress := _inProgress c; _errorFromBeforeEachNav := x;
     _previousHttp := _previousHttp c; _component := _component c;
     _responsesPromise := _responsesPromise c;
     _errorFromBeforeAnyResponse := _errorFromBeforeAnyResponse c;
     _errorFromBeforeEachResponse := _errorFromBeforeEachResponse c;
     _errorFromResponse := _errorFromResponse c;
     _requestWithoutResponse := _requestWithoutResponse c;
     _responseWithoutRequest := _responseWithoutRequest c;
     _requestResponseLog := _requestResponseLog c |}.

Definition set_previousHttp (x : transport) (c : context) : context :=
  {| _inProgress := _inProgress c;
     _errorFromBeforeEachNav := _errorFromBeforeEachNav c; _previousHttp := x;
     _component := _component c; _responsesPromise := _responsesPromise c;
     _errorFromBeforeAnyResponse := _errorFromBeforeAnyResponse c;
     _errorFromBeforeEachResponse := _errorFromBeforeEachResponse c;
     _errorFromResponse := _errorFromResponse c;
     _requestWithoutResponse := _requestWithoutResponse c;
     _responseWithoutRequest := _responseWithoutRequest c;
     _requestResponseLog := _requestResponseLog c |}.

Definition set_component (x : value) (c : context) : context :=
  {| _inProgress := _inProgress c;
     _errorFromBeforeEachNav := _errorFromBeforeEachNav c;
     _previousHttp := _previousHttp c; _component := x;
     _responsesPromise := _responsesPromise c;
     _errorFromBeforeAnyResponse := _errorFromBeforeAnyResponse c;
     _errorFromBeforeEachResponse := _errorFromBeforeEachResponse c;
     _errorFromResponse := _errorFromResponse c;
     _requestWithoutResponse := _requestWithoutResponse c;
     _responseWithoutRequest := _responseWithoutRequest c;
     _requestResponseLog := _requestResponseLog c |}.

Definition set_responsesPromise (x : list job) (c : context) : context :=
  {| _inProgress := _inProgress c;
     _errorFromBeforeEachNav := _errorFromBeforeEachNav c;
     _previousHttp := _previousHttp c; _component := _component c;
     _responsesPromise := x;
     _errorFromBeforeAnyResponse := _errorFromBeforeAnyResponse c;
     _errorFromBeforeEachResponse := _errorFromBeforeEachResponse c;
     _errorFromResponse := _errorFromResponse c;
     _requestWithoutResponse := _requestWithoutResponse c;
     _responseWithoutRequest := _responseWithoutRequest c;
     _requestResponseLog := _requestResponseLog c |}.

Definition set_errorFromBeforeAnyResponse (x : option exn) (c : context) : context :=
  {| _inProgress := _inProgress c;
     _errorFromBeforeEachNav := _errorFromBeforeEachNav c;
     _previousHttp := _previousHttp c; _component := _component c;
     _responsesPromise := _responsesPromise c; _errorFromBeforeAnyResponse := x;
     _errorFromBeforeEachResponse := _errorFromBeforeEachResponse c;
     _errorFromResponse := _errorFromResponse c;
     _requestWithoutResponse := _requestWithoutResponse c;
     _responseWithoutRequest := _responseWithoutRequest c;
     _requestResponseLog := _requestResponseLog c |}.

Definition set_errorFromBeforeEachResponse (x : option exn) (c : context) : context :=
  {| _inProgress := _inProgress c;
     _errorFromBeforeEachNav := _errorFromBeforeEachNav c;
     _previousHttp := _previousHttp c; _component := _component c;
     _responsesPromise := _responsesPromise c;
     _errorFromBeforeAnyResponse := _errorFromBeforeAnyResponse c;
     _errorFromBeforeEachResponse := x;
     _errorFromResponse := _errorFromResponse c;
     _requestWithoutResponse := _requestWithoutResponse c;
     _responseWithoutRequest := _responseWithoutRequest c;
     _requestResponseLog := _requestResponseLog c |}.

Definition set_errorFromResponse (x : option exn) (c : context) : context :=
  {| _inProgress := _inProgress c;
     _errorFromBeforeEachNav := _errorFromBeforeEachNav c;
     _previousHttp := _previousHttp c; _component := _component c;
     _responsesPromise := _responsesPromise c;
     _errorFromBeforeAnyResponse := _errorFromBeforeAnyResponse c;
     _errorFromBeforeEachResponse := _errorFromBeforeEachResponse c;
     _errorFromResponse := x;
     _requestWithoutResponse := _requestWithoutResponse c;
     _responseWithoutRequest := _responseWithoutRequest c;
     _requestResponseLog := _requestResponseLog c |}.

Definition set_requestWithoutResponse (x : bool) (c : context) : context :=
  {| _inProgress := _inProgress c;
     _errorFromBeforeEachNav := _errorFromBeforeEachNav c;
     _previousHttp := _previousHttp c; _component := _component c;
     _responsesPromise := _responsesPromise c;
     _errorFromBeforeAnyResponse := _errorFromBeforeAnyResponse c;
     _errorFromBeforeEachResponse := _errorFromBeforeEachResponse c;
     _errorFromResponse := _errorFromResponse c; _requestWithoutResponse := x;
     _responseWithoutRequest := _responseWithoutRequest c;
     _requestResponseLog := _requestResponseLog c |}.

Definition set_responseWithoutRequest (x : bool) (c : context) : context :=
  {| _inProgress := _inProgress c;
     _errorFromBeforeEachNav := _errorFromBeforeEachNav c;
     _previousHttp := _previousHttp c; _component := _component c;
     _responsesPromise := _responsesPromise c;
     _errorFromBeforeAnyResponse := _errorFromBeforeAnyResponse c;
     _errorFromBeforeEachResponse := _errorFromBeforeEachResponse c;
     _errorFromResponse := _errorFromResponse c;
     _requestWithoutResponse := _requestWithoutResponse c;
     _responseWithoutRequest := x; _requestResponseLog := _requestResponseLog c |}.

Definition set_requestResponseLog (x : list log_entry) (c : context) : context :=
  {| _inProgress := _inProgress c;
     _errorFromBeforeEachNav := _errorFromBeforeEachNav c;
     _previousHttp := _previousHttp c; _component := _component c;
     _responsesPromise := _responsesPromise c;
     _errorFromBeforeAnyResponse := _errorFromBeforeAnyResponse c;
     _errorFromBeforeEachResponse := _errorFromBeforeEachResponse c;
     _errorFromResponse := _errorFromResponse c;
     _requestWithoutResponse := _requestWithoutResponse c;
     _responseWithoutRequest := _responseWithoutRequest c;
     _requestResponseLog := x |}.


Definition set_r_self (x : nat) (rn : run) : run :=
  {| r_self := x; r_callback := r_callback rn; r_pollWork := r_pollWork rn;
     r_pc := r_pc rn; r_settled := r_settled rn; r_count := r_count rn |}.

Definition set_r_callback (x : option (value -> behaviour)) (rn : run) : run :=
  {| r_self := r_self rn; r_callback := x; r_pollWork := r_pollWork rn;
     r_pc := r_pc rn; r_settled := r_settled rn; r_count := r_count rn |}.

Definition set_r_pollWork (x : option (value -> behaviour)) (rn : run) : run :=
  {| r_self := r_self rn; r_callback := r_callback rn; r_pollWork := x;
     r_pc := r_pc rn; r_settled := r_settled rn; r_count := r_count rn |}.

Definition set_r_pc (x : pc) (rn : run) : run :=
  {| r_self := r_self rn; r_callback := r_callback rn;
     r_pollWork := r_pollWork rn; r_pc := x; r_settled := r_settled rn;
     r_count := r_count rn |}.

Definition set_r_settled (x : outcome) (rn : run) : run :=
  {| r_self := r_self rn; r_callback := r_callback rn;
     r_pollWork := r_pollWork rn; r_pc := r_pc rn; r_settled := x;
     r_count := r_count rn |}.

Definition set_r_count (x : nat) (rn : run) : run :=
  {| r_self := r_self rn; r_callback := r_callback rn;
     r_pollWork := r_pollWork rn; r_pc := r_pc rn; r_settled := r_settled rn;
     r_count := x |}.


Definition w_inProgress (x : bool) (w : world) : world :=
  {| inProgress := x; http := http w; heap := heap w; arrays := arrays w;
     runs := runs w; guards := guards w; trace := trace w |}.

Definition w_http (x : transport) (w : world) : world :=
  {| inProgress := inProgress w; http := x; heap := heap w; arrays := arrays w;
     runs := runs w; guards := guards w; trace := trace w |}.

Definition w_heap (x : gmap nat MockHttp) (w : world) : world :=
  {| inProgress := inProgress w; http := http w; heap := x; arrays := arrays w;
     runs := runs w; guards := guards w; trace := trace w |}.

Definition w_arrays (x : gmap nat (list response_callback)) (w : world) : world :=
  {| inProgress := inProgress w; http := http w; heap := heap w; arrays := x;
     runs := runs w; guards := guards w; trace := trace w |}.

Definition w_runs (x : gmap nat run) (w : world) : world :=
  {| inProgress := inProgress w; http := http w; heap := heap w;
     arrays := arrays w; runs := x; guards := guards w; trace := trace w |}.

Definition w_guards (x : list nat) (w : world) : world :=
  {| inProgress := inProgress w; http := http w; heap := heap w;
     arrays := arrays w; runs := runs w; guards := x; trace := trace w |}.

Definition w_trace (x : list event) (w : world) : world :=
  {| inProgress := inProgress w; http := http w; heap := heap w;
     arrays := arrays w; runs := runs w; guards := guards w; trace := x |}.


Definition upd_ctx (s : nat) (f : context -> context) (w : world) : world :=
  w_heap (alter (λ o, {| cfg := cfg o; ctx := f (ctx o) |}) s (heap w)) w.

Definition upd_run (r : nat) (f : run -> run) (w : world) : world :=
  w_runs (alter f r (runs w)) w.

Definition emit (e : event) (w : world) : world := w_trace (e :: trace w) w.

(** [this._responses] as a list. *)
Definition responses_of (w : world) (o : MockHttp) : list response_callback :=
  default [] (arrays w !! _responses (cfg o)).

(** [e != null] for a stored error. *)
Definition is_set (f : option exn) : bool :=
  match f with
  | None => false
  | Some (Thrown v) => negb (nullish v)
  | Some _ => true
  end.

(** ** The transport stub *)

(** [respond()]: the closure stored in [_responses], after
    [const result = callback()]. *)
Definition respond_result (result : value) : completion :=
  match get result "problem" with
  | None => Throw TypeError
  | Some problem =>
      if nullish problem then
        Return (VObj [("status", of_Z 200); ("data", result)])
      else if String.eqb (typeof problem) "object" then
        match get problem "code" with
        | None => Throw TypeError
        | Some code => Return (VObj [("status", Math_floor code); ("data", problem)])
        end
      else
        Return (VObj [("status", Math_floor problem);
                      ("data", VObj [("code", problem);
                                     ("message", VStr "There was a problem.")])])
  end.

(** The function returned by [_http()] for run [r], applied to [config]. The
    handlers it chains on [this._responsesPromise] are the new [job]. *)
Definition _http (r : nat) (config : value) (w : world) : world :=
  match runs w !! r with
  | None => w
  | Some rn =>
      let s := r_self rn in
      match heap w !! s with
      | None => w
      | Some o =>
          let count := r_count rn in
          let len := length (responses_of w o) in
          let last := (Z.of_nat count =? Z.of_nat len - 1)%Z in
          if negb last && (count =? len) then
            emit (EvSurplus s config)
              (upd_ctx s (λ c,
                 set_requestWithoutResponse true
                   (set_requestResponseLog
                      (_requestResponseLog c ++ [LogRequest config]) c)) w)
          else
            let j := {| j_index := count; j_config := config;
                        j_callback := responses_of w o !! count;
                        j_stage := StCatch |} in
            emit (EvRequest s count config)
              (upd_run r (set_r_count (count + 1))
                 (upd_ctx s (λ c,
                    set_responsesPromise (_responsesPromise c ++ [j])
                      ((if last then set_responseWithoutRequest false else id)
                         (set_requestResponseLog
                            (_requestResponseLog c ++ [LogRequest config]) c))) w))
      end
  end.

(** A call of [Vue.prototype.$http] by the application or by a callback. Only
    the stub is part of the harness. *)
Definition http_call (w : world) (config : value) : world :=
  match http w with
  | Stub r => _http r config w
  | _ => w
  end.

(** Running a callback: its requests reach the transport one after the other,
    then it completes. *)
Definition perform (b : behaviour) (w : world) : world * completion :=
  (foldl http_call w (sends b), completes b).

Definition call_response (cb : option response_callback) (w : world)
  : world * completion :=
  match cb with
  | None => (w, Throw TypeError)
  | Some (RespondWrapper callback) =>
      let '(w, c) := perform callback w in
      match c with
      | Throw e => (w, Throw e)
      | Return result => (w, respond_result result)
      end
  end.

(** [this.f = e] in a [catch]. *)
Definition store (e : exn) : option exn := Some e.

Definition _tryBeforeAnyResponse (s : nat) (w : world) : world :=
  match heap w !! s with
  | None => w
  | Some o =>
      let '(w, c) :=
        match _beforeAnyResponse (cfg o) with
        | None => (w, Throw TypeError)
        | Some hook => perform (hook (_component (ctx o))) w
        end in
      emit (EvBeforeAny s c)
        match c with
        | Return _ => w
        | Throw e => upd_ctx s (set_errorFromBeforeAnyResponse (store e)) w
        end
  end.

Definition _tryBeforeEachResponse (s : nat) (config : value) (index : nat)
    (w : world) : world :=
  match heap w !! s with
  | None => w
  | Some o =>
      if is_set (_errorFromBeforeEachResponse (ctx o)) then w
      else
        let '(w, c) :=
          match _beforeEachResponse (cfg o) with
          | None => (w, Throw TypeError)
          | Some hook => perform (hook (_component (ctx o)) config index) w
          end in
        emit (EvBeforeEach s config index c)
          match c with
          | Return _ => w
          | Throw e => upd_ctx s (set_errorFromBeforeEachResponse (store e)) w
          end
  end.

(** How the promise of a request settles once its response callback has
    completed. *)
Definition response_outcome (config : value) (c : completion) : outcome :=
  match c with
  | Throw e => Rejected e
  | Return response =>
      let responseWithConfig := spread_with response "config" config in
      let status := to_number (default VUndefined (get response "status")) in
      if num_ge status (Fin (inject_Z 200)) && num_lt status (Fin (inject_Z 300))
      then Fulfilled responseWithConfig
      else Rejected (ErrorWithResponse responseWithConfig)
  end.

(** The last handler of a request: the promise that calls the response
    callback and settles; the request leaves the chain. *)
Definition respond_to (s : nat) (j : job) (w : world) : world :=
  let '(w, c) := call_response (j_callback j) w in
  emit (EvSettle s (j_index j) (response_outcome (j_config j) c))
    (emit (EvResponse s (j_index j) c)
       (upd_ctx s (λ x,
          set_responsesPromise (tail (_responsesPromise x))
            match c with
            | Throw e =>
                if is_set (_errorFromResponse x) then x
                else set_errorFromResponse (store e) x
            | Return response =>
                set_requestResponseLog
                  (_requestResponseLog x ++ [LogResponse response]) x
            end) w)).

(** The first request of the chain moves on to its next handler. *)
Definition advance (st : stage) (x : context) : context :=
  match _responsesPromise x with
  | [] => x
  | j :: rest =>
      set_responsesPromise
        ({| j_index := j_index j; j_config := j_config j;
            j_callback := j_callback j; j_stage := st |} :: rest) x
  end.

(** The next handler of [this._responsesPromise] of series [s]. *)
Definition chain_step (s : nat) (w : world) : world :=
  match heap w !! s with
  | None => w
  | Some o =>
      match _responsesPromise (ctx o) with
      | [] => w
      | j :: _ =>
          match j_stage j with
          | StCatch => upd_ctx s (advance StAny) w
          | StAny =>
              upd_ctx s (advance StEach)
                (if (j_index j =? 0) && bool_decide (is_Some (_beforeAnyResponse (cfg o)))
                 then _tryBeforeAnyResponse s w
                 else w)
          | StEach =>
              upd_ctx s (advance StExec)
                (if bool_decide (is_Some (_beforeEachResponse (cfg o)))
                 then _tryBeforeEachResponse s (j_config j) (j_index j) w
                 else w)
          | StExec => respond_to s j w
          end
      end
  end.
(** ** The promise built by [afterResponses()] *)

(** [.then(h)]: [h] runs if the chain is fulfilled so far, and the chain
    settles to what [h] completes with. *)
Definition then_ (r : nat) (h : value -> world -> world * completion)
    (rn : run) (w : world) : world :=
  match r_settled rn with
  | Fulfilled v =>
      let '(w, c) := h v w in upd_run r (set_r_settled (settle c)) w
  | Rejected _ => w
  end.

(** [.finally(h)]: [h] runs in both cases; the chain keeps what it had settled
    to unless [h] throws. *)
Definition finally_ (r : nat) (h : world -> world * completion) (w : world) : world :=
  let '(w, c) := h w in
  match c with
  | Return _ => w
  | Throw e => upd_run r (set_r_settled (Rejected e)) w
  end.

(** The callback that [_initialPromise()] chains on the previous promise. *)
Definition _initialPromise (r s : nat) (v : value) (w : world) : world * completion :=
  match get v "component" with
  | None => (w, Throw TypeError)
  | Some component =>
      if inProgress w then (w, Throw (JsError "another series is in progress"))
      else
        match heap w !! s with
        | None => (w, Throw TypeError)
        | Some o =>
            let previousHttp := http w in
            let w := w_inProgress true w in
            let w := w_http (Stub r) w in
            let w := upd_run r (set_r_count 0) w in
            let w :=
              upd_ctx s (λ _,
                {| _inProgress := true;
                   _errorFromBeforeEachNav := None;
                   _previousHttp := previousHttp;
                   _component := component;
                   _responsesPromise := [];
                   _errorFromBeforeAnyResponse := None;
                   _errorFromBeforeEachResponse := None;
                   _errorFromResponse := None;
                   _requestWithoutResponse := false;
                   _responseWithoutRequest :=
                     negb (length (responses_of w o) =? 0);
                   _requestResponseLog := [] |}) w in
            (w, Return VUndefined)
        end
  end.

Definition _tryBeforeEachNav (to from : value) (w : world) (s : nat) : world :=
  match heap w !! s with
  | None => w
  | Some o =>
      if negb (_inProgress (ctx o)) then w
      else if is_set (_errorFromBeforeEachNav (ctx o)) then w
      else
        let '(w, c) :=
          match _beforeEachNavGuard (cfg o) with
          | None => (w, Throw TypeError)
          | Some guard => perform (guard (_component (ctx o)) to from) w
          end in
        emit (EvGuard s to from c)
          match c with
          | Return _ => w
          | Throw e => upd_ctx s (set_errorFromBeforeEachNav (store e)) w
          end
  end.

(** [_navigate()]: [router.push()] belongs to the router; the navigation
    events it raises reach the harness as [NavEvent] actions, and the promise
    returned here never rejects. *)
Definition _navigate (s : nat) (w : world) : world * completion :=
  (w, Return VUndefined).

Definition run_mount (s : nat) (mount : behaviour) (w : world) : world * completion :=
  let '(w, c) := perform mount w in
  match c with
  | Throw e => (w, Throw e)
  | Return component => (upd_ctx s (set_component component) w, Return VUndefined)
  end.

Definition _navigateAndMount (s : nat) (w : world) : world * completion :=
  match heap w !! s with
  | None => (w, Throw TypeError)
  | Some o =>
      match negb (nullish (_location (cfg o))), _mount (cfg o) with
      | true, Some mount =>
          let '(w, promise) := _navigate s w in
          let '(w, c) := run_mount s mount w in
          match c with
          | Throw e => (w, Throw e)
          | Return _ => (w, promise)
          end
      | true, None => _navigate s w
      | false, Some mount => run_mount s mount w
      | false, None => (w, Return VUndefined)
      end
  end.

Definition _checkStateBeforeRequest (o : MockHttp) : completion :=
  match _requestResponseLog (ctx o) with
  | [] => Return VUndefined
  | _ :: _ =>
      Throw (JsError "a request was sent before the request() callback was run")
  end.

Definition request_handler (s : nat) (w : world) : world * completion :=
  match heap w !! s with
  | None => (w, Throw TypeError)
  | Some o =>
      match _request (cfg o) with
      | None => (w, Return VUndefined)
      | Some request =>
          match _checkStateBeforeRequest o with
          | Throw e => (w, Throw e)
          | Return _ => perform (request (_component (ctx o))) w
          end
      end
  end.

(** [v] as a condition. *)
Definition truthy (v : value) : bool :=
  match v with
  | VUndefined | VNull => false
  | VBool b => b
  | VNum NaN => false
  | VNum (Fin q) => negb (Qeq_bool q 0)
  | VStr s => negb (String.eqb s "")
  | _ => true
  end.

(** Modelled from the spec: [waitUntil()] of [test/util/util.js], which is not
    among the sources. The wait on the poll predicate is bounded: it ends when
    the predicate is satisfied and fails the series otherwise. *)
Definition waitUntil (b : behaviour) (w : world) : world * completion :=
  let '(w, c) := perform b w in
  match c with
  | Throw e => (w, Throw e)
  | Return v =>
      if truthy v then (w, Return VUndefined)
      else (w, Throw (JsError "waitUntil() timed out"))
  end.

Definition poll_handler (s : nat) (rn : run) (w : world) : world * completion :=
  match r_pollWork rn, heap w !! s with
  | Some pollWork, Some o => waitUntil (pollWork (_component (ctx o))) w
  | _, _ => (w, Return VUndefined)
  end.

Definition _restoreHttp (s : nat) (w : world) : world :=
  match heap w !! s with
  | None => w
  | Some o =>
      if _inProgress (ctx o) then w_http (_previousHttp (ctx o)) w else w
  end.

Definition _checkStateAfterWait (c : context) : completion :=
  if is_set (_errorFromBeforeEachNav c) then
    Throw (JsError "beforeEachNav() callback threw an error")
  else if is_set (_errorFromBeforeAnyResponse c) then
    Throw (JsError "beforeAnyResponse() callback threw an error")
  else if is_set (_errorFromBeforeEachResponse c) then
    Throw (JsError "beforeEachResponse() callback threw an error")
  else if is_set (_errorFromResponse c) then
    Throw (JsError "a response callback threw an error")
  else if _requestWithoutResponse c || _responseWithoutRequest c then
    if _requestWithoutResponse c then
      Throw (JsError "request without response: no response specified for request")
    else
      Throw (JsError "response without request: not all responses were requested")
  else Return VUndefined.

Definition verify_handler (s : nat) (w : world) : world * completion :=
  match heap w !! s with
  | None => (w, Throw TypeError)
  | Some o => (w, _checkStateAfterWait (ctx o))
  end.

Definition callback_handler (s : nat) (rn : run) (w : world) : world * completion :=
  match r_callback rn, heap w !! s with
  | Some callback, Some o => perform (callback (_component (ctx o))) w
  | _, _ => (w, Throw TypeError)
  end.

Definition wrap_handler (s : nat) (result : value) (w : world) : world * completion :=
  match heap w !! s with
  | None => (w, Throw TypeError)
  | Some o =>
      (w, Return (VObj [("component", _component (ctx o)); ("result", result)]))
  end.

Definition _cleanUpAfterResponses (s : nat) (w : world) : world :=
  w_inProgress false (upd_ctx s (set_inProgress false) w).

(** What the promise [_previousPromise] has settled to, once it has. A
    series that starts a chain waits on [Promise.resolve({})]. *)
Definition previous_outcome (w : world) (o : MockHttp) : option outcome :=
  match _previousPromise (cfg o) with
  | None => Some (Fulfilled (VObj []))
  | Some p =>
      match runs w !! p with
      | Some rp =>
          match r_pc rp with PDone => Some (r_settled rp) | _ => None end
      | None => None
      end
  end.

Definition goto (r : nat) (p : pc) (w : world) : world := upd_run r (set_r_pc p) w.

(** The next handler of run [r]. *)
Definition main_step (r : nat) (w : world) : world :=
  match runs w !! r with
  | None => w
  | Some rn =>
      let s := r_self rn in
      match r_pc rn with
      | PInit =>
          match heap w !! s with
          | None => w
          | Some o =>
              match previous_outcome w o with
              | None => w
              | Some prev =>
                  goto r PGuard
                    (then_ r (_initialPromise r s) (set_r_settled prev rn)
                       (upd_run r (set_r_settled prev) w))
              end
          end
      | PGuard =>
          goto r PNavMount
            (then_ r (λ _ w,
               match heap w !! s with
               | Some o =>
                   if bool_decide (is_Some (_beforeEachNavGuard (cfg o)))
                   then (w_guards (guards w ++ [s]) w, Return VUndefined)
                   else (w, Return VUndefined)
               | None => (w, Throw TypeError)
               end) rn w)
      | PNavMount => goto r PAsync (then_ r (λ _, _navigateAndMount s) rn w)
      | PAsync => goto r PRequest (then_ r (λ _ w, (w, Return VUndefined)) rn w)
      | PRequest => goto r PWait (then_ r (λ _, request_handler s) rn w)
      | PWait => goto r PPoll (finally_ r (λ w, (w, Return VUndefined)) w)
      | PPoll => goto r PRestore (finally_ r (poll_handler s rn) w)
      | PRestore =>
          goto r PVerify (finally_ r (λ w, (_restoreHttp s w, Return VUndefined)) w)
      | PVerify => goto r PCallback (then_ r (λ _, verify_handler s) rn w)
      | PCallback => goto r PWrap (then_ r (λ _, callback_handler s rn) rn w)
      | PWrap => goto r PCleanup (then_ r (wrap_handler s) rn w)
      | PCleanup =>
          goto r PDone
            (finally_ r (λ w, (_cleanUpAfterResponses s w, Return VUndefined)) w)
      | PDone => w
      end
  end.

(** ** The scheduler *)

Inductive action :=
| Main (r : nat)                 (* the next handler of a run *)
| Chain (s : nat)                (* the next handler of a response chain *)
| Send (config : value)          (* the application calls $http *)
| NavEvent (to from : value).    (* the router runs its beforeEach guards *)

Definition step (w : world) (a : action) : world :=
  match a with
  | Main r => main_step r w
  | Chain s => chain_step s w
  | Send config => http_call w config
  | NavEvent to from => foldl (_tryBeforeEachNav to from) w (guards w)
  end.

Definition exec (sched : list action) (w : world) : world := foldl step w sched.

(** ** Building a series *)

Inductive result (A : Type) := Ok (a : A) | Raise (e : exn).
Arguments Ok {A} a.
Arguments Raise {A} e.

(** [new MockHttp({...})]: a parameter left out takes its default, and the
    default of [responses] is a new empty array. *)
Definition new_MockHttp
    (previousPromise : option nat)
    (location : value)
    (beforeEachNavGuard : option (value -> value -> value -> behaviour))
    (mount : option behaviour)
    (request : option (value -> behaviour))
    (responses : option nat)
    (beforeAnyResponse : option (value -> behaviour))
    (beforeEachResponse : option (value -> value -> nat -> behaviour))
    (w : world) : nat * world :=
  let '(a, w) :=
    match responses with
    | Some a => (a, w)
    | None =>
        let a := fresh (dom (arrays w)) in
        (a, w_arrays (<[a := []]> (arrays w)) w)
    end in
  let this := fresh (dom (heap w)) in
  let c := {| _previousPromise := previousPromise;
              _location := if nullish location then VNull else location;
              _beforeEachNavGuard := beforeEachNavGuard;
              _mount := mount;
              _request := request;
              _responses := a;
              _beforeAnyResponse := beforeAnyResponse;
              _beforeEachResponse := beforeEachResponse |} in
  (this, w_heap (<[this := {| cfg := c; ctx := undefined_context |}]> (heap w)) w).

(** [mockHttp()] *)
Definition mockHttp (w : world) : nat * world :=
  new_MockHttp None VNull None None None None None None w.

(** The object literals that the methods pass to [_with()]: each names one
    option. *)
Inductive options :=
| OLocation (location : value)
| OBeforeEachNavGuard (guard : value -> value -> value -> behaviour)
| OMount (mount : behaviour)
| ORequest (request : value -> behaviour)
| OResponses (responses : nat)
| OBeforeAnyResponse (hook : value -> behaviour)
| OBeforeEachResponse (hook : value -> value -> nat -> behaviour).

Definition _with (this : nat) (opts : options) (w : world) : result (nat * world) :=
  match heap w !! this with
  | None => Raise TypeError
  | Some o =>
      let c := cfg o in
      let mk := new_MockHttp (_previousPromise c) in
      Ok match opts with
         | OLocation location =>
             mk location (_beforeEachNavGuard c) (_mount c) (_request c)
                (Some (_responses c)) (_beforeAnyResponse c) (_beforeEachResponse c) w
         | OBeforeEachNavGuard guard =>
             mk (_location c) (Some guard) (_mount c) (_request c)
                (Some (_responses c)) (_beforeAnyResponse c) (_beforeEachResponse c) w
         | OMount mount =>
             mk (_location c) (_beforeEachNavGuard c) (Some mount) (_request c)
                (Some (_responses c)) (_beforeAnyResponse c) (_beforeEachResponse c) w
         | ORequest request =>
             mk (_location c) (_beforeEachNavGuard c) (_mount c) (Some request)
                (Some (_responses c)) (_beforeAnyResponse c) (_beforeEachResponse c) w
         | OResponses responses =>
             mk (_location c) (_beforeEachNavGuard c) (_mount c) (_request c)
                (Some responses) (_beforeAnyResponse c) (_beforeEachResponse c) w
         | OBeforeAnyResponse hook =>
             mk (_location c) (_beforeEachNavGuard c) (_mount c) (_request c)
                (Some (_responses c)) (Some hook) (_beforeEachResponse c) w
         | OBeforeEachResponse hook =>
             mk (_location c) (_beforeEachNavGuard c) (_mount c) (_request c)
                (Some (_responses c)) (_beforeAnyResponse c) (Some hook) w
         end
  end.

Definition route (this : nat) (location : value) (w : world) : result (nat * world) :=
  match heap w !! this with
  | None => Raise TypeError
  | Some o =>
      if negb (nullish (_location (cfg o))) then
        Raise (JsError "cannot call route() more than once in a single series")
      else _with this (OLocation location) w
  end.

Definition beforeEachNav (this : nat)
    (callback : value -> value -> value -> behaviour) (w : world)
  : result (nat * world) :=
  match heap w !! this with
  | None => Raise TypeError
  | Some o =>
      if bool_decide (is_Some (_beforeEachNavGuard (cfg o))) then
        Raise (JsError "cannot call beforeEachNav() more than once in a single chain")
      else _with this (OBeforeEachNavGuard callback) w
  end.

(** [mount(component, options)]: [lifecycleMount] is the behaviour of
    [lifecycleMount(component, options)]. *)
Definition mount (this : nat) (lifecycleMount : behaviour) (w : world)
  : result (nat * world) :=
  match heap w !! this with
  | None => Raise TypeError
  | Some o =>
      if bool_decide (is_Some (_mount (cfg o))) then
        Raise (JsError "cannot call mount() more than once in a single chain")
      else if bool_decide (is_Some (_previousPromise (cfg o))) then
        Raise (JsError "cannot call mount() after the first series in a chain")
      else _with this (OMount lifecycleMount) w
  end.

Definition request (this : nat) (callback : value -> behaviour) (w : world)
  : result (nat * world) :=
  match heap w !! this with
  | None => Raise TypeError
  | Some o =>
      if bool_decide (is_Some (_request (cfg o))) then
        Raise (JsError "cannot call request() more than once in a single series")
      else _with this (ORequest callback) w
  end.

Definition respond (this : nat) (callback : behaviour) (w : world)
  : result (nat * world) :=
  match heap w !! this with
  | None => Raise TypeError
  | Some o =>
      let a := fresh (dom (arrays w)) in
      let w := w_arrays (<[a := responses_of w o ++ [RespondWrapper callback]]> (arrays w)) w in
      _with this (OResponses a) w
  end.

Definition respondWithData (this : nat) (callback : behaviour) (w : world)
  : result (nat * world) :=
  respond this callback w.

Definition respondWithSuccess (this : nat) (w : world) : result (nat * world) :=
  respond this (returns (VObj [("success", VBool true)])) w.

(** [respondWithProblem(problemOrCode = 500.1)]: the default stands in for a
    missing or [undefined] argument. *)
Definition respondWithProblem (this : nat) (problemOrCode : value) (w : world)
  : result (nat * world) :=
  let problemOrCode :=
    match problemOrCode with
    | VUndefined => VNum (Fin (5001 # 10))
    | _ => problemOrCode
    end in
  respond this (returns (VObj [("problem", problemOrCode)])) w.

Definition beforeAnyResponse (this : nat) (callback : value -> behaviour) (w : world)
  : result (nat * world) :=
  match heap w !! this with
  | None => Raise TypeError
  | Some o =>
      if bool_decide (is_Some (_beforeAnyResponse (cfg o))) then
        Raise (JsError "cannot call beforeAnyResponse() more than once in a single series")
      else _with this (OBeforeAnyResponse callback) w
  end.

Definition beforeEachResponse (this : nat)
    (callback : value -> value -> nat -> behaviour) (w : world)
  : result (nat * world) :=
  match heap w !! this with
  | None => Raise TypeError
  | Some o =>
      if bool_decide (is_Some (_beforeEachResponse (cfg o))) then
        Raise (JsError "cannot call beforeEachResponse() more than once in a single series")
      else _with this (OBeforeEachResponse callback) w
  end.

(** ** Executing a series *)

(** The argument of [afterResponses()]: a function, or an object with the
    properties [callback] and [pollWork]. *)
Inductive after_arg :=
| AfterCallback (callback : value -> behaviour)
| AfterOptions (callback pollWork : option (value -> behaviour)).

(** [afterResponses()] builds the promise (a new run, whose handlers the
    scheduler runs later) and returns a new series that follows it. *)
Definition afterResponses (this : nat) (optionsOrCallback : after_arg) (w : world)
  : result (nat * world) :=
  let '(callback, pollWork) :=
    match optionsOrCallback with
    | AfterCallback callback => (Some callback, None)
    | AfterOptions callback pollWork => (callback, pollWork)
    end in
  match heap w !! this with
  | None => Raise TypeError
  | Some o =>
      if nullish (_location (cfg o))
         && bool_decide (_mount (cfg o) = None)
         && bool_decide (_request (cfg o) = None)
      then Raise (JsError "route(), mount(), and/or request() required")
      else
        let promise := fresh (dom (runs w)) in
        let rn := {| r_self := this; r_callback := callback;
                     r_pollWork := pollWork; r_pc := PInit;
                     r_settled := Fulfilled VUndefined; r_count := 0 |} in
        let w := w_runs (<[promise := rn]> (runs w)) w in
        Ok (new_MockHttp (Some promise) VNull None None None None None None w)
  end.

Definition complete (this : nat) (w : world) : result (nat * world) :=
  afterResponses this (AfterCallback (λ component, returns component)) w.

(** What [toPromise()] returns: [Promise.resolve()], or
    [promise.then(({ result }) => result)] for the promise of a run. *)
Inductive promise := Resolved (v : value) | ThenResult (p : nat).

Definition toPromise (this : nat) (w : world) : result (promise * world) :=
  match heap w !! this with
  | None => Raise TypeError
  | Some o =>
      let c := cfg o in
      let anySetup :=
        negb (nullish (_location c))
        || bool_decide (is_Some (_beforeEachNavGuard c))
        || bool_decide (is_Some (_mount c))
        || bool_decide (is_Some (_request c))
        || negb (length (responses_of w o) =? 0)
        || bool_decide (is_Some (_beforeAnyResponse c))
        || bool_decide (is_Some (_beforeEachResponse c)) in
      if negb anySetup && bool_decide (_previousPromise c = None) then
        Ok (Resolved VUndefined, w)
      else if anySetup then
        match complete this w with
        | Raise e => Raise e
        | Ok (next, w) =>
            match heap w !! next with
            | Some o' =>
                match _previousPromise (cfg o') with
                | Some p => Ok (ThenResult p, w)
                | None => Raise TypeError
                end
            | None => Raise TypeError
            end
        end
      else
        match _previousPromise c with
        | Some p => Ok (ThenResult p, w)
        | None => Raise TypeError
        end
  end.

(** ** Responses for a component or a location *)

(** A property of the [options] of [respondForComponent()]: a value ([false],
    a status code, ...) or a function. *)
Inductive override :=
| OverrideValue (v : value)
| OverrideCallback (callback : behaviour).

(** [options != null ? options[key] : null], for the properties that
    [options] has of its own (the keys of the request data are not names of
    [Object.prototype]). *)
Definition option_of (options : option (gmap string override)) (key : string)
  : option override :=
  match options with
  | None => None
  | Some properties => properties !! key
  end.

(** [option === false] *)
Definition is_false (v : value) : bool :=
  match v with VBool false => true | _ => false end.

(** The reducer of [respondForComponent()], for the entry [[key, callback]]
    of the request data of the component. An option that is neither a number
    nor a function is queued as it is, and calling it throws a [TypeError]. *)
Definition respond_entry (options : option (gmap string override))
    (series : result (nat * world)) (entry : string * behaviour)
  : result (nat * world) :=
  match series with
  | Raise e => Raise e
  | Ok (series, w) =>
      let '(key, callback) := entry in
      match option_of options key with
      | Some (OverrideValue option) =>
          if nullish option then respond series callback w
          else if is_false option then Ok (series, w)
          else if String.eqb (typeof option) "number"
          then respondWithProblem series option w
          else respond series (throws TypeError) w
      | Some (OverrideCallback option) => respond series option w
      | None => respond series callback w
      end
  end.

(** [respondForComponent(component, options)], where [entries] is
    [[...requestDataByComponent(component.name)]]: the keys and the default
    callbacks that the module [http/respond-for] holds for the component. *)
Definition respondForComponent (this : nat) (entries : list (string * behaviour))
    (options : option (gmap string override)) (w : world) : result (nat * world) :=
  foldl (respond_entry options) (Ok (this, w)) entries.

(** [respondFor(location, options)], where [components] is
    [routeComponents(router.resolve(location).route)], each component given
    by its entries. *)
Definition respondFor (this : nat) (components : list (list (string * behaviour)))
    (options : option (gmap string override)) (w : world) : result (nat * world) :=
  foldl (λ series entries,
           match series with
           | Raise e => Raise e
           | Ok (series, w) => respondForComponent series entries options w
           end)
        (Ok (this, w)) components.

(** The method [load(location, options)]. *)
Definition load (this : nat) (location : value)
    (components : list (list (string * behaviour)))
    (options : option (gmap string override)) (w : world) : result (nat * world) :=
  match route this location w with
  | Raise e => Raise e
  | Ok (series, w) => respondFor series components options w
  end.

(** [restoreSession(restore)]. The two callbacks of the second branch read
    and write the test data, which is another module: [createNew] and
    [createUser] are what they do when they are called. *)
Definition restoreSession (this : nat) (restore : value)
    (createNew createUser : behaviour) (w : world) : result (nat * world) :=
  if negb (truthy restore) then respondWithProblem this (VNum (Fin (4041 # 10))) w
  else
    match respondWithData this createNew w with
    | Raise e => Raise e
    | Ok (series, w) => respondWithData series createUser w
    end.

(** ** The request helpers of [setHttp()] *)

(** [{ ...config, method, url }] for a [config] that is an object or is left
    out. *)
Definition with_method (config : value) (method : string) (url : value) : value :=
  spread_with (spread_with config "method" (VStr method)) "url" url.

(** [http.get], [http.post], [http.put], [http.patch] and [http.delete] of
    the function that [setHttp()] installs: each calls [http] once. *)
Definition http_get (url config : value) (w : world) : world :=
  http_call w (with_method config "get" url).

Definition http_post (url data config : value) (w : world) : world :=
  http_call w (spread_with (with_method config "post" url) "data" data).

Definition http_put (url data config : value) (w : world) : world :=
  http_call w (spread_with (with_method config "put" url) "data" data).

Definition http_patch (url data config : value) (w : world) : world :=
  http_call w (spread_with (with_method config "patch" url) "data" data).

Definition http_delete (url config : value) (w : world) : world :=
  http_call w (with_method config "delete" url).

(** * Specification *)

(** ** Builder methods *)

(** A configuration with one option replaced. *)

Definition with_location (x : value) (c : config) : config :=
  {| _previousPromise := _previousPromise c; _location := x;
     _beforeEachNavGuard := _beforeEachNavGuard c; _mount := _mount c;
     _request := _request c; _responses := _responses c;
     _beforeAnyResponse := _beforeAnyResponse c;
     _beforeEachResponse := _beforeEachResponse c |}.

Definition with_beforeEachNavGuard (x : option (value -> value -> value -> behaviour)) (c : config) : config :=
  {| _previousPromise := _previousPromise c; _location := _location c;
     _beforeEachNavGuard := x; _mount := _mount c; _request := _request c;
     _responses := _responses c; _beforeAnyResponse := _beforeAnyResponse c;
     _beforeEachResponse := _beforeEachResponse c |}.

Definition with_mount (x : option behaviour) (c : config) : config :=
  {| _previousPromise := _previousPromise c; _location := _location c;
     _beforeEachNavGuard := _beforeEachNavGuard c; _mount := x;
     _request := _request c; _responses := _responses c;
     _beforeAnyResponse := _beforeAnyResponse c;
     _beforeEachResponse := _beforeEachResponse c |}.

Definition with_request (x : option (value -> behaviour)) (c : config) : config :=
  {| _previousPromise := _previousPromise c; _location := _location c;
     _beforeEachNavGuard := _beforeEachNavGuard c; _mount := _mount c;
     _request := x; _responses := _responses c;
     _beforeAnyResponse := _beforeAnyResponse c;
     _beforeEachResponse := _beforeEachResponse c |}.

Definition with_responses (x : nat) (c : config) : config :=
  {| _previousPromise := _previousPromise c; _location := _location c;
     _beforeEachNavGuard := _beforeEachNavGuard c; _mount := _mount c;
     _request := _request c; _responses := x;
     _beforeAnyResponse := _beforeAnyResponse c;
     _beforeEachResponse := _beforeEachResponse c |}.

Definition with_beforeAnyResponse (x : option (value -> behaviour)) (c : config) : config :=
  {| _previousPromise := _previousPromise c; _location := _location c;
     _beforeEachNavGuard := _beforeEachNavGuard c; _mount := _mount c;
     _request := _request c; _responses := _responses c;
     _beforeAnyResponse := x; _beforeEachResponse := _beforeEachResponse c |}.

Definition with_beforeEachResponse (x : option (value -> value -> nat -> behaviour)) (c : config) : config :=
  {| _previousPromise := _previousPromise c; _location := _location c;
     _beforeEachNavGuard := _beforeEachNavGuard c; _mount := _mount c;
     _request := _request c; _responses := _responses c;
     _beforeAnyResponse := _beforeAnyResponse c; _beforeEachResponse := x |}.

(** What [new MockHttp()] leaves of the world [w] in [w']: the new series
    [new] was not there, and every series and every array that was there is
    there unchanged. *)
Definition extends (w w' : world) (new : nat) : Prop :=
  heap w !! new = None
  ∧ (∀ s o, heap w !! s = Some o → heap w' !! s = Some o)
  ∧ (∀ a l, arrays w !! a = Some l → arrays w' !! a = Some l)
  ∧ inProgress w' = inProgress w ∧ http w' = http w ∧ runs w' = runs w
  ∧ guards w' = guards w ∧ trace w' = trace w.

(** The result of a configuration method called on the series [o]: a new
    series whose configuration is [c]. *)
Definition returns_copy (w : world) (res : result (nat * world)) (c : config) : Prop :=
  ∀ new w', res = Ok (new, w') →
    extends w w' new
    ∧ heap w' !! new = Some {| cfg := c; ctx := undefined_context |}.

(** The same for [respond()], which also makes a new array: the responses of
    the receiver followed by [extra]. *)
Definition returns_copy_responding (w : world) (o : MockHttp)
    (res : result (nat * world)) (extra : list response_callback) : Prop :=
  ∀ new w', res = Ok (new, w') →
    extends w w' new
    ∧ ∃ a, arrays w !! a = None
         ∧ arrays w' !! a = Some (responses_of w o ++ extra)
         ∧ heap w' !! new =
             Some {| cfg := with_responses a (cfg o); ctx := undefined_context |}.

(** The method returned: its result is a new series whose configuration is
    [c], in a world that [extends] the one before. *)
Definition makes_copy (w : world) (res : result (nat * world)) (c : config) : Prop :=
  ∃ new w', res = Ok (new, w')
    ∧ extends w w' new
    ∧ heap w' !! new = Some {| cfg := c; ctx := undefined_context |}.

(** The same for [respond()]: it returned, and the new series holds a new
    array, the responses of the receiver followed by [extra]. *)
Definition makes_copy_responding (w : world) (o : MockHttp)
    (res : result (nat * world)) (extra : list response_callback) : Prop :=
  ∃ new w', res = Ok (new, w')
    ∧ extends w w' new
    ∧ ∃ a, arrays w !! a = None
         ∧ arrays w' !! a = Some (responses_of w o ++ extra)
         ∧ heap w' !! new =
             Some {| cfg := with_responses a (cfg o); ctx := undefined_context |}.

(** ** Responses *)

(** What the closure that [respond()] stores completes with, its requests
    apart. *)
Definition response_completion (cb : option response_callback) : completion :=
  match cb with
  | None => Throw TypeError
  | Some (RespondWrapper callback) =>
      match completes callback with
      | Throw e => Throw e
      | Return result => respond_result result
      end
  end.

(** [response.status] as a number. *)
Definition status_of (response : value) : num :=
  to_number (default VUndefined (get response "status")).

(** [200 <= status < 300] *)
Definition in_success_range (n : num) : Prop :=
  ∃ q, n = Fin q ∧ (inject_Z 200 <= q)%Q ∧ (q < inject_Z 300)%Q.

(** The descriptor of a problem response. *)
Definition problem_response (status code : value) : value :=
  VObj [("status", status);
        ("data", VObj [("code", code); ("message", VStr "There was a problem.")])].

(** ** Example series *)

(** The series and world of a result that is known not to be a throw. *)
Definition ok (res : result (nat * world)) : nat * world :=
  match res with
  | Ok x => x
  | Raise _ => (0, empty_world HttpUndefined)
  end.

(** A method applied to the series that the previous call returned. *)
Definition chained (m : nat -> world -> result (nat * world))
    (res : result (nat * world)) : result (nat * world) :=
  match res with
  | Ok (this, w) => m this w
  | Raise e => Raise e
  end.

Definition get_a : value := VStr "GET /a".
Definition get_b : value := VStr "GET /b".

(** [mockHttp()] *)
Definition blank : nat * world := mockHttp (empty_world (Axios 0)).

(** [mockHttp().route('/').beforeEachNav(f).mount(C).request(g)
      .beforeAnyResponse(h).beforeEachResponse(k)] *)
Definition configured : nat * world :=
  ok (chained (λ s, beforeEachResponse s (λ _ _ _, returns VUndefined))
     (chained (λ s, beforeAnyResponse s (λ _, returns VUndefined))
     (chained (λ s, request s (λ _, {| sends := [get_a]; completes := Return VUndefined |}))
     (chained (λ s, mount s (returns (VHost 1)))
     (chained (λ s, beforeEachNav s (λ _ _ _, returns VUndefined))
     (route blank.1 (VStr "/") blank.2)))))).

(** [mockHttp().mount(C).request(g).respondWithSuccess()] and the series that
    [.complete()] returns for it. *)
Definition one_cycle : nat * world :=
  ok (chained (λ s, respondWithSuccess s)
     (chained (λ s, request s (λ _, {| sends := [get_a]; completes := Return VUndefined |}))
     (mount blank.1 (returns (VHost 1)) blank.2))).

Definition follow_up : nat * world := ok (complete one_cycle.1 one_cycle.2).

(** The series themselves, as the heap holds them. *)
Definition lookup_series (p : nat * world) : MockHttp :=
  default
    {| cfg := {| _previousPromise := None; _location := VNull;
                 _beforeEachNavGuard := None; _mount := None; _request := None;
                 _responses := 0; _beforeAnyResponse := None;
                 _beforeEachResponse := None |};
       ctx := undefined_context |}
    (heap p.2 !! p.1).

Definition blank_series : MockHttp := Eval vm_compute in lookup_series blank.
Definition configured_series : MockHttp := Eval vm_compute in lookup_series configured.
Definition follow_up_series : MockHttp := Eval vm_compute in lookup_series follow_up.

(** ** One series in the world *)

(** The harness as one series [s] and its run [r] see it: the execution fields
    of the series, the run, and the history. Everything else in the world
    (other series, other runs, the application) only shows through the
    transitions of [astep] below. *)
Record astate := { a_ctx : context; a_run : run; a_trace : list event }.

Definition ev_series (e : event) : nat :=
  match e with
  | EvRequest s _ _ | EvSurplus s _ | EvBeforeAny s _ | EvBeforeEach s _ _ _
  | EvResponse s _ _ | EvSettle s _ _ | EvGuard s _ _ _ => s
  end.

(** No event of [l] is about the series [s]. *)
Definition quiet (s : nat) (l : list event) : Prop :=
  Forall (λ e, ev_series e ≠ s) l.

(** [this.f = e] in a [catch], when the callback threw; nothing otherwise. *)
Definition caught (set : option exn -> context -> context) (c : completion)
    (x : context) : context :=
  match c with
  | Return _ => x
  | Throw e => set (store e) x
  end.

(** What the last handler of a request leaves in the fields. *)
Definition responded (c : completion) (x : context) : context :=
  set_responsesPromise (tail (_responsesPromise x))
    match c with
    | Throw e =>
        if is_set (_errorFromResponse x) then x
        else set_errorFromResponse (store e) x
    | Return response =>
        set_requestResponseLog (_requestResponseLog x ++ [LogResponse response]) x
    end.

(** The fields after a request that the stub queued a response for. *)
Definition accepted (resps : list response_callback) (count : nat) (config : value)
    (x : context) : context :=
  set_responsesPromise
    (_responsesPromise x
       ++ [{| j_index := count; j_config := config;
              j_callback := resps !! count; j_stage := StCatch |}])
    ((if (Z.of_nat count =? Z.of_nat (length resps) - 1)%Z
      then set_responseWithoutRequest false else id)
       (set_requestResponseLog (_requestResponseLog x ++ [LogRequest config]) x)).

(** The fields after a request that the stub rejected at once. *)
Definition refused (config : value) (x : context) : context :=
  set_requestWithoutResponse true
    (set_requestResponseLog (_requestResponseLog x ++ [LogRequest config]) x).

(** The fields that the callback of [_initialPromise()] sets. *)
Definition started (resps : list response_callback) (previousHttp : transport)
    (component : value) : context :=
  {| _inProgress := true;
     _errorFromBeforeEachNav := None;
     _previousHttp := previousHttp;
     _component := component;
     _responsesPromise := [];
     _errorFromBeforeAnyResponse := None;
     _errorFromBeforeEachResponse := None;
     _errorFromResponse := None;
     _requestWithoutResponse := false;
     _responseWithoutRequest := negb (length resps =? 0);
     _requestResponseLog := [] |}.

Definition is_rejected (o : outcome) : Prop :=
  match o with Rejected _ => True | Fulfilled _ => False end.

Inductive astep (s : nat) (cf : config) (resps : list response_callback)
  : astate -> astate -> Prop :=
| A_quiet x n tr l :
    (* something happens to other series *)
    quiet s l ->
    astep s cf resps
      {| a_ctx := x; a_run := n; a_trace := tr |}
      {| a_ctx := x; a_run := n; a_trace := l ++ tr |}
| A_accept x n tr request :
    r_pc n ≠ PInit ->
    r_count n ≠ length resps ->
    astep s cf resps
      {| a_ctx := x; a_run := n; a_trace := tr |}
      {| a_ctx := accepted resps (r_count n) request x;
         a_run := set_r_count (r_count n + 1) n;
         a_trace := EvRequest s (r_count n) request :: tr |}
| A_surplus x n tr request :
    r_pc n ≠ PInit ->
    r_count n = length resps ->
    astep s cf resps
      {| a_ctx := x; a_run := n; a_trace := tr |}
      {| a_ctx := refused request x; a_run := n;
         a_trace := EvSurplus s request :: tr |}
| A_catch x n tr j rest :
    _responsesPromise x = j :: rest ->
    j_stage j = StCatch ->
    astep s cf resps
      {| a_ctx := x; a_run := n; a_trace := tr |}
      {| a_ctx := advance StAny x; a_run := n; a_trace := tr |}
| A_any_skip x n tr j rest :
    _responsesPromise x = j :: rest ->
    j_stage j = StAny ->
    (j_index j =? 0) && bool_decide (is_Some (_beforeAnyResponse cf)) = false ->
    astep s cf resps
      {| a_ctx := x; a_run := n; a_trace := tr |}
      {| a_ctx := advance StEach x; a_run := n; a_trace := tr |}
| A_any_run x n tr j rest c :
    _responsesPromise x = j :: rest ->
    j_stage j = StAny ->
    j_index j = 0 ->
    is_Some (_beforeAnyResponse cf) ->
    astep s cf resps
      {| a_ctx := x; a_run := n; a_trace := tr |}
      {| a_ctx := advance StEach (caught set_errorFromBeforeAnyResponse c x);
         a_run := n; a_trace := EvBeforeAny s c :: tr |}
| A_each_skip x n tr j rest :
    _responsesPromise x = j :: rest ->
    j_stage j = StEach ->
    _beforeEachResponse cf = None ∨ is_set (_errorFromBeforeEachResponse x) = true ->
    astep s cf resps
      {| a_ctx := x; a_run := n; a_trace := tr |}
      {| a_ctx := advance StExec x; a_run := n; a_trace := tr |}
| A_each_run x n tr j rest c :
    _responsesPromise x = j :: rest ->
    j_stage j = StEach ->
    is_Some (_beforeEachResponse cf) ->
    is_set (_errorFromBeforeEachResponse x) = false ->
    astep s cf resps
      {| a_ctx := x; a_run := n; a_trace := tr |}
      {| a_ctx := advance StExec (caught set_errorFromBeforeEachResponse c x);
         a_run := n;
         a_trace := EvBeforeEach s (j_config j) (j_index j) c :: tr |}
| A_exec x n tr j rest :
    _responsesPromise x = j :: rest ->
    j_stage j = StExec ->
    let c := response_completion (j_callback j) in
    astep s cf resps
      {| a_ctx := x; a_run := n; a_trace := tr |}
      {| a_ctx := responded c x; a_run := n;
         a_trace := EvSettle s (j_index j) (response_outcome (j_config j) c)
                    :: EvResponse s (j_index j) c :: tr |}
| A_guard x n tr to from c :
    _inProgress x = true ->
    is_set (_errorFromBeforeEachNav x) = false ->
    astep s cf resps
      {| a_ctx := x; a_run := n; a_trace := tr |}
      {| a_ctx := caught set_errorFromBeforeEachNav c x; a_run := n;
         a_trace := EvGuard s to from c :: tr |}
| A_init_ok x n tr previousHttp component prev :
    r_pc n = PInit ->
    astep s cf resps
      {| a_ctx := x; a_run := n; a_trace := tr |}
      {| a_ctx := started resps previousHttp component;
         a_run := set_r_pc PGuard
                    (set_r_settled (Fulfilled VUndefined)
                       (set_r_count 0 (set_r_settled prev n)));
         a_trace := tr |}
| A_init_fail x n tr e prev :
    r_pc n = PInit ->
    astep s cf resps
      {| a_ctx := x; a_run := n; a_trace := tr |}
      {| a_ctx := x;
         a_run := set_r_pc PGuard (set_r_settled (Rejected e) (set_r_settled prev n));
         a_trace := tr |}
| A_main x n tr component inProgress' p o :
    (* a later handler of the run: it may mount, and it cleans up *)
    r_pc n ≠ PInit ->
    p ≠ PInit ->
    (is_rejected (r_settled n) -> is_rejected o) ->
    astep s cf resps
      {| a_ctx := x; a_run := n; a_trace := tr |}
      {| a_ctx := set_component component (set_inProgress inProgress' x);
         a_run := set_r_pc p (set_r_settled o n);
         a_trace := tr |}.

(** The world [w] shows the series [s], configured by [cf] with the responses
    [resps], and its only run [r], in the state [a]. *)
Definition sees (r s : nat) (cf : config) (resps : list response_callback)
    (w : world) (a : astate) : Prop :=
  heap w !! s = Some {| cfg := cf; ctx := a_ctx a |}
  ∧ runs w !! r = Some (a_run a)
  ∧ trace w = a_trace a
  ∧ r_self (a_run a) = s
  ∧ default [] (arrays w !! _responses cf) = resps
  ∧ map_Forall (λ r' n', r_self n' = s → r' = r) (runs w).

(** The stub of run [r] is nowhere: neither installed nor saved. *)
Definition dormant (r : nat) (w : world) : Prop :=
  http w ≠ Stub r
  ∧ map_Forall (λ _ o, _previousHttp (ctx o) ≠ Stub r) (heap w).

(** As long as the first handler of run [r] has not run. *)
Definition unborn (r : nat) (w : world) : Prop :=
  ∀ n, runs w !! r = Some n → r_pc n = PInit → dormant r w.

Definition coupled (r s : nat) (cf : config) (resps : list response_callback)
    (w : world) (a : astate) : Prop :=
  sees r s cf resps w a ∧ unborn r w.

(** The state [a] can reach a state that [w] shows. *)
Definition reaches (r s : nat) (cf : config) (resps : list response_callback)
    (a : astate) (w : world) : Prop :=
  ∃ a', rtc (astep s cf resps) a a' ∧ sees r s cf resps w a'.

(** ** What the environment leaves alone *)

(** The stub, the hooks and the guards never touch the configuration of a
    series, nor the fields that [_initialPromise()] and the handlers of
    [afterResponses()] own; of a run they only move the counter of its stub. *)
Definition same_control (o o' : MockHttp) : Prop :=
  cfg o' = cfg o
  ∧ _inProgress (ctx o') = _inProgress (ctx o)
  ∧ _previousHttp (ctx o') = _previousHttp (ctx o)
  ∧ _component (ctx o') = _component (ctx o).

Definition same_position (n n' : run) : Prop :=
  r_self n' = r_self n
  ∧ r_callback n' = r_callback n
  ∧ r_pollWork n' = r_pollWork n
  ∧ r_pc n' = r_pc n
  ∧ r_settled n' = r_settled n.

Definition calm (w w' : world) : Prop :=
  http w' = http w
  ∧ inProgress w' = inProgress w
  ∧ guards w' = guards w
  ∧ arrays w' = arrays w
  ∧ (∀ s, option_Forall2 same_control (heap w !! s) (heap w' !! s))
  ∧ (∀ r, option_Forall2 same_position (runs w !! r) (runs w' !! r)).

(** The requests of a callback only add to the chain of responses and to the
    log of a series. *)
Definition stub_only (a a' : astate) : Prop :=
  (∃ l, _responsesPromise (a_ctx a') = _responsesPromise (a_ctx a) ++ l)
  ∧ _inProgress (a_ctx a') = _inProgress (a_ctx a)
  ∧ _component (a_ctx a') = _component (a_ctx a)
  ∧ _errorFromBeforeEachNav (a_ctx a') = _errorFromBeforeEachNav (a_ctx a)
  ∧ _errorFromBeforeAnyResponse (a_ctx a') = _errorFromBeforeAnyResponse (a_ctx a)
  ∧ _errorFromBeforeEachResponse (a_ctx a') = _errorFromBeforeEachResponse (a_ctx a)
  ∧ _errorFromResponse (a_ctx a') = _errorFromResponse (a_ctx a)
  ∧ (_requestResponseLog (a_ctx a) ≠ [] → _requestResponseLog (a_ctx a') ≠ [])
  ∧ same_position (a_run a) (a_run a').

(** What the handlers of [afterResponses()] after the first one leave alone
    in the fields of the series and of the run. *)
Definition same_queue (x x' : context) : Prop :=
  _errorFromBeforeEachNav x' = _errorFromBeforeEachNav x
  ∧ _previousHttp x' = _previousHttp x
  ∧ _responsesPromise x' = _responsesPromise x
  ∧ _errorFromBeforeAnyResponse x' = _errorFromBeforeAnyResponse x
  ∧ _errorFromBeforeEachResponse x' = _errorFromBeforeEachResponse x
  ∧ _errorFromResponse x' = _errorFromResponse x
  ∧ _requestWithoutResponse x' = _requestWithoutResponse x
  ∧ _responseWithoutRequest x' = _responseWithoutRequest x
  ∧ _requestResponseLog x' = _requestResponseLog x.

Definition same_counter (n n' : run) : Prop :=
  r_self n' = r_self n
  ∧ r_callback n' = r_callback n
  ∧ r_pollWork n' = r_pollWork n
  ∧ r_count n' = r_count n.

(** The state [a] can reach a state that [w] shows by steps that only add
    requests. *)
Definition drifts (r s : nat) (cf : config) (resps : list response_callback)
    (a : astate) (w : world) : Prop :=
  ∃ a', rtc (astep s cf resps) a a' ∧ sees r s cf resps w a' ∧ stub_only a a'.

(** ** Properties of the history *)

(** [P e before] for every event [e] of the history and the events [before]
    it (the history has the latest event first). *)
Definition each_event (P : event -> list event -> Prop) (tr : list event) : Prop :=
  ∀ after e before, tr = after ++ e :: before → P e before.

(** Response [i + 1] settles after response [i] has settled. *)
Definition settles_in_order (s : nat) (e : event) (before : list event) : Prop :=
  ∀ i o, e = EvSettle s (S i) o → ∃ o', EvSettle s i o' ∈ before.

(** The beforeEachResponse hook ran for request [i], or it had thrown (an
    error that is not [null] or [undefined]) for an earlier one. *)
Definition each_hook_ran (s i : nat) (before : list event) : Prop :=
  (∃ config c, EvBeforeEach s config i c ∈ before)
  ∨ (∃ config i' e,
       i' < i ∧ EvBeforeEach s config i' (Throw e) ∈ before
       ∧ is_set (Some e) = true).

(** Before response [i] settles, the hook has run for it (as far as it runs
    at all). *)
Definition hook_before_response (s : nat) (cf : config) (e : event)
    (before : list event) : Prop :=
  ∀ i o, e = EvSettle s i o → is_Some (_beforeEachResponse cf) →
    each_hook_ran s i before.

(** The claim as the specification has it: the hook has run for request
    [i] itself. *)
Definition hook_before_response_always (s : nat) (cf : config) (e : event)
    (before : list event) : Prop :=
  ∀ i o, e = EvSettle s i o → is_Some (_beforeEachResponse cf) →
    ∃ config c, EvBeforeEach s config i c ∈ before.

(** Before the first response settles, the beforeAnyResponse hook has run. *)
Definition any_hook_before_first (s : nat) (cf : config) (e : event)
    (before : list event) : Prop :=
  ∀ o, e = EvSettle s 0 o → is_Some (_beforeAnyResponse cf) →
    ∃ c, EvBeforeAny s c ∈ before.

(** When the beforeAnyResponse hook runs, no response has settled and the
    hook has not run before. *)
Definition any_hook_first_and_once (s : nat) (e : event) (before : list event)
  : Prop :=
  ∀ c, e = EvBeforeAny s c →
    (∀ i o, EvSettle s i o ∉ before) ∧ (∀ c', EvBeforeAny s c' ∉ before).

(** A response settles as its response callback completed just before, and
    that is the callback queued at its position, for a request the stub took. *)
Definition settles_as_responded (s : nat) (resps : list response_callback)
    (e : event) (before : list event) : Prop :=
  ∀ i o, e = EvSettle s i o →
    ∃ config c rest,
      before = EvResponse s i c :: rest
      ∧ c = response_completion (resps !! i)
      ∧ EvRequest s i config ∈ rest
      ∧ o = response_outcome config c.

(** The requests that the stub of the series received. *)
Definition is_request (s : nat) (e : event) : bool :=
  match e with
  | EvRequest s' _ _ | EvSurplus s' _ => s' =? s
  | _ => false
  end.

Definition requests_received (s : nat) (tr : list event) : nat :=
  length (filter (λ e, is_request s e = true) tr).

Definition is_accept (s : nat) (e : event) : bool :=
  match e with EvRequest s' _ _ => s' =? s | _ => false end.

Definition is_surplus (s : nat) (e : event) : bool :=
  match e with EvSurplus s' _ => s' =? s | _ => false end.

Definition accepted_count (s : nat) (tr : list event) : nat :=
  length (filter (λ e, is_accept s e = true) tr).

Definition surplus_count (s : nat) (tr : list event) : nat :=
  length (filter (λ e, is_surplus s e = true) tr).

(** ** Invariants of one series *)

(** The index of the next response to settle. *)
Definition next_index (a : astate) : nat :=
  r_count (a_run a) - length (_responsesPromise (a_ctx a)).

Definition head_at (a : astate) (i : nat) (st : stage) : Prop :=
  ∃ j rest, _responsesPromise (a_ctx a) = j :: rest ∧ j_index j = i ∧ j_stage j = st.

(** The chain of responses holds the requests that wait for a response, in
    order; only the first one has started on its handlers. *)
Record chain_inv (s : nat) (resps : list response_callback) (a : astate) : Prop := {
  ci_unborn :
    r_pc (a_run a) = PInit →
    quiet s (a_trace a) ∧ _responsesPromise (a_ctx a) = []
    ∧ r_count (a_run a) = 0 ∧ _inProgress (a_ctx a) = false;
  ci_len : length (_responsesPromise (a_ctx a)) ≤ r_count (a_run a);
  ci_idx :
    j_index <$> _responsesPromise (a_ctx a)
    = seq (next_index a) (length (_responsesPromise (a_ctx a)));
  ci_tail : Forall (λ j, j_stage j = StCatch) (tail (_responsesPromise (a_ctx a)));
  ci_jobs :
    Forall (λ j, j_callback j = resps !! j_index j
                 ∧ EvRequest s (j_index j) (j_config j) ∈ a_trace a)
      (_responsesPromise (a_ctx a));
  ci_settled_lt : ∀ i o, EvSettle s i o ∈ a_trace a → i < next_index a;
  ci_settled_all : ∀ i, i < next_index a → ∃ o, EvSettle s i o ∈ a_trace a;
  ci_responded : ∀ i c, EvResponse s i c ∈ a_trace a → i < next_index a
}.

(** Where the hooks stand. *)
Record hooks_inv (s : nat) (cf : config) (a : astate) : Prop := {
  hi_each_at :
    ∀ config i c, EvBeforeEach s config i c ∈ a_trace a →
      i < next_index a ∨ head_at a i StExec;
  hi_each_done :
    ∀ i, head_at a i StExec → is_Some (_beforeEachResponse cf) →
      each_hook_ran s i (a_trace a);
  hi_each_err :
    is_set (_errorFromBeforeEachResponse (a_ctx a)) = true →
    ∃ config i e, EvBeforeEach s config i (Throw e) ∈ a_trace a
                  ∧ is_set (Some e) = true;
  hi_any_at :
    ∀ c, EvBeforeAny s c ∈ a_trace a →
      0 < next_index a ∨ head_at a 0 StEach ∨ head_at a 0 StExec;
  hi_any_done :
    head_at a 0 StEach ∨ head_at a 0 StExec → is_Some (_beforeAnyResponse cf) →
    ∃ c, EvBeforeAny s c ∈ a_trace a
}.

(** What has been thrown is stored. *)
Record errors_inv (s : nat) (a : astate) : Prop := {
  ei_nav :
    ∀ to from e, EvGuard s to from (Throw e) ∈ a_trace a → is_set (Some e) = true →
      is_set (_errorFromBeforeEachNav (a_ctx a)) = true;
  ei_any :
    ∀ e, EvBeforeAny s (Throw e) ∈ a_trace a → is_set (Some e) = true →
      is_set (_errorFromBeforeAnyResponse (a_ctx a)) = true;
  ei_each :
    ∀ config i e, EvBeforeEach s config i (Throw e) ∈ a_trace a →
      is_set (Some e) = true →
      is_set (_errorFromBeforeEachResponse (a_ctx a)) = true;
  ei_response :
    ∀ i e, EvResponse s i (Throw e) ∈ a_trace a → is_set (Some e) = true →
      is_set (_errorFromResponse (a_ctx a)) = true
}.

(** What is stored has been thrown. *)
Record sources_inv (s : nat) (a : astate) : Prop := {
  so_nav :
    is_set (_errorFromBeforeEachNav (a_ctx a)) = true →
    ∃ to from e, EvGuard s to from (Throw e) ∈ a_trace a ∧ is_set (Some e) = true;
  so_any :
    is_set (_errorFromBeforeAnyResponse (a_ctx a)) = true →
    ∃ e, EvBeforeAny s (Throw e) ∈ a_trace a ∧ is_set (Some e) = true;
  so_response :
    is_set (_errorFromResponse (a_ctx a)) = true →
    ∃ i e, EvResponse s i (Throw e) ∈ a_trace a ∧ is_set (Some e) = true
}.

(** The two flags count the requests against the responses. *)
Definition flags_ok (s : nat) (resps : list response_callback) (a : astate) : Prop :=
  r_count (a_run a) = accepted_count s (a_trace a)
  ∧ r_count (a_run a) ≤ length resps
  ∧ _responseWithoutRequest (a_ctx a) = (r_count (a_run a) <? length resps)
  ∧ _requestWithoutResponse (a_ctx a) = (0 <? surplus_count s (a_trace a))
  ∧ (0 < surplus_count s (a_trace a) → r_count (a_run a) = length resps).

Definition flags_inv (s : nat) (resps : list response_callback) (a : astate) : Prop :=
  r_pc (a_run a) = PInit ∨ is_rejected (r_settled (a_run a)) ∨ flags_ok s resps a.

(** The properties of the history of one series. *)
Record history_inv (s : nat) (cf : config) (resps : list response_callback)
    (tr : list event) : Prop := {
  hy_order : each_event (settles_in_order s) tr;
  hy_each : each_event (hook_before_response s cf) tr;
  hy_any : each_event (any_hook_before_first s cf) tr;
  hy_any_once : each_event (any_hook_first_and_once s) tr;
  hy_responded : each_event (settles_as_responded s resps) tr
}.

Record series_inv (s : nat) (cf : config) (resps : list response_callback)
    (a : astate) : Prop := {
  si_chain : chain_inv s resps a;
  si_hooks : hooks_inv s cf a;
  si_errors : errors_inv s a;
  si_sources : sources_inv s a;
  si_flags : flags_inv s resps a;
  si_history : history_inv s cf resps (a_trace a)
}.

(** ** Starting points *)

(** The run [r] of the series [s] has not started: its first handler has not
    run, the fields of the series are as the constructor left them, and the
    history knows nothing of the series. *)
Definition unstarted (r s : nat) (cf : config) (resps : list response_callback)
    (w : world) : Prop :=
  ∃ n,
    heap w !! s = Some {| cfg := cf; ctx := undefined_context |}
    ∧ runs w !! r = Some n
    ∧ r_self n = s ∧ r_pc n = PInit ∧ r_count n = 0
    ∧ default [] (arrays w !! _responses cf) = resps
    ∧ map_Forall (λ r' n', r_self n' = s → r' = r) (runs w)
    ∧ quiet s (trace w)
    ∧ dormant r w.

(** ** What was thrown *)

(** A callback of the series [s] threw something that is not [null] or
    [undefined]: the guard, one of the two hooks, a response callback. *)
Definition nav_threw (s : nat) (tr : list event) : Prop :=
  ∃ to from e, EvGuard s to from (Throw e) ∈ tr ∧ is_set (Some e) = true.

Definition any_threw (s : nat) (tr : list event) : Prop :=
  ∃ e, EvBeforeAny s (Throw e) ∈ tr ∧ is_set (Some e) = true.

Definition each_threw (s : nat) (tr : list event) : Prop :=
  ∃ config i e, EvBeforeEach s config i (Throw e) ∈ tr ∧ is_set (Some e) = true.

Definition response_threw (s : nat) (tr : list event) : Prop :=
  ∃ i e, EvResponse s i (Throw e) ∈ tr ∧ is_set (Some e) = true.

(** The claim that no error of a callback reaches the application: the
    promise of a request is never rejected with what the response callback
    threw. *)
Definition kept_from_application (s : nat) (tr : list event) : Prop :=
  ∀ i e, EvResponse s i (Throw e) ∈ tr → EvSettle s i (Rejected e) ∉ tr.

(** ** The handlers of a run *)

Definition next_pc (p : pc) : pc :=
  match p with
  | PInit => PGuard | PGuard => PNavMount | PNavMount => PAsync | PAsync => PRequest
  | PRequest => PWait | PWait => PPoll | PPoll => PRestore | PRestore => PVerify
  | PVerify => PCallback | PCallback => PWrap | PWrap => PCleanup
  | PCleanup => PDone | PDone => PDone
  end.

(** The handlers that are left from [p] on. *)
Definition handlers_left (p : pc) : nat :=
  match p with
  | PInit => 12 | PGuard => 11 | PNavMount => 10 | PAsync => 9 | PRequest => 8
  | PWait => 7 | PPoll => 6 | PRestore => 5 | PVerify => 4 | PCallback => 3
  | PWrap => 2 | PCleanup => 1 | PDone => 0
  end.

(** The handlers after the check of the state. *)
Definition closing (p : pc) : Prop :=
  p = PCallback ∨ p = PWrap ∨ p = PCleanup ∨ p = PDone.

(** What the run [n] has settled to after the handler at [r_pc n], from the
    check of the state on, for the fields [x] of its series. *)
Definition settles_next (n : run) (x : context) : outcome :=
  match r_settled n with
  | Rejected e => Rejected e
  | Fulfilled v =>
      match r_pc n with
      | PVerify => settle (_checkStateAfterWait x)
      | PCallback =>
          match r_callback n with
          | Some callback => settle (completes (callback (_component x)))
          | None => Rejected TypeError
          end
      | PWrap => Fulfilled (VObj [("component", _component x); ("result", v)])
      | _ => Fulfilled v
      end
  end.

(** The completion callback of the run returns, whatever the component. *)
Definition callback_returns (n : run) : Prop :=
  ∃ callback, r_callback n = Some callback
              ∧ ∀ component, ∃ v, completes (callback component) = Return v.

(** ** Schedules *)

Definition is_main (r : nat) (act : action) : bool :=
  match act with Main r' => r' =? r | _ => false end.

(** How often the schedule runs a handler of run [r]. *)
Definition mains (r : nat) (sched : list action) : nat :=
  length (filter (λ act, is_main r act = true) sched).

(** No handler of another run than [r] is scheduled: the series of [r]
    executes alone, with the application, the router and its own chain of
    responses. *)
Definition solo (r : nat) (sched : list action) : bool :=
  forallb (λ act, match act with Main r' => r' =? r | _ => true end) sched.

Definition times (k : nat) (act : action) : list action := replicate k act.

(** ** The transport during a run *)

(** What the handlers between the first one and the one that restores leave
    alone: the transport, and of every series the configuration, its own
    in-progress flag and the transport it saved. *)
Definition same_saved (o o' : MockHttp) : Prop :=
  cfg o' = cfg o
  ∧ _inProgress (ctx o') = _inProgress (ctx o)
  ∧ _previousHttp (ctx o') = _previousHttp (ctx o).

Definition steady (w w' : world) : Prop :=
  http w' = http w
  ∧ ∀ s, option_Forall2 same_saved (heap w !! s) (heap w' !! s).

(** Where the transport [t0] that was there at the start is, by the handler
    that the run is at: still installed, saved in the series, or restored. *)
Definition transport_inv (t0 : transport) (w : world) (n : run) (x : context) : Prop :=
  match r_pc n with
  | PInit => http w = t0 ∧ _inProgress x = false
  | PGuard | PNavMount | PAsync | PRequest | PWait | PPoll | PRestore =>
      (_inProgress x = true ∧ _previousHttp x = t0)
      ∨ (_inProgress x = false ∧ http w = t0)
  | PVerify | PCallback | PWrap | PCleanup | PDone => http w = t0
  end.

(** The run is on time after [k] of its handlers were scheduled: each of them
    ran, the first one as the previous promise had settled. *)
Definition on_time (cf : config) (k : nat) (w : world) (a : astate) : Prop :=
  handlers_left (r_pc (a_run a)) = 12 - k
  ∧ (r_pc (a_run a) = PInit →
     is_Some (previous_outcome w {| cfg := cf; ctx := a_ctx a |})).

(** ** Example runs *)

Definition boom : exn := JsError "boom".

(** The series that run [r] executes, its configuration and its responses. *)
Definition series_of (w : world) (r : nat) : nat :=
  default 0 (r_self <$> runs w !! r).

Definition config_of (w : world) (r : nat) : config :=
  cfg (lookup_series (series_of w r, w)).

Definition responses_in (w : world) (r : nat) : list response_callback :=
  responses_of w (lookup_series (series_of w r, w)).

Definition run_of (w : world) (r : nat) : run :=
  default
    {| r_self := 0; r_callback := None; r_pollWork := None; r_pc := PDone;
       r_settled := Rejected TypeError; r_count := 0 |}
    (runs w !! r).

(** [mockHttp().mount(C).request(g).respondWithSuccess().complete()]: run 0,
    up to the check of the state and to the end, with a request and a
    navigation of the application in between. *)
Definition cycle_self : nat := Eval vm_compute in series_of follow_up.2 0.
Definition cycle_config : config := Eval vm_compute in config_of follow_up.2 0.
Definition cycle_responses : list response_callback :=
  Eval vm_compute in responses_in follow_up.2 0.

Definition cycle_to_verify : list action :=
  times 5 (Main 0) ++ times 4 (Chain cycle_self) ++ times 3 (Main 0).



Definition cycle_alone : list action :=
  times 5 (Main 0) ++ times 4 (Chain cycle_self)
  ++ [NavEvent (VStr "/a") (VStr "/")] ++ times 2 (Main 0) ++ [Send get_b]
  ++ times 5 (Main 0).

(** The same run when the last handler of its request is next. *)
Definition cycle_waiting : world := exec (times 5 (Main 0) ++ times 3 (Chain cycle_self)) follow_up.2.

Definition waiting_series : MockHttp :=
  Eval vm_compute in lookup_series (cycle_self, cycle_waiting).

Definition waiting_job : job :=
  Eval vm_compute in
    default {| j_index := 0; j_config := VUndefined; j_callback := None; j_stage := StCatch |}
      (head (_responsesPromise (ctx waiting_series))).

Definition success_response : value :=
  VObj [("status", VNum (Fin (inject_Z 200))); ("data", VObj [("success", VBool true)])].

(** [mockHttp().request(c => { $http(a); $http(b); }).respondWithSuccess()
      .respondWithSuccess().respondWithSuccess()
      .beforeEachResponse(() => { throw boom; }).complete()]: two requests
    for three responses, and a hook that throws. *)
Definition hooked : nat * world :=
  ok (chained (λ s, complete s)
     (chained (λ s, beforeEachResponse s (λ _ _ _, throws boom))
     (chained (λ s, respondWithSuccess s)
     (chained (λ s, respondWithSuccess s)
     (chained (λ s, respondWithSuccess s)
     (request blank.1
        (λ _, {| sends := [get_a; get_b]; completes := Return VUndefined |})
        blank.2)))))).

Definition hooked_self : nat := Eval vm_compute in series_of hooked.2 0.
Definition hooked_config : config := Eval vm_compute in config_of hooked.2 0.
Definition hooked_responses : list response_callback :=
  Eval vm_compute in responses_in hooked.2 0.

Definition hooked_to_verify : list action :=
  times 5 (Main 0) ++ times 8 (Chain hooked_self) ++ times 3 (Main 0).

Definition hooked_to_end : list action := hooked_to_verify ++ times 4 (Main 0).

Definition hooked_at_verify : run :=
  Eval vm_compute in run_of (exec hooked_to_verify hooked.2) 0.

Definition hooked_history : list event :=
  Eval vm_compute in trace (exec hooked_to_end hooked.2).

(** [mockHttp().request(c => { $http(a); }).respond(() => { throw boom; })
      .complete()]: a response callback that throws. *)
Definition faulty : nat * world :=
  ok (chained (λ s, complete s)
     (chained (λ s, respond s (throws boom))
     (request blank.1
        (λ _, {| sends := [get_a]; completes := Return VUndefined |})
        blank.2))).

Definition faulty_self : nat := Eval vm_compute in series_of faulty.2 0.

Definition faulty_schedule : list action :=
  times 5 (Main 0) ++ times 4 (Chain faulty_self).

Definition faulty_history : list event :=
  Eval vm_compute in trace (exec faulty_schedule faulty.2).

(** Three series on one page, each started by [complete()]: the runs 0, 1
    and 2. *)
Definition start_series (w : world) : world :=
  (ok (chained (λ s, complete s)
      (chained (λ s, respondWithSuccess s)
      (request (mockHttp w).1
         (λ _, {| sends := [get_a]; completes := Return VUndefined |})
         (mockHttp w).2)))).2.

Definition trio : world :=
  start_series (start_series (start_series (empty_world (Axios 0)))).

(** Run 0 up to its request, whose promise stays pending; then all of run 1. *)
Definition overtaking : list action := times 5 (Main 0) ++ times 12 (Main 1).

(** Run 0 up to its request and all of run 1, as before; then run 0 up to
    the check of the state, the first handler of run 2, and the rest of
    run 0. *)
Definition overlapping : list action :=
  overtaking ++ times 3 (Main 0) ++ [Main 2] ++ times 4 (Main 0).

(** Run 0 up to its request and all of run 1; then the first handler of
    run 2, the rest of run 0 and the rest of run 2: all three runs are
    done. *)
Definition stranded : list action :=
  overtaking ++ [Main 2] ++ times 7 (Main 0) ++ times 11 (Main 2).

(** [mockHttp().request(c => { $http(a); $http(b); }).respondWithSuccess()
      .complete()]: two requests for one response. *)
Definition surplus : nat * world :=
  ok (chained (λ s, complete s)
     (chained (λ s, respondWithSuccess s)
     (request blank.1
        (λ _, {| sends := [get_a; get_b]; completes := Return VUndefined |})
        blank.2))).

Definition surplus_self : nat := Eval vm_compute in series_of surplus.2 0.

(** ** How the stub and the callbacks are used *)

(** Response callback [i] is called once, after the callbacks before it. *)
Definition responds_once_in_order (s : nat) (e : event) (before : list event)
  : Prop :=
  ∀ i c, e = EvResponse s i c →
    (∀ c', EvResponse s i c' ∉ before)
    ∧ (∀ i', i' < i → ∃ c', EvResponse s i' c' ∈ before).

(** A response settles once. *)
Definition settles_once (s : nat) (e : event) (before : list event) : Prop :=
  ∀ i o, e = EvSettle s i o → ∀ o', EvSettle s i o' ∉ before.

(** The stub numbers the requests it takes by the order in which they come,
    takes no more than there are responses, and turns a request down only
    when every response has been taken. *)
Definition requests_numbered (s : nat) (resps : list response_callback)
    (e : event) (before : list event) : Prop :=
  (∀ i config, e = EvRequest s i config →
     i = accepted_count s before ∧ i < length resps)
  ∧ (∀ config, e = EvSurplus s config → accepted_count s before = length resps).

(** The guard is not called once it has thrown, nor is the
    beforeEachResponse hook. *)
Definition guard_not_after_throw (s : nat) (e : event) (before : list event)
  : Prop :=
  ∀ to from c, e = EvGuard s to from c → ¬ nav_threw s before.

Definition is_guard (s : nat) (e : event) : bool :=
  match e with EvGuard s' _ _ _ => s' =? s | _ => false end.

Definition hook_not_after_throw (s : nat) (e : event) (before : list event)
  : Prop :=
  ∀ config i c, e = EvBeforeEach s config i c → ¬ each_threw s before.

(** The counter of the stub is the number of requests it has taken, and the
    log is empty as long as no request has come. *)
Record usage_inv (s : nat) (resps : list response_callback) (a : astate) : Prop := {
  us_count : r_count (a_run a) = accepted_count s (a_trace a);
  us_bound : r_count (a_run a) ≤ length resps;
  us_log :
    _requestResponseLog (a_ctx a) = [] ↔ requests_received s (a_trace a) = 0;
  us_responses : each_event (responds_once_in_order s) (a_trace a);
  us_requests : each_event (requests_numbered s resps) (a_trace a);
  us_guard : each_event (guard_not_after_throw s) (a_trace a);
  us_hook : each_event (hook_not_after_throw s) (a_trace a)
}.

(** ** What a run settles to, handler by handler *)

(** What the run [n] has settled to after the handler at [r_pc n], any
    handler but the first, for the configuration [cf] and the fields [x] of
    its series. *)
Definition settles_by (cf : config) (n : run) (x : context) : outcome :=
  match r_pc n with
  | PGuard | PAsync =>
      match r_settled n with
      | Fulfilled _ => Fulfilled VUndefined
      | Rejected e => Rejected e
      end
  | PNavMount =>
      match r_settled n with
      | Fulfilled _ =>
          match _mount cf with
          | Some mount =>
              match completes mount with
              | Return _ => Fulfilled VUndefined
              | Throw e => Rejected e
              end
          | None => Fulfilled VUndefined
          end
      | Rejected e => Rejected e
      end
  | PRequest =>
      match r_settled n with
      | Fulfilled _ =>
          match _request cf with
          | Some request =>
              match _requestResponseLog x with
              | [] => settle (completes (request (_component x)))
              | _ :: _ =>
                  Rejected
                    (JsError "a request was sent before the request() callback was run")
              end
          | None => Fulfilled VUndefined
          end
      | Rejected e => Rejected e
      end
  | PPoll =>
      match r_pollWork n with
      | Some pollWork =>
          match completes (pollWork (_component x)) with
          | Return v =>
              if truthy v then r_settled n
              else Rejected (JsError "waitUntil() timed out")
          | Throw e => Rejected e
          end
      | None => r_settled n
      end
  | PVerify | PCallback | PWrap => settles_next n x
  | PInit | PWait | PRestore | PCleanup | PDone => r_settled n
  end.

(** The poll of the run, if there is one, ends well. *)
Definition poll_succeeds (n : run) : Prop :=
  ∀ pollWork component, r_pollWork n = Some pollWork →
    ∃ v, completes (pollWork component) = Return v ∧ truthy v = true.

(** What the run carries from the completion callback on. *)
Definition carries (n : run) (x : context) : Prop :=
  match r_pc n with
  | PWrap =>
      ∀ v, r_settled n = Fulfilled v →
        ∃ callback, r_callback n = Some callback
                    ∧ completes (callback (_component x)) = Return v
  | PCleanup | PDone =>
      ∀ v, r_settled n = Fulfilled v →
        ∃ callback result,
          r_callback n = Some callback
          ∧ completes (callback (_component x)) = Return result
          ∧ v = VObj [("component", _component x); ("result", result)]
  | _ => True
  end.


(** ** More example runs *)

Definition faulty_config : config := Eval vm_compute in config_of faulty.2 0.
Definition faulty_responses : list response_callback :=
  Eval vm_compute in responses_in faulty.2 0.

(** The faulty series up to the handler after the check of the state. *)
Definition faulty_checked : list action := faulty_schedule ++ times 4 (Main 0).

Definition faulty_at_callback : run :=
  Eval vm_compute in run_of (exec faulty_checked faulty.2) 0.

(** [faulty.request(c => { $http(b); }).respondWithSuccess().complete()]: a
    second series that follows the faulty one, run 1. *)
Definition after_faulty : nat * world :=
  ok (chained (λ s, complete s)
     (chained (λ s, respondWithSuccess s)
     (request faulty.1
        (λ _, {| sends := [get_b]; completes := Return VUndefined |})
        faulty.2))).

Definition after_faulty_self : nat := Eval vm_compute in series_of after_faulty.2 1.
Definition after_faulty_config : config := Eval vm_compute in config_of after_faulty.2 1.
Definition after_faulty_responses : list response_callback :=
  Eval vm_compute in responses_in after_faulty.2 1.
Definition after_faulty_series : MockHttp :=
  Eval vm_compute in lookup_series (after_faulty_self, after_faulty.2).

(** All of run 0, then run 1. *)
Definition faulty_to_end : list action := faulty_schedule ++ times 7 (Main 0).

Definition after_faulty_start : run :=
  Eval vm_compute in run_of (exec faulty_to_end after_faulty.2) 1.

(** [mockHttp().mount(C).request(g).respondWithSuccess().complete()] where
    mounting [C] sends a request. *)
Definition eager : nat * world :=
  ok (chained (λ s, complete s)
     (chained (λ s, respondWithSuccess s)
     (chained (λ s, request s (λ _, {| sends := [get_b]; completes := Return VUndefined |}))
     (mount blank.1 {| sends := [get_a]; completes := Return (VHost 1) |} blank.2)))).

Definition eager_self : nat := Eval vm_compute in series_of eager.2 0.
Definition eager_config : config := Eval vm_compute in config_of eager.2 0.
Definition eager_responses : list response_callback :=
  Eval vm_compute in responses_in eager.2 0.

Definition eager_to_request : list action := times 4 (Main 0).

Definition eager_at_request : run :=
  Eval vm_compute in run_of (exec eager_to_request eager.2) 0.

Definition eager_fields : context :=
  Eval vm_compute in ctx (lookup_series (eager_self, exec eager_to_request eager.2)).

Definition cycle_to_end : list action := cycle_to_verify ++ times 4 (Main 0).

Definition cycle_at_end : run :=
  Eval vm_compute in run_of (exec cycle_to_end follow_up.2) 0.

(** [mockHttp().request(c => { $http(a); }).beforeEachNav(() => { throw boom; })
      .respondWithSuccess().complete()], with two navigations of the router
    while the series executes. *)
Definition guarded : nat * world :=
  ok (chained (λ s, complete s)
     (chained (λ s, respondWithSuccess s)
     (chained (λ s, beforeEachNav s (λ _ _ _, throws boom))
     (request blank.1
        (λ _, {| sends := [get_a]; completes := Return VUndefined |})
        blank.2)))).

Definition guarded_self : nat := Eval vm_compute in series_of guarded.2 0.
Definition guarded_config : config := Eval vm_compute in config_of guarded.2 0.
Definition guarded_responses : list response_callback :=
  Eval vm_compute in responses_in guarded.2 0.

Definition guarded_schedule : list action :=
  times 2 (Main 0)
  ++ [NavEvent (VStr "/a") (VStr "/"); NavEvent (VStr "/b") (VStr "/a")]
  ++ times 3 (Main 0) ++ times 4 (Chain guarded_self) ++ times 7 (Main 0).

Definition guarded_history : list event :=
  Eval vm_compute in trace (exec guarded_schedule guarded.2).

(** ** Awaiting and the responses for a component *)

(** Every series and every array of [w] is in [w'] unchanged, and nothing
    else of the world differs. *)
Definition keeps (w w' : world) : Prop :=
  (∀ s o, heap w !! s = Some o → heap w' !! s = Some o)
  ∧ (∀ a l, arrays w !! a = Some l → arrays w' !! a = Some l)
  ∧ inProgress w' = inProgress w ∧ http w' = http w ∧ runs w' = runs w
  ∧ guards w' = guards w ∧ trace w' = trace w.

(** What an entry of the request data contributes, as the comment above
    [respondFor()] has it: its default callback, or the callback given for
    its key in the options, or a problem for a status code, or nothing for
    [false]. *)
Definition entry_response (options : option (gmap string override))
    (entry : string * behaviour) : option response_callback :=
  match option_of options entry.1 with
  | None => Some (RespondWrapper entry.2)
  | Some (OverrideCallback callback) => Some (RespondWrapper callback)
  | Some (OverrideValue v) =>
      if nullish v then Some (RespondWrapper entry.2)
      else if is_false v then None
      else if String.eqb (typeof v) "number"
      then Some (RespondWrapper (returns (VObj [("problem", v)])))
      else Some (RespondWrapper (throws TypeError))
  end.

(** Something is configured that [toPromise()] takes for a setup, but
    nothing that [afterResponses()] can execute. *)
Definition setup_without_action (w : world) (o : MockHttp) : Prop :=
  nullish (_location (cfg o)) = true
  ∧ _mount (cfg o) = None
  ∧ _request (cfg o) = None
  ∧ (is_Some (_beforeEachNavGuard (cfg o))
     ∨ responses_of w o ≠ []
     ∨ is_Some (_beforeAnyResponse (cfg o))
     ∨ is_Some (_beforeEachResponse (cfg o))).

(** There is something to execute. *)
Definition executable (o : MockHttp) : Prop :=
  nullish (_location (cfg o)) = false
  ∨ is_Some (_mount (cfg o))
  ∨ is_Some (_request (cfg o)).

(** The run that [complete()] makes for the series [this]. *)
Definition completing_run (this : nat) : run :=
  {| r_self := this; r_callback := Some (λ component, returns component);
     r_pollWork := None; r_pc := PInit; r_settled := Fulfilled VUndefined;
     r_count := 0 |}.

(** [/projects/1] of the comment above [respondFor()]: the request data of
    its component. *)
Definition project_entries : list (string * behaviour) :=
  [("project", returns (VStr "project"));
   ("forms", returns (VArr [VStr "form"]))].

(** The stub of the series [s] received the request [config] between [w]
    and [w']: it took it, as the one with the number [count], or turned it
    down. *)
Definition received (s count : nat) (config : value) (w w' : world) : Prop :=
  trace w' = EvRequest s count config :: trace w
  ∨ trace w' = EvSurplus s config :: trace w.

(** The request names the method and the URL. *)
Definition requests (config : value) (method : string) (url : value) : Prop :=
  get config "method" = Some (VStr method) ∧ get config "url" = Some url.

(** A [config] that names another method than the helper it is given to. *)
Definition misnamed : value :=
  VObj [("method", VStr "post"); ("headers", VStr "h")].

(** * Proofs *)

(** ** Values *)

Example floor_500_1 : Math_floor (VNum (Fin (5001 # 10))) = of_Z 500.
Proof. reflexivity. Qed.

Example number_of_decimal_string : to_number (VStr " 404.1") = Fin (4041 # 10).
Proof. reflexivity. Qed.

Example number_of_other_string : to_number (VStr "x") = NaN.
Proof. reflexivity. Qed.

Lemma floor_fin q : Math_floor (VNum (Fin q)) = of_Z (Qfloor q).
Proof. reflexivity. Qed.

Lemma num_range_spec n :
  num_ge n (Fin (inject_Z 200)) && num_lt n (Fin (inject_Z 300)) = true
  ↔ in_success_range n.
Proof.
  unfold in_success_range. destruct n as [|q]; simpl.
  - split; [done | intros (q & ? & _); done].
  - rewrite andb_true_iff, negb_true_iff, Qle_bool_iff.
    split.
    + intros [H1 H2]. exists q. split; [done|]. split; [done|].
      apply Qnot_le_lt. intros H. apply Qle_bool_iff in H. congruence.
    + intros (q' & [= <-] & H1 & H2). split; [done|].
      destruct (Qle_bool (inject_Z 300) q) eqn:E; [|done].
      apply Qle_bool_iff in E. exfalso. by apply (Qlt_not_le _ _ H2).
Qed.

(** ** Builder methods *)

Lemma fresh_heap (w : world) : heap w !! fresh (dom (heap w)) = None.
Proof. apply not_elem_of_dom, is_fresh. Qed.

Lemma fresh_arrays (w : world) : arrays w !! fresh (dom (arrays w)) = None.
Proof. apply not_elem_of_dom, is_fresh. Qed.

Lemma alloc_returns_copy w c :
  returns_copy w
    (Ok (fresh (dom (heap w)),
         w_heap (<[fresh (dom (heap w)) := {| cfg := c; ctx := undefined_context |}]>
                   (heap w)) w))
    c.
Proof.
  intros new w' [= <- <-]. simpl. split.
  - repeat split; simpl; try done.
    + apply fresh_heap.
    + intros s o Hs. rewrite lookup_insert_ne; [done|].
      intros <-. by rewrite fresh_heap in Hs.
  - by rewrite lookup_insert_eq.
Qed.

(** [_with()] copies every option of the receiver but the one it is given. A
    constructed series never has [undefined] for a location. *)
Lemma with_returns_copy this opts w o :
  heap w !! this = Some o →
  _location (cfg o) ≠ VUndefined →
  returns_copy w (_with this opts w)
    match opts with
    | OLocation l => with_location (if nullish l then VNull else l) (cfg o)
    | OBeforeEachNavGuard g => with_beforeEachNavGuard (Some g) (cfg o)
    | OMount m => with_mount (Some m) (cfg o)
    | ORequest q => with_request (Some q) (cfg o)
    | OResponses a => with_responses a (cfg o)
    | OBeforeAnyResponse h => with_beforeAnyResponse (Some h) (cfg o)
    | OBeforeEachResponse h => with_beforeEachResponse (Some h) (cfg o)
    end.
Proof.
  intros Ho Hl. unfold _with. rewrite Ho.
  destruct o as [[p l g m q a b e] x]; simpl in *.
  assert (El : (if nullish l then VNull else l) = l) by (by destruct l).
  destruct opts; unfold new_MockHttp; simpl; rewrite ?El; apply alloc_returns_copy.
Qed.

Lemma respond_returns_copy this callback w o :
  heap w !! this = Some o →
  _location (cfg o) ≠ VUndefined →
  returns_copy_responding w o (respond this callback w) [RespondWrapper callback].
Proof.
  intros Ho Hl new w' Hres. unfold respond in Hres. rewrite Ho in Hres.
  set (a := fresh (dom (arrays w))) in *.
  set (w1 := w_arrays _ w) in *.
  assert (Ho1 : heap w1 !! this = Some o) by done.
  destruct (with_returns_copy this (OResponses a) w1 o Ho1 Hl new w' Hres)
    as [(Hnew & Hheap & Harr & ? & ? & ? & ? & ?) Hn].
  split.
  - repeat split; try done.
    intros a' l Ha'. apply Harr. simpl. rewrite lookup_insert_ne; [done|].
    intros <-. unfold a in Ha'. by rewrite fresh_arrays in Ha'.
  - exists a. split; [apply fresh_arrays|]. split; [|done].
    apply Harr. simpl. by rewrite lookup_insert_eq.
Qed.

Lemma with_returns this opts w o :
  heap w !! this = Some o → ∃ new w', _with this opts w = Ok (new, w').
Proof.
  intros Ho. unfold _with. rewrite Ho.
  match goal with |- ∃ new w', Ok ?p = _ => by exists p.1, p.2; destruct p end.
Qed.

Lemma with_makes_copy this opts w o :
  heap w !! this = Some o →
  _location (cfg o) ≠ VUndefined →
  makes_copy w (_with this opts w)
    match opts with
    | OLocation l => with_location (if nullish l then VNull else l) (cfg o)
    | OBeforeEachNavGuard g => with_beforeEachNavGuard (Some g) (cfg o)
    | OMount m => with_mount (Some m) (cfg o)
    | ORequest q => with_request (Some q) (cfg o)
    | OResponses a => with_responses a (cfg o)
    | OBeforeAnyResponse h => with_beforeAnyResponse (Some h) (cfg o)
    | OBeforeEachResponse h => with_beforeEachResponse (Some h) (cfg o)
    end.
Proof.
  intros Ho Hl. destruct (with_returns this opts w o Ho) as (new & w' & E).
  exists new, w'. split; [done|].
  by apply (with_returns_copy this opts w o Ho Hl).
Qed.

Lemma respond_makes_copy this callback w o :
  heap w !! this = Some o →
  _location (cfg o) ≠ VUndefined →
  makes_copy_responding w o (respond this callback w) [RespondWrapper callback].
Proof.
  intros Ho Hl.
  assert (∃ new w', respond this callback w = Ok (new, w')) as (new & w' & E).
  { unfold respond. rewrite Ho. by eapply with_returns. }
  exists new, w'. split; [done|].
  by apply (respond_returns_copy this callback w o Ho Hl).
Qed.

(** C9. A series is immutable. Every configuration method whose option is
    not yet set on the receiver ([mount()]: on a receiver that follows no
    other series, too) returns: the result is a new series whose
    configuration is the receiver's with the one new option, and the series
    and arrays that the world had, the receiver among them, are as they were.
    [respond()] and its variants always return, with the responses of the
    receiver and the new one in a new array. *)
Theorem series_immutable (this : nat) (w : world) (o : MockHttp) :
  heap w !! this = Some o →
  _location (cfg o) ≠ VUndefined →
  (∀ location,
     nullish (_location (cfg o)) = true →
     makes_copy w (route this location w)
       (with_location (if nullish location then VNull else location) (cfg o)))
  ∧ (∀ callback,
       _beforeEachNavGuard (cfg o) = None →
       makes_copy w (beforeEachNav this callback w)
         (with_beforeEachNavGuard (Some callback) (cfg o)))
  ∧ (∀ lifecycleMount,
       _mount (cfg o) = None → _previousPromise (cfg o) = None →
       makes_copy w (mount this lifecycleMount w)
         (with_mount (Some lifecycleMount) (cfg o)))
  ∧ (∀ callback,
       _request (cfg o) = None →
       makes_copy w (request this callback w) (with_request (Some callback) (cfg o)))
  ∧ (∀ callback,
       _beforeAnyResponse (cfg o) = None →
       makes_copy w (beforeAnyResponse this callback w)
         (with_beforeAnyResponse (Some callback) (cfg o)))
  ∧ (∀ callback,
       _beforeEachResponse (cfg o) = None →
       makes_copy w (beforeEachResponse this callback w)
         (with_beforeEachResponse (Some callback) (cfg o)))
  ∧ (∀ callback,
       makes_copy_responding w o (respond this callback w) [RespondWrapper callback])
  ∧ (∀ callback,
       makes_copy_responding w o (respondWithData this callback w)
         [RespondWrapper callback])
  ∧ makes_copy_responding w o (respondWithSuccess this w)
      [RespondWrapper (returns (VObj [("success", VBool true)]))]
  ∧ (∀ problemOrCode,
       makes_copy_responding w o (respondWithProblem this problemOrCode w)
         [RespondWrapper
            (returns (VObj [("problem",
               match problemOrCode with
               | VUndefined => VNum (Fin (5001 # 10))
               | _ => problemOrCode
               end)]))]).
Proof.
  intros Ho Hl. split_and!.
  - intros l H. unfold route. rewrite Ho, H. simpl.
    by apply (with_makes_copy this (OLocation l)).
  - intros g H. unfold beforeEachNav. rewrite Ho, H.
    rewrite bool_decide_eq_false_2 by (by intros [? ?]).
    by apply (with_makes_copy this (OBeforeEachNavGuard g)).
  - intros m H1 H2. unfold mount. rewrite Ho, H1, H2.
    rewrite bool_decide_eq_false_2 by (by intros [? ?]).
    by apply (with_makes_copy this (OMount m)).
  - intros q H. unfold request. rewrite Ho, H.
    rewrite bool_decide_eq_false_2 by (by intros [? ?]).
    by apply (with_makes_copy this (ORequest q)).
  - intros h H. unfold beforeAnyResponse. rewrite Ho, H.
    rewrite bool_decide_eq_false_2 by (by intros [? ?]).
    by apply (with_makes_copy this (OBeforeAnyResponse h)).
  - intros h H. unfold beforeEachResponse. rewrite Ho, H.
    rewrite bool_decide_eq_false_2 by (by intros [? ?]).
    by apply (with_makes_copy this (OBeforeEachResponse h)).
  - intros callback. by apply respond_makes_copy.
  - intros callback. by apply respond_makes_copy.
  - by apply respond_makes_copy.
  - intros p. by apply respond_makes_copy.
Qed.

Lemma series_immutable_witness :
  ∃ o new w',
    heap blank.2 !! blank.1 = Some o
    ∧ _location (cfg o) ≠ VUndefined
    ∧ mount blank.1 (returns (VHost 1)) blank.2 = Ok (new, w')
    ∧ heap w' !! new
      = Some {| cfg := with_mount (Some (returns (VHost 1))) (cfg o);
                ctx := undefined_context |}
    ∧ heap w' !! blank.1 = Some o
    ∧ makes_copy_responding blank.2 o (respondWithSuccess blank.1 blank.2)
        [RespondWrapper (returns (VObj [("success", VBool true)]))].
Proof.
  assert (Ho : heap blank.2 !! blank.1 = Some blank_series) by (vm_compute; reflexivity).
  unfold blank_series in Ho.
  destruct (series_immutable _ _ _ Ho ltac:(discriminate))
    as (_ & _ & Hm & _ & _ & _ & _ & _ & Hs & _).
  destruct (Hm (returns (VHost 1)) eq_refl eq_refl)
    as (new & w' & E & (_ & Hkeep & _) & Hnew).
  eexists _, new, w'. split; [exact Ho|]. split; [discriminate|].
  split; [exact E|]. split; [exact Hnew|]. split; [exact (Hkeep _ _ Ho)|].
  exact Hs.
Defined.

(** C8. Each single-registration method throws at once, with no new series,
    when its option is already set on the receiver; [mount()] also throws on
    a series that follows another one. *)
Theorem setters_fail_fast (this : nat) (w : world) (o : MockHttp) :
  heap w !! this = Some o →
  (nullish (_location (cfg o)) = false →
     ∀ location,
       route this location w
       = Raise (JsError "cannot call route() more than once in a single series"))
  ∧ (is_Some (_beforeEachNavGuard (cfg o)) →
     ∀ callback,
       beforeEachNav this callback w
       = Raise (JsError "cannot call beforeEachNav() more than once in a single chain"))
  ∧ (is_Some (_mount (cfg o)) →
     ∀ lifecycleMount,
       mount this lifecycleMount w
       = Raise (JsError "cannot call mount() more than once in a single chain"))
  ∧ (_mount (cfg o) = None → is_Some (_previousPromise (cfg o)) →
     ∀ lifecycleMount,
       mount this lifecycleMount w
       = Raise (JsError "cannot call mount() after the first series in a chain"))
  ∧ (is_Some (_request (cfg o)) →
     ∀ callback,
       request this callback w
       = Raise (JsError "cannot call request() more than once in a single series"))
  ∧ (is_Some (_beforeAnyResponse (cfg o)) →
     ∀ callback,
       beforeAnyResponse this callback w
       = Raise (JsError
           "cannot call beforeAnyResponse() more than once in a single series"))
  ∧ (is_Some (_beforeEachResponse (cfg o)) →
     ∀ callback,
       beforeEachResponse this callback w
       = Raise (JsError
           "cannot call beforeEachResponse() more than once in a single series")).
Proof.
  intros Ho. split_and!.
  - intros H l. unfold route. by rewrite Ho, H.
  - intros H g. unfold beforeEachNav. by rewrite Ho, bool_decide_eq_true_2.
  - intros H m. unfold mount. by rewrite Ho, bool_decide_eq_true_2.
  - intros Hm H m. unfold mount. rewrite Ho, Hm.
    rewrite bool_decide_eq_false_2; [|by intros [? ?]].
    by rewrite bool_decide_eq_true_2.
  - intros H q. unfold request. by rewrite Ho, bool_decide_eq_true_2.
  - intros H h. unfold beforeAnyResponse. by rewrite Ho, bool_decide_eq_true_2.
  - intros H h. unfold beforeEachResponse. by rewrite Ho, bool_decide_eq_true_2.
Qed.

Lemma setters_fail_fast_witness :
  (∃ o, heap configured.2 !! configured.1 = Some o)
  ∧ route configured.1 (VStr "/users") configured.2
    = Raise (JsError "cannot call route() more than once in a single series")
  ∧ mount configured.1 (returns (VHost 2)) configured.2
    = Raise (JsError "cannot call mount() more than once in a single chain")
  ∧ request configured.1 (λ _, returns VUndefined) configured.2
    = Raise (JsError "cannot call request() more than once in a single series")
  ∧ (∃ o, heap follow_up.2 !! follow_up.1 = Some o)
  ∧ mount follow_up.1 (returns (VHost 2)) follow_up.2
    = Raise (JsError "cannot call mount() after the first series in a chain").
Proof.
  assert (Hc : heap configured.2 !! configured.1 = Some configured_series)
    by (vm_compute; reflexivity).
  assert (Hf : heap follow_up.2 !! follow_up.1 = Some follow_up_series)
    by (vm_compute; reflexivity).
  unfold configured_series in Hc. unfold follow_up_series in Hf.
  destruct (setters_fail_fast _ _ _ Hc) as (Hroute & _ & Hmount & _ & Hrequest & _).
  destruct (setters_fail_fast _ _ _ Hf) as (_ & _ & _ & Hafter & _).
  split; [by eexists|].
  split; [by apply Hroute|].
  split; [apply Hmount; by eexists|].
  split; [apply Hrequest; by eexists|].
  split; [by eexists|].
  apply Hafter; [done | by eexists].
Defined.

(** ** Responses *)

Lemma perform_completes b w : (perform b w).2 = completes b.
Proof. reflexivity. Qed.

Lemma call_response_completes cb w :
  (call_response cb w).2 = response_completion cb.
Proof.
  destruct cb as [[callback]|]; [|done]. simpl.
  by destruct (completes callback).
Qed.

Lemma call_response_world cb w :
  (call_response cb w).1
  = match cb with
    | Some (RespondWrapper callback) => (perform callback w).1
    | None => w
    end.
Proof.
  destruct cb as [[callback]|]; [|done]. simpl.
  by destruct (completes callback).
Qed.

(** C4. [respondWithProblem(c)] is [respond(() => ({ problem: c }))], and for
    a number [c] the response it queues has the status [Math.floor(c)] and the
    body [{ code: c, message: 'There was a problem.' }]; a problem that is an
    object gives the status [Math.floor(problem.code)] and is itself the body;
    the code is 500.1 when none is given. *)
Theorem problem_mapping (this : nat) (w : world) (o : MockHttp) :
  heap w !! this = Some o →
  (∀ n : num,
     let callback := returns (VObj [("problem", VNum n)]) in
     respondWithProblem this (VNum n) w = respond this callback w
     ∧ (∃ new w' o',
          respondWithProblem this (VNum n) w = Ok (new, w')
          ∧ heap w' !! new = Some o'
          ∧ responses_of w' o' = responses_of w o ++ [RespondWrapper callback])
     ∧ response_completion (Some (RespondWrapper callback))
       = Return (problem_response (Math_floor (VNum n)) (VNum n)))
  ∧ (∀ q : Q, Math_floor (VNum (Fin q)) = of_Z (Qfloor q))
  ∧ (∀ result problem,
       get result "problem" = Some problem →
       nullish problem = false →
       typeof problem = "object" →
       ∃ code,
         get problem "code" = Some code
         ∧ respond_result result
           = Return (VObj [("status", Math_floor code); ("data", problem)]))
  ∧ respondWithProblem this VUndefined w
    = respondWithProblem this (VNum (Fin (5001 # 10))) w.
Proof.
  intros Ho. split_and!; try done.
  - intros n callback. split_and!; try done.
    unfold respondWithProblem, respond. rewrite Ho. unfold _with. simpl.
    rewrite Ho. unfold new_MockHttp. do 3 eexists.
    split; [reflexivity|]. simpl. rewrite lookup_insert_eq.
    split; [reflexivity|]. unfold responses_of at 1. simpl.
    by rewrite lookup_insert_eq.
  - intros result problem Hp Hn Ht. unfold respond_result. rewrite Hp, Hn, Ht.
    destruct problem; try done; simpl; by eexists.
Qed.

Lemma problem_mapping_witness :
  (∃ o, heap blank.2 !! blank.1 = Some o)
  ∧ response_completion
      (Some (RespondWrapper (returns (VObj [("problem", VNum (Fin (4041 # 10)))]))))
    = Return (problem_response (of_Z 404) (VNum (Fin (4041 # 10)))).
Proof.
  assert (Ho : heap blank.2 !! blank.1 = Some blank_series) by (vm_compute; reflexivity).
  unfold blank_series in Ho.
  split; [by eexists|].
  destruct (problem_mapping _ _ _ Ho) as (H & _).
  exact (proj2 (proj2 (H (Fin (4041 # 10))))).
Defined.

Lemma response_outcome_success config response :
  in_success_range (status_of response) →
  response_outcome config (Return response)
  = Fulfilled (spread_with response "config" config).
Proof.
  intros H. apply num_range_spec in H. unfold response_outcome.
  fold (status_of response). by rewrite H.
Qed.

Lemma response_outcome_failure config response :
  ¬ in_success_range (status_of response) →
  response_outcome config (Return response)
  = Rejected (ErrorWithResponse (spread_with response "config" config)).
Proof.
  intros H. unfold response_outcome. fold (status_of response).
  destruct (num_ge _ _ && num_lt _ _) eqn:E; [|done].
  by apply num_range_spec in E.
Qed.

(** C6. When the last handler of a request runs, the response callback has
    returned the descriptor [response]: the promise of the request is
    fulfilled with [{ ...response, config }] if the status is at least 200 and
    below 300, and is otherwise rejected with an error whose [response] is
    that object. *)
Theorem response_settles_by_status (s : nat) (w : world) (o : MockHttp)
    (j : job) (rest : list job) (response : value) :
  heap w !! s = Some o →
  _responsesPromise (ctx o) = j :: rest →
  j_stage j = StExec →
  response_completion (j_callback j) = Return response →
  let responseWithConfig := spread_with response "config" (j_config j) in
  ∃ settled l,
    trace (chain_step s w)
    = EvSettle s (j_index j) settled :: EvResponse s (j_index j) (Return response) :: l
    ∧ (in_success_range (status_of response) → settled = Fulfilled responseWithConfig)
    ∧ (¬ in_success_range (status_of response) →
       settled = Rejected (ErrorWithResponse responseWithConfig)).
Proof.
  intros Ho Hj Hst Hc rwc. unfold chain_step. rewrite Ho, Hj, Hst.
  unfold respond_to.
  destruct (call_response (j_callback j) w) as [w1 c] eqn:E.
  assert (c = Return response) as ->.
  { rewrite <- Hc, <- (call_response_completes _ w). by rewrite E. }
  eexists _, _. split; [reflexivity|]. split.
  - apply response_outcome_success.
  - apply response_outcome_failure.
Qed.

(** ** Awaiting a series *)

(** C10. A series with no option set and no previous series, awaited: the
    promise is [Promise.resolve()], no run is made and nothing is thrown,
    where [afterResponses()] and [complete()] throw for the same series. *)
Theorem await_unconfigured (this : nat) (w : world) (o : MockHttp) :
  heap w !! this = Some o →
  nullish (_location (cfg o)) = true →
  _beforeEachNavGuard (cfg o) = None →
  _mount (cfg o) = None →
  _request (cfg o) = None →
  responses_of w o = [] →
  _beforeAnyResponse (cfg o) = None →
  _beforeEachResponse (cfg o) = None →
  _previousPromise (cfg o) = None →
  toPromise this w = Ok (Resolved VUndefined, w)
  ∧ (∀ optionsOrCallback,
       afterResponses this optionsOrCallback w
       = Raise (JsError "route(), mount(), and/or request() required"))
  ∧ complete this w = Raise (JsError "route(), mount(), and/or request() required").
Proof.
  intros Ho Hl Hg Hm Hq Hr Ha He Hp.
  assert (Hafter : ∀ arg, afterResponses this arg w
    = Raise (JsError "route(), mount(), and/or request() required")).
  { intros arg. unfold afterResponses. rewrite Ho, Hl, Hm, Hq.
    by destruct arg. }
  split; [|split; [done | apply Hafter]].
  unfold toPromise. by rewrite Ho, Hl, Hg, Hm, Hq, Hr, Ha, He, Hp.
Qed.

Lemma await_unconfigured_witness :
  toPromise blank.1 blank.2 = Ok (Resolved VUndefined, blank.2)
  ∧ complete blank.1 blank.2
    = Raise (JsError "route(), mount(), and/or request() required").
Proof.
  assert (Ho : heap blank.2 !! blank.1 = Some blank_series) by (vm_compute; reflexivity).
  unfold blank_series in Ho.
  assert (Hr : responses_of blank.2 blank_series = []) by (vm_compute; reflexivity).
  destruct (await_unconfigured _ _ _ Ho eq_refl eq_refl eq_refl eq_refl Hr
              eq_refl eq_refl eq_refl) as (H1 & _ & H2).
  by split.
Defined.

(** ** Frames *)

Lemma same_control_refl o : same_control o o.
Proof. by repeat split. Qed.

Lemma same_position_refl n : same_position n n.
Proof. by repeat split. Qed.

Lemma calm_refl w : calm w w.
Proof.
  repeat split; try done.
  - intros s. destruct (heap w !! s); constructor. apply same_control_refl.
  - intros r. destruct (runs w !! r); constructor. apply same_position_refl.
Qed.

Lemma calm_trans w1 w2 w3 : calm w1 w2 → calm w2 w3 → calm w1 w3.
Proof.
  intros (?&?&?&?&Hh&Hr) (?&?&?&?&Hh'&Hr').
  repeat split; try congruence.
  - intros s. specialize (Hh s). specialize (Hh' s).
    destruct Hh as [o1 o2 (?&?&?&?)|]; inversion Hh' as [? o3 (?&?&?&?)|];
      constructor; repeat split; congruence.
  - intros r. specialize (Hr r). specialize (Hr' r).
    destruct Hr as [o1 o2 (?&?&?&?&?)|]; inversion Hr' as [? o3 (?&?&?&?&?)|];
      constructor; repeat split; congruence.
Qed.

Lemma calm_same w w' :
  http w' = http w → inProgress w' = inProgress w → guards w' = guards w →
  arrays w' = arrays w → heap w' = heap w → runs w' = runs w → calm w w'.
Proof.
  intros ? ? ? ? Hh Hr. repeat split; try done.
  - intros s. rewrite Hh. destruct (heap w !! s); constructor. apply same_control_refl.
  - intros r. rewrite Hr. destruct (runs w !! r); constructor. apply same_position_refl.
Qed.

Lemma calm_emit e w : calm w (emit e w).
Proof. by apply calm_same. Qed.

Lemma calm_upd_ctx s f w :
  (∀ x, _inProgress (f x) = _inProgress x
        ∧ _previousHttp (f x) = _previousHttp x
        ∧ _component (f x) = _component x) →
  calm w (upd_ctx s f w).
Proof.
  intros Hf. repeat split; try done.
  - intros s'. simpl. destruct (decide (s = s')) as [->|].
    + rewrite lookup_alter_eq. destruct (heap w !! s') as [o|]; constructor.
      unfold same_control. simpl. by destruct (Hf (ctx o)) as (?&?&?).
    + rewrite lookup_alter_ne by done.
      destruct (heap w !! s'); constructor. apply same_control_refl.
  - intros r. simpl. destruct (runs w !! r); constructor. apply same_position_refl.
Qed.

Lemma calm_upd_run r f w :
  (∀ n, same_position n (f n)) → calm w (upd_run r f w).
Proof.
  intros Hf. repeat split; try done.
  - intros s. simpl. destruct (heap w !! s); constructor. apply same_control_refl.
  - intros r'. simpl. destruct (decide (r = r')) as [->|].
    + rewrite lookup_alter_eq. destruct (runs w !! r') as [n|]; constructor. apply Hf.
    + rewrite lookup_alter_ne by done.
      destruct (runs w !! r'); constructor. apply same_position_refl.
Qed.

Lemma advance_control st x :
  _inProgress (advance st x) = _inProgress x
  ∧ _previousHttp (advance st x) = _previousHttp x
  ∧ _component (advance st x) = _component x.
Proof. unfold advance. by destruct (_responsesPromise x). Qed.

Ltac calm_field :=
  let x := fresh in
  intros x;
  try apply advance_control;
  repeat match goal with
         | |- context [match ?c with _ => _ end] => destruct c
         end;
  by repeat split.

Ltac calm_step :=
  match goal with
  | |- calm ?w ?w => apply calm_refl
  | H : calm ?w ?w' |- calm ?w ?w' => exact H
  | |- calm _ (emit _ _) => eapply calm_trans; [|apply calm_emit]
  | |- calm _ (upd_run _ _ _) =>
      eapply calm_trans; [|apply calm_upd_run; intros; by repeat split]
  | |- calm _ (upd_ctx _ _ _) =>
      eapply calm_trans; [|apply calm_upd_ctx; calm_field]
  end.

Lemma http_calm r config w : calm w (_http r config w).
Proof.
  unfold _http.
  destruct (runs w !! r) as [n|]; [|apply calm_refl].
  destruct (heap w !! r_self n) as [o|]; [|apply calm_refl].
  destruct (negb _ && _); repeat calm_step.
Qed.

Lemma http_call_calm w config : calm w (http_call w config).
Proof. unfold http_call. destruct (http w); try apply calm_refl. apply http_calm. Qed.

Lemma perform_calm b w : calm w (perform b w).1.
Proof.
  unfold perform. simpl. generalize (sends b). intros l. revert w.
  induction l as [|c l IH]; intros w; simpl; [apply calm_refl|].
  eapply calm_trans; [apply http_call_calm | apply IH].
Qed.

Ltac calm_perform :=
  match goal with
  | |- context [perform ?b ?w] =>
      let H := fresh "Hcalm" in
      pose proof (perform_calm b w) as H;
      destruct (perform b w) as [? ?]; simpl in H
  end.

Lemma call_response_calm cb w : calm w (call_response cb w).1.
Proof.
  rewrite call_response_world. destruct cb as [[callback]|]; [|apply calm_refl].
  apply perform_calm.
Qed.

Lemma tryBeforeAnyResponse_calm s w : calm w (_tryBeforeAnyResponse s w).
Proof.
  unfold _tryBeforeAnyResponse.
  destruct (heap w !! s) as [o|]; [|apply calm_refl].
  destruct (_beforeAnyResponse (cfg o)); [calm_perform|]; cbv beta iota;
    try match goal with |- context [match ?c with _ => _ end] => destruct c end;
    repeat calm_step.
Qed.

Lemma tryBeforeEachResponse_calm s config index w :
  calm w (_tryBeforeEachResponse s config index w).
Proof.
  unfold _tryBeforeEachResponse.
  destruct (heap w !! s) as [o|]; [|apply calm_refl].
  destruct (is_set _); [apply calm_refl|].
  destruct (_beforeEachResponse (cfg o)); [calm_perform|]; cbv beta iota;
    try match goal with |- context [match ?c with _ => _ end] => destruct c end;
    repeat calm_step.
Qed.

Lemma respond_to_calm s j w : calm w (respond_to s j w).
Proof.
  unfold respond_to.
  pose proof (call_response_calm (j_callback j) w) as H.
  destruct (call_response (j_callback j) w) as [w1 c]. simpl in H.
  repeat calm_step.
Qed.

Lemma chain_step_calm s w : calm w (chain_step s w).
Proof.
  unfold chain_step.
  destruct (heap w !! s) as [o|]; [|apply calm_refl].
  destruct (_responsesPromise (ctx o)) as [|j rest]; [apply calm_refl|].
  destruct (j_stage j).
  - repeat calm_step.
  - calm_step. destruct (_ && _); [apply tryBeforeAnyResponse_calm | apply calm_refl].
  - calm_step. destruct (bool_decide _);
      [apply tryBeforeEachResponse_calm | apply calm_refl].
  - apply respond_to_calm.
Qed.

Lemma tryBeforeEachNav_calm to from w s : calm w (_tryBeforeEachNav to from w s).
Proof.
  unfold _tryBeforeEachNav.
  destruct (heap w !! s) as [o|]; [|apply calm_refl].
  destruct (negb _); [apply calm_refl|].
  destruct (is_set _); [apply calm_refl|].
  destruct (_beforeEachNavGuard (cfg o)); [calm_perform|]; cbv beta iota;
    try match goal with |- context [match ?c with _ => _ end] => destruct c end;
    repeat calm_step.
Qed.

Lemma nav_event_calm to from l w : calm w (foldl (_tryBeforeEachNav to from) w l).
Proof.
  revert w. induction l as [|s l IH]; intros w; simpl; [apply calm_refl|].
  eapply calm_trans; [apply tryBeforeEachNav_calm | apply IH].
Qed.

Lemma unborn_calm r w w' : calm w w' → unborn r w → unborn r w'.
Proof.
  intros (Hhttp & _ & _ & _ & Hh & Hr) Hu n' Hn' Hpc.
  specialize (Hr r). rewrite Hn' in Hr.
  inversion Hr as [n ? (?&?&?&Hp&?) Hn|]; subst.
  destruct (Hu n) as [Hd1 Hd2]; [done | congruence |].
  split; [congruence|].
  intros s' o' Ho'. specialize (Hh s'). rewrite Ho' in Hh.
  inversion Hh as [o ? (?&?&Hprev&?) Ho|]; subst.
  rewrite Hprev. by apply (Hd2 s' o).
Qed.

(** ** One series in the world: refinement *)

Arguments perform : simpl never.

Section refinement.
Context (r s : nat) (cf : config) (resps : list response_callback).

Local Abbreviation Sees := (sees r s cf resps).
Local Abbreviation Astep := (astep s cf resps).
Local Abbreviation St := Build_astate.
Local Abbreviation Reaches := (reaches r s cf resps).
Local Abbreviation Drifts := (drifts r s cf resps).

Lemma sees_emit w x n tr e :
  Sees w (St x n tr) → Sees (emit e w) (St x n (e :: tr)).
Proof.
  intros (?&?&?&?&?&?). unfold sees. simpl in *. split_and!; try done. congruence.
Qed.

Lemma sees_upd_ctx_ne w a s' f :
  s' ≠ s → Sees w a → Sees (upd_ctx s' f w) a.
Proof.
  intros Hs (?&?&?&?&?&?). unfold sees. simpl. split_and!; try done.
  by rewrite lookup_alter_ne.
Qed.

Lemma sees_upd_ctx w x n tr f :
  Sees w (St x n tr) → Sees (upd_ctx s f w) (St (f x) n tr).
Proof.
  intros (H&?&?&?&?&?). unfold sees. simpl in *. split_and!; try done.
  by rewrite lookup_alter_eq, H.
Qed.

Lemma sees_upd_run_ne w a r' f :
  r' ≠ r → (∀ n, r_self (f n) = r_self n) → Sees w a → Sees (upd_run r' f w) a.
Proof.
  intros Hr Hf (?&?&?&?&?&Hu). unfold sees. simpl. split_and!; try done.
  - by rewrite lookup_alter_ne.
  - intros r'' n'' H''. apply lookup_alter_Some in H'' as [(-> & n0 & Hn0 & ->)|[? H'']].
    + rewrite Hf. by apply Hu.
    + by apply Hu.
Qed.

Lemma sees_upd_run w x n tr f :
  (∀ n, r_self (f n) = r_self n) →
  Sees w (St x n tr) → Sees (upd_run r f w) (St x (f n) tr).
Proof.
  intros Hf (?&H&?&?&?&Hu). unfold sees. simpl in *. split_and!; try done.
  - by rewrite lookup_alter_eq, H.
  - by rewrite Hf.
  - intros r'' n'' H''. apply lookup_alter_Some in H'' as [(-> & n0 & Hn0 & ->)|[? H'']].
    + done.
    + by apply Hu.
Qed.


Lemma stub_only_refl a : stub_only a a.
Proof.
  split; [exists []; by rewrite app_nil_r|].
  split_and!; first [done | apply same_position_refl].
Qed.

Lemma stub_only_trace x n tr tr' : stub_only (St x n tr) (St x n tr').
Proof. apply (stub_only_refl (St x n tr)). Qed.

Lemma stub_only_trans a1 a2 a3 : stub_only a1 a2 → stub_only a2 a3 → stub_only a1 a3.
Proof.
  intros ([l1 Hl1]&?&?&?&?&?&?&?&(?&?&?&?&?)) ([l2 Hl2]&?&?&?&?&?&?&?&(?&?&?&?&?)).
  split; [exists (l1 ++ l2); by rewrite Hl2, Hl1, app_assoc|].
  split_and!; try congruence; auto.
  repeat split; congruence.
Qed.

Lemma log_grows (l : list log_entry) e : l ++ [e] ≠ [].
Proof. by destruct l. Qed.

(** The stub. *)
Lemma http_refines r' config w a :
  Sees w a → (r' = r → r_pc (a_run a) ≠ PInit) →
  ∃ a', rtc Astep a a' ∧ Sees (_http r' config w) a' ∧ stub_only a a'.
Proof.
  intros Hs Hpc. unfold _http.
  destruct (runs w !! r') as [n'|] eqn:Hn';
    [|exists a; split_and!; [done..|apply stub_only_refl]].
  destruct (heap w !! r_self n') as [o'|] eqn:Ho';
    [|exists a; split_and!; [done..|apply stub_only_refl]].
  destruct a as [x n tr].
  destruct (decide (r' = r)) as [->|Hne].
  - pose proof Hs as (Hx & Hn & Htr & Hself & Hresps & Hu). simpl in *.
    assert (n' = n) as -> by congruence. rewrite Hself in *.
    assert (o' = {| cfg := cf; ctx := x |}) as -> by congruence.
    unfold responses_of. simpl. rewrite Hresps.
    destruct (negb _ && _) eqn:E.
    + eexists. split_and!; [apply rtc_once, (A_surplus _ _ _ x n tr config)|..].
      * by apply Hpc.
      * apply andb_true_iff in E as [_ E]. by apply Nat.eqb_eq in E.
      * apply sees_emit. by apply (sees_upd_ctx _ _ _ _ _ Hs).
      * split; [exists []; by rewrite app_nil_r|]. simpl.
        split_and!;
          first [done | intros _; apply log_grows | apply same_position_refl].
    + eexists. split_and!; [apply rtc_once, (A_accept _ _ _ x n tr config)|..].
      * by apply Hpc.
      * intros E'. rewrite E', Nat.eqb_refl, andb_true_r in E.
        apply negb_false_iff, Z.eqb_eq in E. lia.
      * apply sees_emit. apply sees_upd_run; [done|].
        by apply (sees_upd_ctx _ _ _ _ _ Hs).
      * split; [by eexists|]. unfold accepted; simpl.
        destruct (_ =? _)%Z; simpl;
          (split_and!; first [done | intros _; apply log_grows | by repeat split]).
  - pose proof Hs as (Hx & Hn & Htr & Hself & Hresps & Hu).
    assert (Hs' : r_self n' ≠ s).
    { intros E. apply Hne. by apply (Hu r' n'). }
    destruct (negb _ && _).
    + eexists. split_and!; cycle 1.
      * apply sees_emit. by apply sees_upd_ctx_ne.
      * apply stub_only_trace.
      * apply rtc_once, (A_quiet _ _ _ x n tr [_]). by constructor.
    + eexists. split_and!; cycle 1.
      * apply sees_emit. apply sees_upd_run_ne; [done..|].
        by apply sees_upd_ctx_ne.
      * apply stub_only_trace.
      * apply rtc_once, (A_quiet _ _ _ x n tr [_]). by constructor.
Qed.

Lemma born w a t :
  Sees w a → unborn r w → http w = Stub t → t = r → r_pc (a_run a) ≠ PInit.
Proof.
  intros (_&Hn&_) Hu Hh -> Hpc. destruct (Hu _ Hn Hpc) as [H _]. done.
Qed.

Lemma http_call_refines config w a :
  Sees w a → unborn r w →
  ∃ a', rtc Astep a a' ∧ Sees (http_call w config) a' ∧ stub_only a a'.
Proof.
  intros Hs Hu. unfold http_call.
  destruct (http w) as [| |t] eqn:Hh;
    try (exists a; split_and!; [done..|apply stub_only_refl]).
  apply http_refines; [done|]. by eapply born.
Qed.

Lemma perform_refines b w a :
  Sees w a → unborn r w →
  ∃ a', rtc Astep a a' ∧ Sees (perform b w).1 a' ∧ stub_only a a'.
Proof.
  unfold perform. cbn [fst]. generalize (sends b). intros l. revert w a.
  induction l as [|c l IH]; intros w a Hs Hu; simpl.
  - exists a. split_and!; [done..|apply stub_only_refl].
  - destruct (http_call_refines c w a Hs Hu) as (a1 & H1 & Hs1 & Ho1).
    destruct (IH _ a1 Hs1) as (a2 & H2 & Hs2 & Ho2).
    { eapply unborn_calm; [apply http_call_calm | done]. }
    exists a2. split_and!; [by etrans | done | by eapply stub_only_trans].
Qed.

Lemma perform_pair b w : perform b w = ((perform b w).1, completes b).
Proof. reflexivity. Qed.

Opaque perform.

Lemma sees_w_http w a t : Sees w a → Sees (w_http t w) a.
Proof. done. Qed.

Lemma sees_w_inProgress w a b : Sees w a → Sees (w_inProgress b w) a.
Proof. done. Qed.

Lemma sees_w_guards w a g : Sees w a → Sees (w_guards g w) a.
Proof. done. Qed.

Lemma sees_caught w x n tr set c :
  Sees w (St x n tr) →
  Sees match c with
       | Return _ => w
       | Throw e => upd_ctx s (set (store e)) w
       end (St (caught set c x) n tr).
Proof. intros Hs. destruct c; [done|]. by apply sees_upd_ctx. Qed.

Lemma sees_caught_ne w a s' set c :
  s' ≠ s → Sees w a →
  Sees match c with
       | Return _ => w
       | Throw e => upd_ctx s' (set (store e)) w
       end a.
Proof. intros Hne Hs. destruct c; [done|]. by apply sees_upd_ctx_ne. Qed.

Lemma reaches_here w a : Sees w a → Reaches a w.
Proof. by exists a. Qed.

Lemma reaches_quiet a w w' l :
  Reaches a w →
  (∀ a', Sees w a' → Sees w' (St (a_ctx a') (a_run a') (l ++ a_trace a'))) →
  quiet s l →
  Reaches a w'.
Proof.
  intros (a' & Hr & Hs) Hw Hq. eexists. split; [|by apply Hw].
  etrans; [done|]. destruct a'. by apply rtc_once, A_quiet.
Qed.

Lemma reaches_perform a w b :
  Reaches a w → unborn r w → Reaches a (perform b w).1.
Proof.
  intros (a' & Hr & Hs) Hu.
  destruct (perform_refines b w a' Hs Hu) as (a'' & Hr' & Hs' & _).
  exists a''. split; [by etrans | done].
Qed.

Ltac sees_tac :=
  repeat first
    [ eassumption
    | apply sees_w_http
    | apply sees_w_inProgress
    | apply sees_w_guards
    | eapply sees_emit
    | eapply sees_caught
    | eapply sees_caught_ne; [eassumption|]
    | eapply sees_upd_ctx
    | eapply sees_upd_ctx_ne; [eassumption|]
    | eapply sees_upd_run; [done|]
    | eapply sees_upd_run_ne; [eassumption | done |] ].

Lemma tryBeforeAnyResponse_other s' w a :
  s' ≠ s → Sees w a → unborn r w → Reaches a (_tryBeforeAnyResponse s' w).
Proof.
  intros Hne Hs Hu. unfold _tryBeforeAnyResponse.
  destruct (heap w !! s') as [o|]; [|by apply reaches_here].
  destruct (_beforeAnyResponse (cfg o)) as [hook|].
  - set (b := hook _). rewrite (perform_pair b).
    eapply (reaches_quiet _ (perform b w).1 _ [_]).
    + apply reaches_perform; [by apply reaches_here | done].
    + intros [x' n' tr'] Hs'. simpl. sees_tac.
    + by constructor.
  - eapply (reaches_quiet _ w _ [_]).
    + by apply reaches_here.
    + intros [x' n' tr'] Hs'. simpl. sees_tac.
    + by constructor.
Qed.

Lemma tryBeforeEachResponse_other s' config index w a :
  s' ≠ s → Sees w a → unborn r w →
  Reaches a (_tryBeforeEachResponse s' config index w).
Proof.
  intros Hne Hs Hu. unfold _tryBeforeEachResponse.
  destruct (heap w !! s') as [o|]; [|by apply reaches_here].
  destruct (is_set _); [by apply reaches_here|].
  destruct (_beforeEachResponse (cfg o)) as [hook|].
  - set (b := hook _ _ _). rewrite (perform_pair b).
    eapply (reaches_quiet _ (perform b w).1 _ [_]).
    + apply reaches_perform; [by apply reaches_here | done].
    + intros [x' n' tr'] Hs'. simpl. sees_tac.
    + by constructor.
  - eapply (reaches_quiet _ w _ [_]).
    + by apply reaches_here.
    + intros [x' n' tr'] Hs'. simpl. sees_tac.
    + by constructor.
Qed.

Lemma call_response_pair cb w :
  call_response cb w = ((call_response cb w).1, response_completion cb).
Proof.
  rewrite <- (call_response_completes cb w). by destruct (call_response cb w).
Qed.

Lemma call_response_refines cb w a :
  Sees w a → unborn r w →
  ∃ a', rtc Astep a a' ∧ Sees (call_response cb w).1 a' ∧ stub_only a a'.
Proof.
  intros Hs Hu. rewrite call_response_world.
  destruct cb as [[callback]|]; [by apply perform_refines|].
  exists a. split_and!; [done..|apply stub_only_refl].
Qed.

Lemma respond_to_other s' j w a :
  s' ≠ s → Sees w a → unborn r w → Reaches a (respond_to s' j w).
Proof.
  intros Hne Hs Hu. unfold respond_to. rewrite call_response_pair.
  destruct (call_response_refines (j_callback j) w a Hs Hu) as (a1 & Hr1 & Hs1 & _).
  eapply (reaches_quiet _ (call_response (j_callback j) w).1 _ [_; _]).
  - by exists a1.
  - intros [x' n' tr'] Hs'. simpl. sees_tac.
  - by repeat constructor.
Qed.

Lemma chain_step_other s' w a :
  s' ≠ s → Sees w a → unborn r w → Reaches a (chain_step s' w).
Proof.
  intros Hne Hs Hu. unfold chain_step.
  destruct (heap w !! s') as [o|]; [|by apply reaches_here].
  destruct (_responsesPromise (ctx o)) as [|j rest]; [by apply reaches_here|].
  destruct (j_stage j).
  - eapply (reaches_quiet _ w _ []); [by apply reaches_here | | constructor].
    intros [x' n' tr'] Hs'. simpl. sees_tac.
  - match goal with
    | |- Reaches _ (upd_ctx _ _ ?W) => eapply (reaches_quiet _ W _ [])
    end; [| | constructor].
    + destruct (_ && _); [by apply tryBeforeAnyResponse_other | by apply reaches_here].
    + intros [x' n' tr'] Hs'. simpl. sees_tac.
  - match goal with
    | |- Reaches _ (upd_ctx _ _ ?W) => eapply (reaches_quiet _ W _ [])
    end; [| | constructor].
    + destruct (bool_decide _);
        [by apply tryBeforeEachResponse_other | by apply reaches_here].
    + intros [x' n' tr'] Hs'. simpl. sees_tac.
  - by apply respond_to_other.
Qed.

Lemma stub_only_head a a' j rest :
  stub_only a a' → _responsesPromise (a_ctx a) = j :: rest →
  ∃ rest', _responsesPromise (a_ctx a') = j :: rest'.
Proof. intros ([l Hl] & _) Hj. rewrite Hl, Hj. by eexists. Qed.

Lemma chain_step_own w x n tr :
  Sees w (St x n tr) → unborn r w → Reaches (St x n tr) (chain_step s w).
Proof.
  intros Hs Hu. unfold chain_step.
  pose proof Hs as (Hx & _). simpl in Hx. rewrite Hx. simpl.
  destruct (_responsesPromise x) as [|j rest] eqn:Hj; [by apply reaches_here|].
  destruct (j_stage j) eqn:Hst.
  - eexists. split; [by eapply rtc_once, A_catch | sees_tac].
  - destruct (_ && _) eqn:Hc.
    + apply andb_true_iff in Hc as [Hi Hh].
      apply Nat.eqb_eq in Hi. apply bool_decide_eq_true in Hh.
      unfold _tryBeforeAnyResponse. rewrite Hx. simpl.
      destruct Hh as [hook Hh]. rewrite Hh.
      set (b := hook _). rewrite (perform_pair b).
      destruct (perform_refines b w _ Hs Hu) as ([x1 n1 tr1] & Hr1 & Hs1 & Ho1).
      destruct (stub_only_head _ _ _ _ Ho1 Hj) as [rest1 Hj1].
      eexists. split; [|sees_tac].
      etrans; [done|]. by eapply rtc_once, A_any_run.
    + eexists. split; [by eapply rtc_once, A_any_skip | sees_tac].
  - destruct (bool_decide _) eqn:Hh.
    + apply bool_decide_eq_true in Hh.
      unfold _tryBeforeEachResponse. rewrite Hx. simpl.
      destruct (is_set _) eqn:He.
      * eexists. split; [eapply rtc_once, A_each_skip; eauto | sees_tac].
      * destruct Hh as [hook Hh]. rewrite Hh.
        set (b := hook _ _ _). rewrite (perform_pair b).
        destruct (perform_refines b w _ Hs Hu) as ([x1 n1 tr1] & Hr1 & Hs1 & Ho1).
        destruct (stub_only_head _ _ _ _ Ho1 Hj) as [rest1 Hj1].
        eexists. split; [|sees_tac].
        etrans; [done|]. eapply rtc_once, A_each_run; eauto.
        destruct Ho1 as (_&_&_&_&_&E&_). simpl in E. by rewrite E.
    + apply bool_decide_eq_false in Hh.
      eexists. split; [eapply rtc_once, A_each_skip; eauto | sees_tac].
      left. destruct (_beforeEachResponse cf); [|done].
      exfalso. apply Hh. by eexists.
  - unfold respond_to. rewrite call_response_pair.
    destruct (call_response_refines (j_callback j) w _ Hs Hu)
      as ([x1 n1 tr1] & Hr1 & Hs1 & Ho1).
    destruct (stub_only_head _ _ _ _ Ho1 Hj) as [rest1 Hj1].
    eexists. split; [|sees_tac].
    etrans; [done|]. by eapply rtc_once, A_exec.
Qed.

Lemma chain_step_refines s' w a :
  Sees w a → unborn r w → Reaches a (chain_step s' w).
Proof.
  intros Hs Hu. destruct (decide (s' = s)) as [->|Hne].
  - destruct a. by apply chain_step_own.
  - by apply chain_step_other.
Qed.

Lemma tryBeforeEachNav_refines to from w s' a :
  Sees w a → unborn r w → Reaches a (_tryBeforeEachNav to from w s').
Proof.
  intros Hs Hu. unfold _tryBeforeEachNav.
  destruct (decide (s' = s)) as [->|Hne].
  - destruct a as [x n tr]. pose proof Hs as (Hx & _). simpl in Hx. rewrite Hx. simpl.
    destruct (negb _) eqn:Hp; [by apply reaches_here|].
    apply negb_false_iff in Hp.
    destruct (is_set _) eqn:He; [by apply reaches_here|].
    destruct (_beforeEachNavGuard cf) as [guard|].
    + set (b := guard _ _ _). rewrite (perform_pair b).
      destruct (perform_refines b w _ Hs Hu) as ([x1 n1 tr1] & Hr1 & Hs1 & Ho1).
      eexists. split; [|sees_tac].
      etrans; [done|].
      destruct Ho1 as (_&E1&_&E2&_). simpl in E1, E2.
      eapply rtc_once, A_guard; congruence.
    + exists (St (caught set_errorFromBeforeEachNav (Throw TypeError) x) n
                (EvGuard s to from (Throw TypeError) :: tr)).
      split; [by eapply rtc_once, A_guard|].
      apply sees_emit. by apply (sees_upd_ctx _ _ _ _ _ Hs).
  - destruct (heap w !! s') as [o|]; [|by apply reaches_here].
    destruct (negb _); [by apply reaches_here|].
    destruct (is_set _); [by apply reaches_here|].
    destruct (_beforeEachNavGuard (cfg o)) as [guard|].
    + set (b := guard _ _ _). rewrite (perform_pair b).
      eapply (reaches_quiet _ (perform b w).1 _ [_]).
      * apply reaches_perform; [by apply reaches_here | done].
      * intros [x' n' tr'] Hs'. simpl. sees_tac.
      * by constructor.
    + eapply (reaches_quiet _ w _ [_]).
      * by apply reaches_here.
      * intros [x' n' tr'] Hs'. simpl. sees_tac.
      * by constructor.
Qed.

Lemma nav_event_refines to from l w a :
  Sees w a → unborn r w → Reaches a (foldl (_tryBeforeEachNav to from) w l).
Proof.
  revert w a. induction l as [|s' l IH]; intros w a Hs Hu; simpl.
  - by apply reaches_here.
  - destruct (tryBeforeEachNav_refines to from w s' a Hs Hu) as (a1 & Hr1 & Hs1).
    destruct (IH _ a1 Hs1) as (a2 & Hr2 & Hs2).
    { eapply unborn_calm; [apply tryBeforeEachNav_calm | done]. }
    exists a2. split; [by etrans | done].
Qed.

Lemma drifts_reaches a w : Drifts a w → Reaches a w.
Proof. intros (a' & ? & ? & _). by exists a'. Qed.

Lemma drifts_here w a : Sees w a → Drifts a w.
Proof. exists a. split_and!; [done | done | apply stub_only_refl]. Qed.

Lemma drifts_quiet a w w' l :
  Drifts a w →
  (∀ a', Sees w a' → Sees w' (St (a_ctx a') (a_run a') (l ++ a_trace a'))) →
  quiet s l →
  Drifts a w'.
Proof.
  intros ([x n tr] & Hr & Hs & Ho) Hw Hq. eexists. split_and!; [|by apply Hw|].
  - etrans; [done|]. by apply rtc_once, A_quiet.
  - exact Ho.
Qed.

Lemma drifts_perform a w b :
  Drifts a w → unborn r w → Drifts a (perform b w).1.
Proof.
  intros (a' & Hr & Hs & Ho) Hu.
  destruct (perform_refines b w a' Hs Hu) as (a'' & Hr' & Hs' & Ho').
  exists a''. split_and!; [by etrans | done | by eapply stub_only_trans].
Qed.

Lemma drifts_upd_ctx_ne a w s' f :
  s' ≠ s → Drifts a w → Drifts a (upd_ctx s' f w).
Proof.
  intros Hne H. eapply (drifts_quiet _ w _ []); [done| |constructor].
  intros [? ? ?] ?. simpl. by apply sees_upd_ctx_ne.
Qed.

Lemma drifts_upd_run_ne a w r' f :
  r' ≠ r → (∀ n, r_self (f n) = r_self n) → Drifts a w → Drifts a (upd_run r' f w).
Proof.
  intros Hne Hf H. eapply (drifts_quiet _ w _ []); [done| |constructor].
  intros [? ? ?] ?. simpl. by apply sees_upd_run_ne.
Qed.

Lemma drifts_w_http a w t : Drifts a w → Drifts a (w_http t w).
Proof. intros (a' & ? & ? & ?). by exists a'. Qed.

Lemma drifts_w_inProgress a w b : Drifts a w → Drifts a (w_inProgress b w).
Proof. intros (a' & ? & ?& ?). by exists a'. Qed.

Lemma drifts_w_guards a w g : Drifts a w → Drifts a (w_guards g w).
Proof. intros (a' & ? & ? & ?). by exists a'. Qed.

Ltac drift_tac :=
  repeat first
    [ eassumption
    | apply drifts_w_http
    | apply drifts_w_inProgress
    | apply drifts_w_guards
    | apply drifts_upd_ctx_ne; [assumption|]
    | apply drifts_upd_run_ne; [assumption | done |]
    | apply drifts_perform; [|assumption] ].

Section other.
Context (r' s' : nat) (Hr : r' ≠ r) (Hs : s' ≠ s).

Lemma then_other a n' h w :
  Drifts a w → (∀ v, Drifts a (h v w).1) → Drifts a (then_ r' h n' w).
Proof using Hr.
  intros Hw H. unfold then_. destruct (r_settled n') as [v|e]; [|done].
  specialize (H v). destruct (h v w) as [w1 c]. simpl in H. drift_tac.
Qed.

Lemma finally_other a h w :
  Drifts a (h w).1 → Drifts a (finally_ r' h w).
Proof using Hr.
  intros H. unfold finally_. destruct (h w) as [w1 c]. simpl in H.
  destruct c; drift_tac.
Qed.

Lemma goto_other a p w : Drifts a w → Drifts a (goto r' p w).
Proof using Hr. intros H. unfold goto. drift_tac. Qed.

Ltac handler_tac :=
  intros; simpl;
  repeat first
    [ match goal with
      | |- context [perform ?b ?w] =>
          lazymatch goal with
          | |- context [(perform b w).1] => fail
          | _ => rewrite (perform_pair b w); cbv beta iota
          end
      end
    | match goal with
      | |- context [match ?c with _ => _ end] =>
          lazymatch c with
          | context [perform] => fail
          | _ => destruct c
          end
      | |- context [if ?c then _ else _] => destruct c
      end ];
  simpl; drift_tac.

Lemma initialPromise_other a v w :
  Drifts a w → Drifts a (_initialPromise r' s' v w).1.
Proof using Hr Hs. unfold _initialPromise. handler_tac. Qed.

Lemma navigateAndMount_other a w :
  Drifts a w → unborn r w → Drifts a (_navigateAndMount s' w).1.
Proof using Hs. unfold _navigateAndMount, _navigate, run_mount. handler_tac. Qed.

Lemma request_handler_other a w :
  Drifts a w → unborn r w → Drifts a (request_handler s' w).1.
Proof using Hs. unfold request_handler, _checkStateBeforeRequest. handler_tac. Qed.

Lemma poll_handler_other a n' w :
  Drifts a w → unborn r w → Drifts a (poll_handler s' n' w).1.
Proof using Hs. unfold poll_handler, waitUntil. handler_tac. Qed.

Lemma callback_handler_other a n' w :
  Drifts a w → unborn r w → Drifts a (callback_handler s' n' w).1.
Proof using Hs. unfold callback_handler. handler_tac. Qed.

Lemma main_step_other_self w a n' :
  runs w !! r' = Some n' → r_self n' = s' →
  Sees w a → unborn r w → Drifts a (main_step r' w).
Proof using Hr Hs.
  intros Hn' Hself Hsee Hu. unfold main_step. rewrite Hn', Hself.
  pose proof (drifts_here _ _ Hsee) as Hw.
  destruct (r_pc n').
  - destruct (heap w !! s') as [o|]; [|done].
    destruct (previous_outcome w o) as [prev|]; [|done].
    apply goto_other, then_other; [drift_tac|].
    intros v. apply initialPromise_other. drift_tac.
  - apply goto_other, then_other; [done|]. handler_tac.
  - apply goto_other, then_other; [done|]. intros _. by apply navigateAndMount_other.
  - apply goto_other, then_other; [done|]. done.
  - apply goto_other, then_other; [done|]. intros _. by apply request_handler_other.
  - apply goto_other, finally_other. done.
  - apply goto_other, finally_other. by apply poll_handler_other.
  - apply goto_other, finally_other. unfold _restoreHttp. handler_tac.
  - apply goto_other, then_other; [done|]. unfold verify_handler. handler_tac.
  - apply goto_other, then_other; [done|]. intros _. by apply callback_handler_other.
  - apply goto_other, then_other; [done|]. unfold wrap_handler. handler_tac.
  - apply goto_other, finally_other. unfold _cleanUpAfterResponses. handler_tac.
  - done.
Qed.
End other.

Lemma main_step_other r' w a :
  r' ≠ r → Sees w a → unborn r w → Drifts a (main_step r' w).
Proof.
  intros Hne Hs Hu.
  destruct (runs w !! r') as [n'|] eqn:Hn'.
  - apply (main_step_other_self r' (r_self n') Hne) with n'; try done.
    intros E. apply Hne. destruct Hs as (_&_&_&_&_&Huniq). by apply (Huniq r' n').
  - unfold main_step. rewrite Hn'. by apply drifts_here.
Qed.

Lemma A_main' x n tr x' n' :
  r_pc n ≠ PInit → r_pc n' ≠ PInit →
  (is_rejected (r_settled n) → is_rejected (r_settled n')) →
  same_counter n n' → same_queue x x' →
  Astep (St x n tr) (St x' n' tr).
Proof.
  intros H1 H2 H3 (?&?&?&?) (?&?&?&?&?&?&?&?&?).
  destruct x as [ip en ph co rp ea ee er f1 f2 lg],
    x' as [ip' en' ph' co' rp' ea' ee' er' f1' f2' lg'],
    n as [sf cb pw p st ct], n' as [sf' cb' pw' p' st' ct'];
    simpl in *; subst.
  match goal with
  | |- astep _ _ _ (St ?X ?N _) _ =>
      by apply (A_main s cf resps X N tr co' ip' p' st')
  end.
Qed.

Lemma same_queue_refl x : same_queue x x.
Proof. by repeat split. Qed.

Ltac main_tac :=
  eapply rtc_once, A_main'; simpl;
  [ try done | try done | try done; try (by intros [])
  | by repeat split | by repeat split ].

Lemma then_own w x n tr h p :
  Sees w (St x n tr) → r_pc n ≠ PInit → p ≠ PInit →
  (∀ v, ∃ x1 n1 tr1 x2,
     rtc Astep (St x n tr) (St x1 n1 tr1)
     ∧ same_position n n1
     ∧ same_queue x1 x2
     ∧ Sees (h v w).1 (St x2 n1 tr1)) →
  Reaches (St x n tr) (goto r p (then_ r h n w)).
Proof.
  intros Hs Hpc Hp H. unfold goto, then_.
  destruct (r_settled n) as [v|e] eqn:Hv.
  - destruct (H v) as (x1 & n1 & tr1 & x2 & Hr1 & (?&?&?&Hpc1&Hv1) & Hq & Hs2).
    destruct (h v w) as [w2 c]. simpl in Hs2.
    eexists. split; [|sees_tac].
    etrans; [done|]. eapply rtc_once, A_main'; simpl;
      [congruence | done | rewrite Hv1, Hv; by intros [] | by repeat split | done].
  - eexists. split; [|sees_tac].
    eapply rtc_once, A_main'; simpl;
      [done | done | done | by repeat split | apply same_queue_refl].
Qed.

Lemma finally_own w x n tr h p :
  Sees w (St x n tr) → r_pc n ≠ PInit → p ≠ PInit →
  (∃ x1 n1 tr1 x2,
     rtc Astep (St x n tr) (St x1 n1 tr1)
     ∧ same_position n n1
     ∧ same_queue x1 x2
     ∧ Sees (h w).1 (St x2 n1 tr1)) →
  Reaches (St x n tr) (goto r p (finally_ r h w)).
Proof.
  intros Hs Hpc Hp (x1 & n1 & tr1 & x2 & Hr1 & (?&?&?&Hpc1&Hv1) & Hq & Hs2).
  unfold goto, finally_.
  destruct (h w) as [w2 c]. simpl in Hs2.
  destruct c.
  - eexists. split; [|sees_tac].
    etrans; [done|]. eapply rtc_once, A_main'; simpl;
      [congruence | done | done | by repeat split | done].
  - eexists. split; [|sees_tac].
    etrans; [done|]. eapply rtc_once, A_main'; simpl;
      [congruence | done | done | by repeat split | done].
Qed.

Lemma own_simple w' x n tr x2 :
  same_queue x x2 → Sees w' (St x2 n tr) →
  ∃ x1 n1 tr1 x2,
    rtc Astep (St x n tr) (St x1 n1 tr1)
    ∧ same_position n n1 ∧ same_queue x1 x2 ∧ Sees w' (St x2 n1 tr1).
Proof.
  intros Hq Hs. exists x, n, tr, x2.
  split_and!; [done | apply same_position_refl | done | done].
Qed.

Lemma own_perform w x n tr b (after : world → completion → world * completion) :
  Sees w (St x n tr) → unborn r w →
  (∀ w1 x1 n1 tr1,
     Sees w1 (St x1 n1 tr1) →
     ∃ x2, same_queue x1 x2 ∧ Sees (after w1 (completes b)).1 (St x2 n1 tr1)) →
  ∃ x1 n1 tr1 x2,
    rtc Astep (St x n tr) (St x1 n1 tr1)
    ∧ same_position n n1 ∧ same_queue x1 x2
    ∧ Sees (let '(w1, c) := perform b w in after w1 c).1 (St x2 n1 tr1).
Proof.
  intros Hs Hu H. rewrite (perform_pair b w).
  destruct (perform_refines b w _ Hs Hu) as ([x1 n1 tr1] & Hr1 & Hs1 & Ho1).
  destruct (H _ _ _ _ Hs1) as (x2 & Hq & Hs2).
  exists x1, n1, tr1, x2. split_and!; try done. apply Ho1.
Qed.

Ltac own_after :=
  let w1 := fresh "w1" in
  let Hs1 := fresh "Hs1" in
  intros w1 ? ? ? Hs1; simpl;
  repeat match goal with
         | |- context [match ?c with _ => _ end] =>
             lazymatch c with
             | context [match _ with _ => _ end] => fail
             | _ => destruct c
             end
         end;
  simpl; eexists; (split; [|sees_tac]); by repeat split.

Lemma main_step_own w x n tr :
  Sees w (St x n tr) → unborn r w → Reaches (St x n tr) (main_step r w).
Proof.
  intros Hs Hu. unfold main_step.
  pose proof Hs as (Hx & Hn & _ & Hself & Hresps & _). simpl in *.
  rewrite Hn, Hself.
  destruct (r_pc n) eqn:Hpc.
  - (* PInit *)
    rewrite Hx. destruct (previous_outcome _ _) as [prev|]; [|by apply reaches_here].
    unfold goto, then_. simpl.
    destruct prev as [v|e]; simpl.
    + unfold _initialPromise.
      destruct (get v "component") as [component|].
      * destruct (inProgress _).
        -- eexists. split; [|sees_tac]. by eapply rtc_once, A_init_fail.
        -- simpl. rewrite Hx. unfold responses_of. simpl. rewrite Hresps.
           eexists. split; [|sees_tac].
           by eapply rtc_once, (A_init_ok _ _ _ _ _ _ (http w) component).
      * eexists. split; [|sees_tac]. by eapply rtc_once, A_init_fail.
    + eexists. split; [|sees_tac].
      by eapply rtc_once, (A_init_fail _ _ _ _ _ _ e (Rejected e)).
  - apply then_own; try done; [congruence|].
    intros _. rewrite Hx. simpl. destruct (bool_decide _);
      (eapply own_simple; [apply same_queue_refl | sees_tac]).
  - apply then_own; try done; [congruence|].
    intros _. unfold _navigateAndMount, _navigate, run_mount. rewrite Hx. simpl.
    destruct (negb _), (_mount cf) as [m|].
    + apply (own_perform w x n tr m
               (λ w1 c, match match c with
                              | Return component =>
                                  (upd_ctx s (set_component component) w1,
                                   Return VUndefined)
                              | Throw e => (w1, Throw e)
                              end with
                        | (w2, Return _) => (w2, Return VUndefined)
                        | (w2, Throw e) => (w2, Throw e)
                        end)); [done..|].
      own_after.
    + eapply own_simple; [apply same_queue_refl | sees_tac].
    + apply (own_perform w x n tr m
               (λ w1 c, match c with
                        | Return component =>
                            (upd_ctx s (set_component component) w1,
                             Return VUndefined)
                        | Throw e => (w1, Throw e)
                        end)); [done..|].
      own_after.
    + eapply own_simple; [apply same_queue_refl | sees_tac].
  - apply then_own; try done; [congruence|].
    intros _. eapply own_simple; [apply same_queue_refl | sees_tac].
  - apply then_own; try done; [congruence|].
    intros _. unfold request_handler. rewrite Hx. simpl.
    destruct (_request cf) as [q|];
      [|eapply own_simple; [apply same_queue_refl | sees_tac]].
    destruct (_checkStateBeforeRequest _);
      [|eapply own_simple; [apply same_queue_refl | sees_tac]].
    apply (own_perform w x n tr _ (λ w1 c, (w1, c))); [done..|]. own_after.
  - apply finally_own; try done; [congruence|].
    eapply own_simple; [apply same_queue_refl | sees_tac].
  - apply finally_own; try done; [congruence|].
    unfold poll_handler, waitUntil. rewrite Hx.
    destruct (r_pollWork n) as [pollWork|];
      [|eapply own_simple; [apply same_queue_refl | sees_tac]].
    apply (own_perform w x n tr _
             (λ w1 c, match c with
                      | Return v =>
                          if truthy v then (w1, Return VUndefined)
                          else (w1, Throw (JsError "waitUntil() timed out"))
                      | Throw e => (w1, Throw e)
                      end)); [done..|].
    own_after.
  - apply finally_own; try done; [congruence|].
    unfold _restoreHttp. rewrite Hx. simpl.
    destruct (_inProgress x); (eapply own_simple; [apply same_queue_refl | sees_tac]).
  - apply then_own; try done; [congruence|].
    intros _. unfold verify_handler. rewrite Hx. simpl.
    eapply own_simple; [apply same_queue_refl | sees_tac].
  - apply then_own; try done; [congruence|].
    intros _. unfold callback_handler. rewrite Hx.
    destruct (r_callback n) as [callback|];
      [|eapply own_simple; [apply same_queue_refl | sees_tac]].
    apply (own_perform w x n tr _ (λ w1 c, (w1, c))); [done..|]. own_after.
  - apply then_own; try done; [congruence|].
    intros v. unfold wrap_handler. rewrite Hx. simpl.
    eapply own_simple; [apply same_queue_refl | sees_tac].
  - apply finally_own; try done; [congruence|].
    unfold _cleanUpAfterResponses. simpl.
    eapply (own_simple _ _ _ _ (set_inProgress false x)); [by repeat split | sees_tac].
  - by apply reaches_here.
Qed.

(** The stub of a run is nowhere before the first handler of the run. *)

Lemma dormant_calm w w' : calm w w' → dormant r w → dormant r w'.
Proof.
  intros (Hhttp & _ & _ & _ & Hh & _) [Hd1 Hd2]. split; [congruence|].
  intros s' o' Ho'. specialize (Hh s'). rewrite Ho' in Hh.
  inversion Hh as [o ? (?&?&Hprev&?) Ho|]; subst.
  rewrite Hprev. by apply (Hd2 s' o).
Qed.

Lemma dormant_upd_run w r' f : dormant r w → dormant r (upd_run r' f w).
Proof. done. Qed.

Lemma dormant_upd_ctx w s' f :
  (∀ x, _previousHttp x ≠ Stub r → _previousHttp (f x) ≠ Stub r) →
  dormant r w → dormant r (upd_ctx s' f w).
Proof.
  intros Hf [Hd1 Hd2]. split; [done|].
  intros s'' o'' Ho''. simpl in Ho''.
  apply lookup_alter_Some in Ho'' as [(-> & o & Ho & ->)|[? Ho'']]; simpl.
  - apply Hf. by apply (Hd2 _ _ Ho).
  - by apply (Hd2 _ _ Ho'').
Qed.

Lemma dormant_w_http w t : t ≠ Stub r → dormant r w → dormant r (w_http t w).
Proof. intros Ht [Hd1 Hd2]. by split. Qed.

Lemma dormant_w_inProgress w b : dormant r w → dormant r (w_inProgress b w).
Proof. done. Qed.

Lemma dormant_w_guards w g : dormant r w → dormant r (w_guards g w).
Proof. done. Qed.

Lemma dormant_perform w b : dormant r w → dormant r (perform b w).1.
Proof. apply dormant_calm, perform_calm. Qed.

Ltac dormant_tac :=
  repeat match goal with
         | |- dormant _ (upd_run _ _ _) => apply dormant_upd_run
         | |- dormant _ (w_inProgress _ _) => apply dormant_w_inProgress
         | |- dormant _ (w_guards _ _) => apply dormant_w_guards
         | |- dormant _ (perform _ _).1 => apply dormant_perform
         | |- dormant _ (w_http _ _) =>
             apply dormant_w_http; [first [congruence | done]|]
         | |- dormant _ (upd_ctx _ _ _) =>
             apply dormant_upd_ctx;
             [let H := fresh in intros ? H; first [exact H | simpl; congruence | done]|]
         | |- dormant _ _ => assumption
         end.

Ltac dormant_cases :=
  intros; simpl;
  repeat first
    [ match goal with
      | |- context [perform ?b ?w] =>
          lazymatch goal with
          | |- context [(perform b w).1] => fail
          | _ => rewrite (perform_pair b w); cbv beta iota
          end
      end
    | match goal with
      | |- context [match ?c with _ => _ end] =>
          lazymatch c with
          | context [match _ with _ => _ end] => fail
          | context [perform] => fail
          | _ => destruct c eqn:?
          end
      end ];
  simpl.

Lemma main_step_dormant r' w :
  r' ≠ r → dormant r w → dormant r (main_step r' w).
Proof.
  intros Hne Hd. pose proof Hd as [Hd1 Hd2]. unfold main_step.
  destruct (runs w !! r') as [n'|]; [|done].
  destruct (r_pc n');
    unfold goto, then_, finally_, _initialPromise, _navigateAndMount, _navigate,
      run_mount, request_handler, poll_handler, waitUntil, verify_handler,
      callback_handler, wrap_handler, _restoreHttp, _cleanUpAfterResponses,
      _checkStateBeforeRequest;
    dormant_cases; dormant_tac.
  all: try (intros _; simpl; congruence).
  all: try match goal with
           | H : heap _ !! ?s' = Some ?o |- dormant _ (w_http (_previousHttp (ctx ?o)) _) =>
               apply dormant_w_http; [apply (Hd2 _ _ H) | done]
           end.

Qed.

Lemma goto_pc p w n' : runs (goto r p w) !! r = Some n' → r_pc n' = p.
Proof.
  unfold goto. simpl. rewrite lookup_alter_eq.
  destruct (runs w !! r); [|done]. by intros [= <-].
Qed.

Lemma main_step_born w n' :
  runs (main_step r w) !! r = Some n' → r_pc n' = PInit → main_step r w = w.
Proof.
  intros Hn' Hpc. unfold main_step in *.
  destruct (runs w !! r) as [n|]; [|done].
  destruct (r_pc n) eqn:E; try done;
    try (apply goto_pc in Hn'; congruence).
  destruct (heap w !! r_self n); [|done].
  destruct (previous_outcome _ _); [|done].
  apply goto_pc in Hn'. congruence.
Qed.

Lemma astep_born a a' :
  Astep a a' → r_pc (a_run a) ≠ PInit → r_pc (a_run a') ≠ PInit.
Proof. by destruct 1. Qed.

Lemma asteps_born a a' :
  rtc Astep a a' → r_pc (a_run a) ≠ PInit → r_pc (a_run a') ≠ PInit.
Proof. induction 1; [done|]. intros. eauto using astep_born. Qed.

(** Every step of the scheduler is a sequence of steps of the series. *)
Lemma step_refines w a act :
  Sees w a → unborn r w → Reaches a (step w act).
Proof.
  intros Hs Hu. destruct act as [r'|s'|config|to from]; simpl.
  - destruct (decide (r' = r)) as [->|Hne].
    + destruct a. by apply main_step_own.
    + by apply drifts_reaches, main_step_other.
  - by apply chain_step_refines.
  - destruct (http_call_refines config w a Hs Hu) as (a' & ? & ? & _). by exists a'.
  - by apply nav_event_refines.
Qed.

Lemma step_calm w act :
  (∀ r', act ≠ Main r') → calm w (step w act).
Proof.
  intros Hact. destruct act as [r'|s'|config|to from]; simpl.
  - by destruct (Hact r').
  - apply chain_step_calm.
  - apply http_call_calm.
  - apply nav_event_calm.
Qed.

Lemma step_coupled w a act :
  coupled r s cf resps w a →
  ∃ a', rtc Astep a a' ∧ coupled r s cf resps (step w act) a'.
Proof.
  intros [Hs Hu]. destruct (step_refines w a act Hs Hu) as (a' & Hr & Hs').
  exists a'. split; [done|]. split; [done|].
  destruct act as [r'|s'|config|to from].
  - intros n' Hn' Hpc. simpl in *. destruct (decide (r' = r)) as [->|Hne].
    + pose proof (main_step_born w n' Hn' Hpc) as E. rewrite E in Hn' |- *.
      by apply (Hu n').
    + apply main_step_dormant; [done|].
      destruct Hs as (_ & Hn & _). apply (Hu _ Hn).
      destruct (r_pc (a_run a)) eqn:Hb; try done.
      all: assert (Hb' : r_pc (a_run a) ≠ PInit) by congruence.
      all: clear Hb; rename Hb' into Hb.
      all: exfalso; apply (asteps_born _ _ Hr Hb).
      all: destruct Hs' as (_ & Hn1 & _); congruence.
  - eapply unborn_calm; [|done]. by apply step_calm.
  - eapply unborn_calm; [|done]. by apply step_calm.
  - eapply unborn_calm; [|done]. by apply step_calm.
Qed.

Lemma exec_coupled sched w a :
  coupled r s cf resps w a →
  ∃ a', rtc Astep a a' ∧ coupled r s cf resps (exec sched w) a'.
Proof.
  revert w a. induction sched as [|act sched IH]; intros w a Hc; simpl.
  - by exists a.
  - destruct (step_coupled w a act Hc) as (a1 & Hr1 & Hc1).
    destruct (IH _ _ Hc1) as (a2 & Hr2 & Hc2).
    exists a2. split; [by etrans | done].
Qed.
End refinement.

(** ** Invariants of one series *)

Lemma each_event_nil P : each_event P [].
Proof. intros after e before H. by destruct after. Qed.

Lemma each_event_cons P e tr :
  each_event P (e :: tr) ↔ P e tr ∧ each_event P tr.
Proof.
  split.
  - intros H. split; [by apply (H [])|].
    intros after e' before ->. by apply (H (e :: after)).
  - intros [H1 H2] [|e0 after] e' before E; simplify_eq/=; [done|].
    by eapply H2.
Qed.

Lemma quiet_elem s l tr e :
  quiet s l → ev_series e = s → e ∈ l ++ tr ↔ e ∈ tr.
Proof.
  intros Hq He. rewrite elem_of_app. split; [|auto].
  intros [H|H]; [|done].
  exfalso. eapply (proj1 (Forall_forall _ _) Hq); eauto.
Qed.

Lemma quiet_older s l tr e :
  quiet s l → e ∈ l ++ tr → ev_series e = s → e ∈ tr.
Proof. intros Hq He Hs. by apply (quiet_elem s l tr e Hq Hs). Qed.

Lemma each_event_quiet (P : event → list event → Prop) s l tr :
  (∀ e before, ev_series e ≠ s → P e before) →
  quiet s l → each_event P tr → each_event P (l ++ tr).
Proof.
  intros HP Hq H. induction Hq as [|e l He Hq IH]; [done|].
  simpl. apply each_event_cons. split; [by apply HP | done].
Qed.

Arguments accepted : simpl never.
Arguments is_set : simpl never.
Arguments advance : simpl never.

Section invariants.
Context (s : nat) (cf : config) (resps : list response_callback).

Local Abbreviation Astep := (astep s cf resps).
Local Abbreviation St := Build_astate.

Lemma advance_chain st x j rest :
  _responsesPromise x = j :: rest →
  _responsesPromise (advance st x)
  = {| j_index := j_index j; j_config := j_config j;
       j_callback := j_callback j; j_stage := st |} :: rest.
Proof. intros H. unfold advance. rewrite H. reflexivity. Qed.

Lemma caught_chain set c x :
  (∀ e y, _responsesPromise (set e y) = _responsesPromise y) →
  _responsesPromise (caught set c x) = _responsesPromise x.
Proof. intros H. destruct c; [done|]. apply H. Qed.

Lemma head_index a j rest :
  chain_inv s resps a → _responsesPromise (a_ctx a) = j :: rest →
  j_index j = next_index a.
Proof.
  intros [_ _ Hidx _ _ _ _ _] Hj. rewrite Hj in Hidx. simpl in Hidx. congruence.
Qed.

Lemma chain_accepted count config x :
  _responsesPromise (accepted resps count config x)
  = _responsesPromise x
    ++ [{| j_index := count; j_config := config;
           j_callback := resps !! count; j_stage := StCatch |}].
Proof. unfold accepted. by destruct (_ =? _)%Z. Qed.

Lemma chain_caught_nav c x :
  _responsesPromise (caught set_errorFromBeforeEachNav c x) = _responsesPromise x.
Proof. by destruct c. Qed.

Lemma chain_caught_any c x :
  _responsesPromise (caught set_errorFromBeforeAnyResponse c x) = _responsesPromise x.
Proof. by destruct c. Qed.

Lemma chain_caught_each c x :
  _responsesPromise (caught set_errorFromBeforeEachResponse c x) = _responsesPromise x.
Proof. by destruct c. Qed.

Lemma chain_responded c x :
  _responsesPromise (responded c x) = tail (_responsesPromise x).
Proof. done. Qed.

Lemma inProgress_accepted count config x :
  _inProgress (accepted resps count config x) = _inProgress x.
Proof. unfold accepted. by destruct (_ =? _)%Z. Qed.

Lemma inProgress_advance st x : _inProgress (advance st x) = _inProgress x.
Proof. unfold advance. by destruct (_responsesPromise x). Qed.

Lemma tail_snoc_catch (ch : list job) j :
  j_stage j = StCatch →
  Forall (λ j, j_stage j = StCatch) (tail ch) →
  Forall (λ j, j_stage j = StCatch) (tail (ch ++ [j])).
Proof.
  intros Hj H. destruct ch as [|j0 ch]; simpl in *; [constructor|].
  apply Forall_app. split; [done|]. by constructor.
Qed.

Lemma quiet_absurd tr e : quiet s tr → e ∈ tr → ev_series e = s → False.
Proof. intros Hq He Hs. by eapply (proj1 (Forall_forall _ _) Hq). Qed.

Ltac older :=
  repeat match goal with
         | H : _ ∈ _ :: _ |- _ =>
             apply elem_of_cons in H as [H|H]; [try discriminate|]
         end.

Ltac newer :=
  repeat first [ eassumption | apply elem_of_cons; right ].

Lemma jobs_older (tr : list event) e (ch : list job) :
  Forall (λ j, j_callback j = resps !! j_index j
               ∧ EvRequest s (j_index j) (j_config j) ∈ tr) ch →
  Forall (λ j, j_callback j = resps !! j_index j
               ∧ EvRequest s (j_index j) (j_config j) ∈ e :: tr) ch.
Proof.
  intros H. eapply Forall_impl; [done|]. intros j [? ?]. split; [done|].
  by apply elem_of_cons; right.
Qed.

Lemma chain_inv_step a a' : Astep a a' → chain_inv s resps a → chain_inv s resps a'.
Proof.
  intros Hstep Hinv. pose proof Hinv as [Hu Hlen Hidx Htail Hjobs Hlt Hall Hresp].
  destruct Hstep; unfold next_index in *; simpl in *.
  - (* quiet *)
    constructor; unfold next_index; simpl; try done.
    + intros Hpc. destruct (Hu Hpc) as (?&?&?&?). split_and!; try done.
      by apply Forall_app.
    + eapply Forall_impl; [done|]. intros j [? ?]. split; [done|].
      apply elem_of_app; by right.
    + intros i o Hi. apply Hlt with o. by eapply quiet_elem.
    + intros i Hi. destruct (Hall i Hi) as [o Ho]. exists o.
      apply elem_of_app; by right.
    + intros i c Hi. apply Hresp with c. by eapply quiet_elem.
  - (* accept *)
    constructor; unfold next_index; simpl; rewrite ?chain_accepted, ?length_app; simpl.
    + done.
    + lia.
    + rewrite fmap_app, Hidx. simpl.
      replace (r_count n + 1 - (length (_responsesPromise x) + 1))
        with (r_count n - length (_responsesPromise x)) by lia.
      replace (length (_responsesPromise x) + 1)
        with (S (length (_responsesPromise x))) by lia.
      rewrite seq_S. do 2 f_equal. lia.
    + by apply tail_snoc_catch.
    + apply Forall_app. split; [by apply jobs_older|].
      constructor; [|constructor]. simpl. split; [done|]. apply elem_of_cons; by left.
    + intros i o Hi. older. specialize (Hlt i o Hi). lia.
    + intros i Hi. destruct (Hall i) as [o Ho]; [lia|]. exists o. newer.
    + intros i c Hi. older. specialize (Hresp i c Hi). lia.
  - (* surplus *)
    constructor; unfold next_index; simpl; try done.
    + by apply jobs_older.
    + intros i o Hi. older. eauto.
    + intros i Hi. destruct (Hall i Hi) as [o Ho]. exists o. newer.
    + intros i c Hi. older. eauto.
  - (* catch *)
    rewrite H in *.
    constructor; unfold next_index; simpl; rewrite ?(advance_chain _ _ _ _ H);
      try done.
    + intros Hpc. by destruct (Hu Hpc) as (?&?&?&?).
    + inversion Hjobs; subst. by constructor.
  - (* any, not run *)
    rewrite H in *.
    constructor; unfold next_index; simpl; rewrite ?(advance_chain _ _ _ _ H);
      try done.
    + intros Hpc. by destruct (Hu Hpc) as (?&?&?&?).
    + inversion Hjobs; subst. by constructor.
  - (* any, run *)
    assert (Hc : _responsesPromise (caught set_errorFromBeforeAnyResponse c x)
                 = j :: rest) by (by rewrite chain_caught_any).
    rewrite H in *.
    constructor; unfold next_index; simpl; rewrite ?(advance_chain _ _ _ _ Hc);
      try done.
    + intros Hpc. by destruct (Hu Hpc) as (?&?&?&?).
    + inversion Hjobs as [|? ? [? ?]]; subst. constructor; [|by apply jobs_older].
      simpl. split; [done|]. newer.
    + intros i o Hi. older. eauto.
    + intros i Hi. destruct (Hall i Hi) as [o Ho]. exists o. newer.
    + intros i c' Hi. older. eauto.
  - (* each, not run *)
    rewrite H in *.
    constructor; unfold next_index; simpl; rewrite ?(advance_chain _ _ _ _ H);
      try done.
    + intros Hpc. by destruct (Hu Hpc) as (?&?&?&?).
    + inversion Hjobs; subst. by constructor.
  - (* each, run *)
    assert (Hc : _responsesPromise (caught set_errorFromBeforeEachResponse c x)
                 = j :: rest) by (by rewrite chain_caught_each).
    rewrite H in *.
    constructor; unfold next_index; simpl; rewrite ?(advance_chain _ _ _ _ Hc);
      try done.
    + intros Hpc. by destruct (Hu Hpc) as (?&?&?&?).
    + inversion Hjobs as [|? ? [? ?]]; subst. constructor; [|by apply jobs_older].
      simpl. split; [done|]. newer.
    + intros i o Hi. older. eauto.
    + intros i Hi. destruct (Hall i Hi) as [o Ho]. exists o. newer.
    + intros i c' Hi. older. eauto.
  - (* exec *)
    rewrite H in *. simpl in *.
    injection Hidx as Hk Hrest.
    constructor; unfold next_index; simpl; rewrite ?H; simpl.
    + intros Hpc. by destruct (Hu Hpc) as (?&?&?&?).
    + lia.
    + etrans; [exact Hrest|]. f_equal. lia.
    + by destruct rest; [constructor | inversion Htail].
    + inversion Hjobs; subst. by do 2 apply jobs_older.
    + intros i o Hi. older.
      * simplify_eq. lia.
      * specialize (Hlt i o Hi). lia.
    + intros i Hi.
      destruct (decide (i = j_index j)) as [->|Hne].
      * eexists. apply elem_of_cons; by left.
      * destruct (Hall i) as [o Ho]; [lia|]. exists o. newer.
    + intros i c' Hi. older.
      * simplify_eq. lia.
      * specialize (Hresp i c' Hi). lia.
  - (* guard *)
    constructor; unfold next_index; simpl; rewrite ?chain_caught_nav; try done.
    + intros Hpc. destruct (Hu Hpc) as (?&?&?&?). congruence.
    + by apply jobs_older.
    + intros i o Hi. older. eauto.
    + intros i Hi. destruct (Hall i Hi) as [o Ho]. exists o. newer.
    + intros i c' Hi. older. eauto.
  - (* the first handler *)
    destruct (Hu H) as (Hq & Hch & Hcount & Hprog).
    constructor; unfold next_index; simpl; try done.
    + intros i o Hi. by destruct (quiet_absurd _ _ Hq Hi).
    + intros i Hi. lia.
    + intros i c Hi. by destruct (quiet_absurd _ _ Hq Hi).
  - (* the first handler, failing *)
    destruct (Hu H) as (Hq & Hch & Hcount & Hprog).
    constructor; unfold next_index; simpl; try done.
  - (* a later handler *)
    constructor; unfold next_index; simpl; try done.
Qed.

Lemma each_hook_ran_older i e tr : each_hook_ran s i tr → each_hook_ran s i (e :: tr).
Proof.
  intros [(config & c & H)|(config & i' & e' & ? & H & ?)].
  - left. exists config, c. by apply elem_of_cons; right.
  - right. exists config, i', e'. split_and!; try done. by apply elem_of_cons; right.
Qed.

Lemma each_hook_ran_quiet i l tr : each_hook_ran s i tr → each_hook_ran s i (l ++ tr).
Proof.
  intros [(config & c & H)|(config & i' & e' & ? & H & ?)].
  - left. exists config, c. by apply elem_of_app; right.
  - right. exists config, i', e'. split_and!; try done. by apply elem_of_app; right.
Qed.

Lemma head_at_trace x n tr tr' i st :
  head_at (St x n tr) i st ↔ head_at (St x n tr') i st.
Proof. done. Qed.

Lemma head_at_accepted x n n' tr tr' count config i st :
  st ≠ StCatch →
  head_at (St (accepted resps count config x) n' tr') i st ↔ head_at (St x n tr) i st.
Proof.
  intros Hst. unfold head_at. cbn [a_ctx]. rewrite chain_accepted.
  destruct (_responsesPromise x) as [|j rest]; simpl.
  - split; intros (j' & rest' & ? & ? & ?); simplify_eq/=.
  - split; intros (j' & rest' & ? & ? & ?); simplify_eq/=; by eexists _, _.
Qed.

Lemma head_at_advance x n' tr' j rest st i st' :
  _responsesPromise x = j :: rest →
  head_at (St (advance st x) n' tr') i st' ↔ j_index j = i ∧ st = st'.
Proof.
  intros Hj. unfold head_at. simpl. rewrite (advance_chain _ _ _ _ Hj).
  split.
  - by intros (j' & rest' & ? & ? & ?); simplify_eq/=.
  - intros [<- <-]. by eexists _, _.
Qed.

Lemma head_at_here x n tr j rest i st :
  _responsesPromise x = j :: rest →
  head_at (St x n tr) i st ↔ j_index j = i ∧ j_stage j = st.
Proof.
  intros Hj. unfold head_at. simpl. rewrite Hj. split.
  - by intros (j' & rest' & ? & ? & ?); simplify_eq/=.
  - intros [<- <-]. by eexists _, _.
Qed.

Lemma head_at_none x n tr i st :
  _responsesPromise x = [] → ¬ head_at (St x n tr) i st.
Proof. intros Hj (j & rest & H & _). simpl in H. congruence. Qed.

Lemma advance_each st x :
  _errorFromBeforeEachResponse (advance st x) = _errorFromBeforeEachResponse x.
Proof. unfold advance. by destruct (_responsesPromise x). Qed.

Lemma hooks_inv_step a a' :
  Astep a a' → chain_inv s resps a → hooks_inv s cf a → hooks_inv s cf a'.
Proof.
  intros Hstep Hchain [Hat Hdone Herr Hany Hanyd].
  pose proof (λ j rest, head_index a j rest Hchain) as Hhead.
  pose proof Hchain as [Hu Hlen Hidx Htail Hjobs Hlt Hall Hresp].
  destruct Hstep; unfold next_index in *; simpl in *.
  - (* quiet *)
    constructor; unfold next_index; simpl.
    + intros config i c Hi. eapply Hat. by eapply quiet_elem.
    + intros i Hi Hr. by apply each_hook_ran_quiet, Hdone.
    + intros He. destruct (Herr He) as (config & i & e & ? & ?).
      exists config, i, e. split; [|done]. by apply elem_of_app; right.
    + intros c Hi. eapply Hany. by eapply quiet_elem.
    + intros Hi Hr. destruct (Hanyd Hi Hr) as [c Hc]. exists c.
      by apply elem_of_app; right.
  - (* accept *)
    assert (Hh : ∀ n' tr' i st, st ≠ StCatch →
      head_at (St (accepted resps (r_count n) request0 x) n' tr') i st
      ↔ head_at (St x n tr) i st).
    { intros. by apply head_at_accepted. }
    constructor; unfold next_index; simpl;
      rewrite ?chain_accepted, ?length_app; simpl;
      replace (r_count n + 1 - (length (_responsesPromise x) + 1))
        with (r_count n - length (_responsesPromise x)) by lia.
    + intros config' i c Hi. older.
      destruct (Hat _ _ _ Hi) as [?|?]; [by left|right]. by apply Hh.
    + intros i Hi Hr. apply each_hook_ran_older, Hdone; [|done]. by apply Hh in Hi.
    + unfold accepted. destruct (_ =? _)%Z; simpl; intros He;
        destruct (Herr He) as (config' & i & e & ? & ?);
        exists config', i, e; (split; [newer | done]).
    + intros c Hi. older.
      destruct (Hany _ Hi) as [?|[?|?]]; [by left|right; left|right; right];
        by apply Hh.
    + intros Hi Hr. destruct Hanyd as [c Hc]; [|done|exists c; newer].
      destruct Hi as [Hi|Hi]; [left|right]; by apply Hh in Hi.
  - (* surplus *)
    constructor; unfold next_index; simpl.
    + intros config' i c Hi. older. by apply Hat in Hi.
    + intros i Hi Hr. by apply each_hook_ran_older, Hdone.
    + intros He. destruct (Herr He) as (config' & i & e & ? & ?).
      exists config', i, e. split; [newer | done].
    + intros c Hi. older. by apply Hany in Hi.
    + intros Hi Hr. destruct (Hanyd Hi Hr) as [c Hc]. exists c. newer.
  - (* catch *)
    pose proof (λ i st', head_at_here x n tr _ _ i st' H) as Hh.
    pose proof (λ i st', head_at_advance x n tr _ _ StAny i st' H) as Hh'.
    constructor; unfold next_index; simpl; rewrite ?(advance_chain _ _ _ _ H); simpl.
    + intros config i c Hi. destruct (Hat _ _ _ Hi) as [?|Hs]; [rewrite H in *; by left|].
      apply Hh in Hs as [_ ?]. congruence.
    + intros i Hi. by apply Hh' in Hi as [_ ?].
    + rewrite advance_each. apply Herr.
    + intros c Hi. destruct (Hany _ Hi) as [?|[Hs|Hs]]; [rewrite H in *; by left|..];
        apply Hh in Hs as [_ ?]; congruence.
    + intros [Hi|Hi]; by apply Hh' in Hi as [_ ?].
  - (* any, not run *)
    pose proof (λ i st', head_at_here x n tr _ _ i st' H) as Hh.
    pose proof (λ i st', head_at_advance x n tr _ _ StEach i st' H) as Hh'.
    constructor; unfold next_index; simpl; rewrite ?(advance_chain _ _ _ _ H); simpl.
    + intros config i c Hi. destruct (Hat _ _ _ Hi) as [?|Hs]; [rewrite H in *; by left|].
      apply Hh in Hs as [_ ?]. congruence.
    + intros i Hi. by apply Hh' in Hi as [_ ?].
    + rewrite advance_each. apply Herr.
    + intros c Hi. destruct (Hany _ Hi) as [?|[Hs|Hs]]; [rewrite H in *; by left|..];
        apply Hh in Hs as [_ ?]; congruence.
    + intros [Hi|Hi] Hr; apply Hh' in Hi as [Hi ?]; [|done].
      rewrite Hi, Nat.eqb_refl, bool_decide_eq_true_2 in H1; done.
  - (* any, run *)
    assert (Hc : _responsesPromise (caught set_errorFromBeforeAnyResponse c x)
                 = j :: rest) by (by rewrite chain_caught_any).
    pose proof (λ i st', head_at_here x n tr _ _ i st' H) as Hh.
    pose proof (λ n' tr' i st', head_at_advance _ n' tr' _ _ StEach i st' Hc) as Hh'.
    constructor; unfold next_index; simpl; rewrite ?(advance_chain _ _ _ _ Hc); simpl.
    + intros config i c' Hi. older.
      destruct (Hat _ _ _ Hi) as [?|Hs]; [rewrite H in *; by left|].
      apply Hh in Hs as [_ ?]. congruence.
    + intros i Hi. by apply Hh' in Hi as [_ ?].
    + rewrite advance_each. replace (_errorFromBeforeEachResponse (caught set_errorFromBeforeAnyResponse c x)) with (_errorFromBeforeEachResponse x) by (by destruct c). intros He.
      destruct (Herr He) as (config' & i & e & ? & ?).
      exists config', i, e. split; [newer | done].
    + intros c' Hi. right. left. by apply Hh'.
    + intros _ _. exists c. apply elem_of_cons; by left.
  - (* each, not run *)
    pose proof (λ i st', head_at_here x n tr _ _ i st' H) as Hh.
    pose proof (λ i st', head_at_advance x n tr _ _ StExec i st' H) as Hh'.
    pose proof (Hhead _ _ H) as Hk.
    constructor; unfold next_index; simpl; rewrite ?(advance_chain _ _ _ _ H); simpl.
    + intros config i c Hi. destruct (Hat _ _ _ Hi) as [?|Hs]; [rewrite H in *; by left|].
      apply Hh in Hs as [_ ?]. congruence.
    + intros i Hi Hr. apply Hh' in Hi as [<- _].
      destruct H1 as [Hn|He]; [rewrite Hn in Hr; by destruct Hr|].
      destruct (Herr He) as (config & i & e & Hi & ?).
      right. exists config, i, e. split_and!; try done.
      destruct (Hat _ _ _ Hi) as [?|Hs]; [lia|].
      apply Hh in Hs as [_ ?]. congruence.
    + rewrite advance_each. apply Herr.
    + intros c Hi. destruct (Hany _ Hi) as [?|[Hs|Hs]]; [rewrite H in *; by left|..];
        apply Hh in Hs as [? ?]; [|congruence].
      right. right. by apply Hh'.
    + intros Hi Hr. apply Hanyd; [|done]. left. apply Hh.
      destruct Hi as [Hi|Hi]; apply Hh' in Hi as [? ?]; done.
  - (* each, run *)
    assert (Hc : _responsesPromise (caught set_errorFromBeforeEachResponse c x)
                 = j :: rest) by (by rewrite chain_caught_each).
    pose proof (λ i st', head_at_here x n tr _ _ i st' H) as Hh.
    pose proof (λ n' tr' i st', head_at_advance _ n' tr' _ _ StExec i st' Hc) as Hh'.
    constructor; unfold next_index; simpl; rewrite ?(advance_chain _ _ _ _ Hc); simpl.
    + intros config i c' Hi. apply elem_of_cons in Hi as [Hi|Hi].
      * simplify_eq. right. by apply Hh'.
      * destruct (Hat _ _ _ Hi) as [?|Hs]; [rewrite H in *; by left|].
        apply Hh in Hs as [_ ?]. congruence.
    + intros i Hi Hr. apply Hh' in Hi as [<- _].
      left. exists (j_config j), c. apply elem_of_cons; by left.
    + rewrite advance_each. destruct c as [v|e]; simpl.
      * intros He. congruence.
      * intros He. exists (j_config j), (j_index j), e.
        split; [apply elem_of_cons; by left | done].
    + intros c' Hi. older.
      destruct (Hany _ Hi) as [?|[Hs|Hs]]; [rewrite H in *; by left|..];
        apply Hh in Hs as [? ?]; [|congruence].
      right. right. by apply Hh'.
    + intros Hi Hr. destruct Hanyd as [c' Hc']; [|done|exists c'; newer].
      left. apply Hh. destruct Hi as [Hi|Hi]; apply Hh' in Hi as [? ?]; done.
  - (* exec *)
    pose proof (λ i st', head_at_here x n tr _ _ i st' H) as Hh.
    pose proof (Hhead _ _ H) as Hk.
    assert (Hno : ∀ n' tr' i st, st ≠ StCatch →
      ¬ head_at (St (responded c x) n' tr') i st).
    { intros n' tr' i st Hst (j' & rest' & Hj' & _ & Hst'). simpl in Hj'.
      rewrite H in *. simpl in *. subst rest. inversion Htail; subst. congruence. }
    rewrite H in *. simpl in *.
    constructor; unfold next_index; simpl; rewrite ?H; simpl.
    + intros config i c' Hi. older. left.
      destruct (Hat _ _ _ Hi) as [?|Hs]; [lia|].
      apply Hh in Hs as [? ?]. lia.
    + intros i Hi. by apply Hno in Hi.
    + unfold responded. simpl. subst c. destruct (response_completion _); simpl.
      * intros He. destruct (Herr He) as (config' & i & e & ? & ?).
        exists config', i, e. split; [newer | done].
      * destruct (is_set (_errorFromResponse x)); simpl; intros He;
          destruct (Herr He) as (config' & i & e' & ? & ?);
          exists config', i, e'; (split; [newer | done]).
    + intros c' Hi. left. lia.
    + intros [Hi|Hi]; by apply Hno in Hi.
  - (* guard *)
    assert (Hh : ∀ n' tr' i st,
      head_at (St (caught set_errorFromBeforeEachNav c x) n' tr') i st
      ↔ head_at (St x n tr) i st).
    { intros. unfold head_at. simpl. by rewrite chain_caught_nav. }
    constructor; unfold next_index; simpl; rewrite ?chain_caught_nav.
    + intros config i c' Hi. older.
      destruct (Hat _ _ _ Hi) as [?|?]; [by left|right]. by apply Hh.
    + intros i Hi Hr. apply each_hook_ran_older, Hdone; [|done]. by apply Hh in Hi.
    + replace (_errorFromBeforeEachResponse (caught set_errorFromBeforeEachNav c x))
        with (_errorFromBeforeEachResponse x) by (by destruct c).
      intros He. destruct (Herr He) as (config' & i & e & ? & ?).
      exists config', i, e. split; [newer | done].
    + intros c' Hi. older.
      destruct (Hany _ Hi) as [?|[?|?]]; [by left|right; left|right; right];
        by apply Hh.
    + intros Hi Hr. destruct Hanyd as [c' Hc']; [|done|exists c'; newer].
      destruct Hi as [Hi|Hi]; [left|right]; by apply Hh in Hi.
  - (* the first handler *)
    destruct (Hu H) as (Hq & Hch & Hcount & Hprog).
    constructor; unfold next_index; simpl.
    + intros config i c Hi. by destruct (quiet_absurd _ _ Hq Hi).
    + intros i Hi. by apply head_at_none in Hi.
    + done.
    + intros c Hi. by destruct (quiet_absurd _ _ Hq Hi).
    + intros [Hi|Hi]; by apply head_at_none in Hi.
  - (* the first handler, failing *)
    by constructor.
  - (* a later handler *)
    by constructor.
Qed.

Lemma errors_accepted count config x :
  _errorFromBeforeEachNav (accepted resps count config x) = _errorFromBeforeEachNav x
  ∧ _errorFromBeforeAnyResponse (accepted resps count config x)
    = _errorFromBeforeAnyResponse x
  ∧ _errorFromBeforeEachResponse (accepted resps count config x)
    = _errorFromBeforeEachResponse x
  ∧ _errorFromResponse (accepted resps count config x) = _errorFromResponse x.
Proof. unfold accepted. by destruct (_ =? _)%Z. Qed.

Lemma errors_advance st x :
  _errorFromBeforeEachNav (advance st x) = _errorFromBeforeEachNav x
  ∧ _errorFromBeforeAnyResponse (advance st x) = _errorFromBeforeAnyResponse x
  ∧ _errorFromBeforeEachResponse (advance st x) = _errorFromBeforeEachResponse x
  ∧ _errorFromResponse (advance st x) = _errorFromResponse x.
Proof. unfold advance. by destruct (_responsesPromise x). Qed.

Ltac errors_same E :=
  let E1 := fresh in
  let E2 := fresh in
  let E3 := fresh in
  let E4 := fresh in
  destruct E as (E1 & E2 & E3 & E4); rewrite ?E1, ?E2, ?E3, ?E4.

Lemma errors_inv_step a a' :
  Astep a a' → chain_inv s resps a → hooks_inv s cf a →
  errors_inv s a → errors_inv s a'.
Proof.
  intros Hstep Hchain Hhooks [Hnav Hany Heach Hresp].
  pose proof (λ j rest, head_index a j rest Hchain) as Hhead.
  destruct Hstep; unfold next_index in *; simpl in *.
  - (* quiet *)
    constructor; simpl; intros; match goal with
      | Hi : _ ∈ _ ++ _ |- _ => apply (quiet_older _ _ _ _ H) in Hi; [|done]
      end; eauto.
  - (* accept *)
    pose proof (errors_accepted (r_count n) request0 x) as E.
    constructor; cbn [a_ctx a_run a_trace]; errors_same E; intros; older; eauto.
  - (* surplus *)
    constructor; simpl; intros; older; eauto.
  - (* catch *)
    pose proof (errors_advance StAny x) as E.
    constructor; cbn [a_ctx a_run a_trace]; errors_same E; intros; eauto.
  - (* any, not run *)
    pose proof (errors_advance StEach x) as E.
    constructor; cbn [a_ctx a_run a_trace]; errors_same E; intros; eauto.
  - (* any, run *)
    pose proof (errors_advance StEach (caught set_errorFromBeforeAnyResponse c x)) as E.
    constructor; cbn [a_ctx a_run a_trace]; errors_same E.
    + destruct c; simpl; intros; older; eauto.
    + intros e Hi He. apply elem_of_cons in Hi as [Hi|Hi].
      * by simplify_eq.
      * exfalso. destruct (hi_any_at _ _ _ Hhooks _ Hi) as [Hk|[Hs|Hs]].
        -- unfold next_index in Hk. simpl in Hk. specialize (Hhead _ _ H). lia.
        -- apply (head_at_here x n tr _ _ _ _ H) in Hs as [_ ?]. congruence.
        -- apply (head_at_here x n tr _ _ _ _ H) in Hs as [_ ?]. congruence.
    + destruct c; simpl; intros; older; eauto.
    + destruct c; simpl; intros; older; eauto.
  - (* each, not run *)
    pose proof (errors_advance StExec x) as E.
    constructor; cbn [a_ctx a_run a_trace]; errors_same E; intros; eauto.
  - (* each, run *)
    pose proof (errors_advance StExec (caught set_errorFromBeforeEachResponse c x)) as E.
    constructor; cbn [a_ctx a_run a_trace]; errors_same E.
    + destruct c; simpl; intros; older; eauto.
    + destruct c; simpl; intros; older; eauto.
    + intros config i e Hi He. apply elem_of_cons in Hi as [Hi|Hi].
      * by simplify_eq.
      * specialize (Heach _ _ _ Hi He). congruence.
    + destruct c; simpl; intros; older; eauto.
  - (* exec *)
    constructor; simpl.
    + unfold responded. destruct c; [|destruct (is_set (_errorFromResponse x))];
        simpl; intros; older; eauto.
    + unfold responded. destruct c; [|destruct (is_set (_errorFromResponse x))];
        simpl; intros; older; eauto.
    + unfold responded. destruct c; [|destruct (is_set (_errorFromResponse x))];
        simpl; intros; older; eauto.
    + intros i e Hi He. unfold responded. older.
      * injection Hi as -> Hc. rewrite <- Hc.
        destruct (is_set (_errorFromResponse x)) eqn:E; simpl; done.
      * specialize (Hresp _ _ Hi He). destruct c; simpl; [done|].
        by rewrite Hresp.
  - (* guard *)
    constructor; simpl.
    + intros to' from' e Hi He. apply elem_of_cons in Hi as [Hi|Hi].
      * by simplify_eq.
      * specialize (Hnav _ _ _ Hi He). congruence.
    + destruct c; simpl; intros; older; eauto.
    + destruct c; simpl; intros; older; eauto.
    + destruct c; simpl; intros; older; eauto.
  - (* the first handler *)
    destruct (ci_unborn _ _ _ Hchain H) as (Hq & _).
    constructor; simpl; intros;
      match goal with H : _ ∈ tr |- _ => by destruct (quiet_absurd _ _ Hq H) end.
  - by constructor.
  - by constructor.
Qed.

Lemma count_cons (f : event → bool) e tr :
  length (filter (λ e, f e = true) (e :: tr))
  = (if f e then 1 else 0) + length (filter (λ e, f e = true) tr).
Proof.
  rewrite filter_cons. destruct (decide (f e = true)) as [->|Hf]; [done|].
  by apply not_true_is_false in Hf as ->.
Qed.

Lemma count_quiet (f : event → bool) l tr :
  (∀ e, f e = true → ev_series e = s) →
  quiet s l →
  length (filter (λ e, f e = true) (l ++ tr)) = length (filter (λ e, f e = true) tr).
Proof.
  intros Hf Hq. induction Hq as [|e l He Hq IH]; [done|].
  simpl. rewrite count_cons, IH.
  destruct (f e) eqn:E; [|done]. by apply Hf in E.
Qed.

Lemma accept_series e : is_accept s e = true → ev_series e = s.
Proof. destruct e; try done. simpl. by intros ->%Nat.eqb_eq. Qed.

Lemma surplus_series e : is_surplus s e = true → ev_series e = s.
Proof. destruct e; try done. simpl. by intros ->%Nat.eqb_eq. Qed.

Lemma request_series e : is_request s e = true → ev_series e = s.
Proof. destruct e; try done; simpl; by intros ->%Nat.eqb_eq. Qed.

Lemma count_none (f : event → bool) tr :
  (∀ e, f e = true → ev_series e = s) →
  quiet s tr → length (filter (λ e, f e = true) tr) = 0.
Proof.
  intros Hf Hq. rewrite <- (app_nil_r tr). by rewrite (count_quiet f tr []).
Qed.


Lemma flags_accepted count config x :
  _requestWithoutResponse (accepted resps count config x) = _requestWithoutResponse x
  ∧ _responseWithoutRequest (accepted resps count config x)
    = (if (Z.of_nat count =? Z.of_nat (length resps) - 1)%Z then false
       else _responseWithoutRequest x).
Proof. unfold accepted. by destruct (_ =? _)%Z. Qed.

Lemma flags_advance st x :
  _requestWithoutResponse (advance st x) = _requestWithoutResponse x
  ∧ _responseWithoutRequest (advance st x) = _responseWithoutRequest x.
Proof. unfold advance. by destruct (_responsesPromise x). Qed.

Lemma flags_caught set c x :
  (∀ e y, _requestWithoutResponse (set e y) = _requestWithoutResponse y
          ∧ _responseWithoutRequest (set e y) = _responseWithoutRequest y) →
  _requestWithoutResponse (caught set c x) = _requestWithoutResponse x
  ∧ _responseWithoutRequest (caught set c x) = _responseWithoutRequest x.
Proof. intros H. destruct c; [done|]. apply H. Qed.

Lemma flags_responded c x :
  _requestWithoutResponse (responded c x) = _requestWithoutResponse x
  ∧ _responseWithoutRequest (responded c x) = _responseWithoutRequest x.
Proof.
  unfold responded. destruct c; [done|]. by destruct (is_set _).
Qed.

Lemma flags_ok_same x n tr x' n' tr' :
  r_count n' = r_count n →
  _requestWithoutResponse x' = _requestWithoutResponse x →
  _responseWithoutRequest x' = _responseWithoutRequest x →
  accepted_count s tr' = accepted_count s tr →
  surplus_count s tr' = surplus_count s tr →
  flags_ok s resps (St x n tr) → flags_ok s resps (St x' n' tr').
Proof.
  unfold flags_ok. simpl. intros -> -> -> -> ->. done.
Qed.

Lemma flags_inv_same x n tr x' n' tr' :
  r_count n' = r_count n → r_pc n' = r_pc n → r_settled n' = r_settled n →
  _requestWithoutResponse x' = _requestWithoutResponse x →
  _responseWithoutRequest x' = _responseWithoutRequest x →
  accepted_count s tr' = accepted_count s tr →
  surplus_count s tr' = surplus_count s tr →
  flags_inv s resps (St x n tr) → flags_inv s resps (St x' n' tr').
Proof.
  unfold flags_inv. simpl. intros ? -> -> ? ? ? ? [?|[?|?]]; [by left|by right; left|].
  right. right. by eapply flags_ok_same.
Qed.

Lemma flags_inv_step a a' :
  Astep a a' → chain_inv s resps a → flags_inv s resps a → flags_inv s resps a'.
Proof.
  intros Hstep Hchain Hflags.
  destruct Hstep.
  - apply (flags_inv_same x n tr); try done.
    + by apply (count_quiet (is_accept s)); [apply accept_series|].
    + by apply (count_quiet (is_surplus s)); [apply surplus_series|].
  - (* accept *)
    destruct Hflags as [?|[?|Hok]]; [done|by right; left|].
    right. right. destruct Hok as (Hc & Hle & Hrw & Hwr & Hs).
    cbn [a_ctx a_run a_trace] in *.
    destruct (flags_accepted (r_count n) request0 x) as [E1 E2].
    unfold flags_ok, accepted_count, surplus_count in *.
    cbn [a_ctx a_run a_trace r_count set_r_count].
    rewrite E1, E2, !count_cons. simpl. rewrite Nat.eqb_refl.
    split_and!; try lia; try done.
    destruct (Z.eqb_spec (Z.of_nat (r_count n)) (Z.of_nat (length resps) - 1)).
    + symmetry. apply Nat.ltb_ge. lia.
    + rewrite Hrw. destruct (Nat.ltb_spec (r_count n) (length resps));
        symmetry; [apply Nat.ltb_lt | apply Nat.ltb_ge]; lia.
  - (* surplus *)
    destruct Hflags as [?|[?|Hok]]; [done|by right; left|].
    right. right. destruct Hok as (Hc & Hle & Hrw & Hwr & Hs). simpl in *.
    unfold flags_ok, accepted_count, surplus_count in *. simpl.
    rewrite !count_cons. simpl. rewrite Nat.eqb_refl.
    split_and!; try lia; try done.
  - destruct (flags_advance StAny x). by apply (flags_inv_same x n tr).
  - destruct (flags_advance StEach x). by apply (flags_inv_same x n tr).
  - destruct (flags_advance StEach (caught set_errorFromBeforeAnyResponse c x)).
    destruct (flags_caught set_errorFromBeforeAnyResponse c x); [done|].
    apply (flags_inv_same x n tr); try done; try congruence;
      unfold accepted_count, surplus_count; by rewrite ?count_cons.
  - destruct (flags_advance StExec x). by apply (flags_inv_same x n tr).
  - destruct (flags_advance StExec (caught set_errorFromBeforeEachResponse c x)).
    destruct (flags_caught set_errorFromBeforeEachResponse c x); [done|].
    apply (flags_inv_same x n tr); try done; try congruence;
      unfold accepted_count, surplus_count; by rewrite ?count_cons.
  - destruct (flags_responded c x).
    apply (flags_inv_same x n tr); try done;
      unfold accepted_count, surplus_count; by rewrite ?count_cons.
  - destruct (flags_caught set_errorFromBeforeEachNav c x); [done|].
    apply (flags_inv_same x n tr); try done;
      unfold accepted_count, surplus_count; by rewrite ?count_cons.
  - (* the first handler *)
    destruct (ci_unborn _ _ _ Hchain H) as (Hq & _). simpl in Hq.
    right. right. unfold flags_ok, accepted_count, surplus_count. simpl.
    rewrite (count_none (is_accept s)), (count_none (is_surplus s));
      try done; [|apply surplus_series|apply accept_series].
    split_and!; try done; try lia.
    destruct (length resps); done.
  - right. by left.
  - destruct Hflags as [?|[?|Hok]]; [done|right; left; simpl in *; auto|].
    right. right. by apply (flags_ok_same x n tr).
Qed.

Lemma history_quiet l tr :
  quiet s l → history_inv s cf resps tr → history_inv s cf resps (l ++ tr).
Proof.
  intros Hq [H1 H2 H3 H4 H5].
  constructor; (apply (each_event_quiet _ s); [|done..]);
    intros e before He; intros ? **; subst; by destruct He.
Qed.

(** An event that is not a settled response and not a run of the
    beforeAnyResponse hook adds nothing to prove. *)
Lemma history_plain e tr :
  (∀ i o, e ≠ EvSettle s i o) → (∀ c, e ≠ EvBeforeAny s c) →
  history_inv s cf resps tr → history_inv s cf resps (e :: tr).
Proof.
  intros Hs Ha [H1 H2 H3 H4 H5].
  constructor; (apply each_event_cons; split; [|done]).
  - intros i o ->. by destruct (Hs (S i) o).
  - intros i o ->. by destruct (Hs i o).
  - intros o ->. by destruct (Hs 0 o).
  - intros c ->. by destruct (Ha c).
  - intros i o ->. by destruct (Hs i o).
Qed.

Lemma history_inv_step a a' :
  Astep a a' → chain_inv s resps a → hooks_inv s cf a →
  history_inv s cf resps (a_trace a) → history_inv s cf resps (a_trace a').
Proof.
  intros Hstep Hchain Hhooks Hhist.
  pose proof (λ j rest, head_index a j rest Hchain) as Hhead.
  destruct Hstep; cbn [a_ctx a_run a_trace] in *; try done.
  - by apply history_quiet.
  - by apply history_plain.
  - by apply history_plain.
  - (* any, run *)
    destruct Hhist as [H1' H2' H3' H4' H5'].
    constructor; (apply each_event_cons; split; [|done]); try (by intros ? **).
    intros c' _. specialize (Hhead _ _ H). unfold next_index in Hhead. simpl in Hhead.
    split.
    + intros i o Hi. apply (ci_settled_lt _ _ _ Hchain) in Hi.
      unfold next_index in Hi. simpl in Hi. lia.
    + intros c'' Hi. destruct (hi_any_at _ _ _ Hhooks _ Hi) as [Hk|[Hs|Hs]].
      * unfold next_index in Hk. simpl in Hk. lia.
      * apply (head_at_here x n tr _ _ _ _ H) in Hs as [_ ?]. congruence.
      * apply (head_at_here x n tr _ _ _ _ H) in Hs as [_ ?]. congruence.
  - by apply history_plain.
  - (* exec *)
    pose proof (Hhead _ _ H) as Hk. unfold next_index in Hk. simpl in Hk.
    assert (Hat : head_at (St x n tr) (j_index j) StExec).
    { by apply (head_at_here x n tr _ _ _ _ H). }
    assert (Hhist' : history_inv s cf resps (EvResponse s (j_index j) c :: tr))
      by (by apply history_plain).
    destruct Hhist' as [H1' H2' H3' H4' H5'].
    constructor; (apply each_event_cons; split; [|done]).
    + intros i o [= Hi _]. destruct (ci_settled_all _ _ _ Hchain i) as [o' Ho'].
      { unfold next_index. simpl. lia. }
      exists o'. by apply elem_of_cons; right.
    + intros i o [= <- _] Hr. by apply each_hook_ran_older, (hi_each_done _ _ _ Hhooks).
    + intros o [= Hi _] Hr.
      destruct (hi_any_done _ _ _ Hhooks) as [c' Hc']; [|done|].
      * right. by rewrite Hi in Hat.
      * exists c'. by apply elem_of_cons; right.
    + by intros ? **.
    + intros i o [= <- <-].
      pose proof (ci_jobs _ _ _ Hchain) as Hjobs. simpl in Hjobs. rewrite H in Hjobs.
      inversion Hjobs as [|? ? [Hcb Hreq]]; subst.
      exists (j_config j), c, tr. split_and!; try done.
      subst c. by rewrite Hcb.
  - by apply history_plain.
Qed.

Ltac still :=
  let Hset := fresh in
  intros Hset;
  match goal with
  | H : _ → ∃ _, _ |- _ =>
      let H' := fresh in
      first [pose proof (H Hset) as H' | pose proof (H eq_refl) as H']; clear - H';
      repeat match type of H' with ∃ _, _ => destruct H' as [? H'] end;
      destruct H' as [H' ?]; repeat eexists; [|eassumption];
      first [ eassumption | apply elem_of_app; right; eassumption
            | repeat (apply elem_of_cons; right); eassumption ]
  end.

Lemma sources_inv_step a a' :
  Astep a a' → sources_inv s a → sources_inv s a'.
Proof.
  intros Hstep [Hnav Hany Hresp].
  destruct Hstep; simpl in *.
  - constructor; simpl; still.
  - match goal with
    | |- context [accepted _ ?count ?rq ?y] =>
        pose proof (errors_accepted count rq y) as E
    end.
    constructor; cbn [a_ctx a_run a_trace]; errors_same E; still.
  - constructor; simpl; still.
  - pose proof (errors_advance StAny x) as E.
    constructor; cbn [a_ctx a_run a_trace]; errors_same E; still.
  - pose proof (errors_advance StEach x) as E.
    constructor; cbn [a_ctx a_run a_trace]; errors_same E; still.
  - pose proof (errors_advance StEach (caught set_errorFromBeforeAnyResponse c x)) as E.
    constructor; cbn [a_ctx a_run a_trace]; errors_same E.
    + destruct c; simpl; still.
    + destruct c as [v|e]; simpl; [still|].
      intros He. exists e. split; [by left | done].
    + destruct c; simpl; still.
  - pose proof (errors_advance StExec x) as E.
    constructor; cbn [a_ctx a_run a_trace]; errors_same E; still.
  - pose proof (errors_advance StExec (caught set_errorFromBeforeEachResponse c x)) as E.
    constructor; cbn [a_ctx a_run a_trace]; errors_same E;
      destruct c; simpl; still.
  - constructor; simpl.
    + unfold responded. destruct c; [|destruct (is_set (_errorFromResponse x))];
        simpl; still.
    + unfold responded. destruct c; [|destruct (is_set (_errorFromResponse x))];
        simpl; still.
    + unfold responded. subst c.
      destruct (response_completion (j_callback j)) as [v|e]; simpl; [still|].
      destruct (is_set (_errorFromResponse x)) eqn:E; simpl; [still|].
      intros He. exists (j_index j), e. split; [|done].
      apply elem_of_cons; right. by left.
  - constructor; simpl.
    + destruct c as [v|e]; simpl; [still|].
      intros He. exists to, from, e. split; [by left | done].
    + destruct c; simpl; still.
    + destruct c; simpl; still.
  - constructor; simpl; intros; done.
  - by constructor.
  - by constructor.
Qed.

Lemma series_inv_step a a' :
  Astep a a' → series_inv s cf resps a → series_inv s cf resps a'.
Proof.
  intros Hstep [Hc Hh He Hso Hf Hy]. constructor.
  - by eapply chain_inv_step.
  - by eapply hooks_inv_step.
  - by eapply errors_inv_step.
  - by eapply sources_inv_step.
  - by eapply flags_inv_step.
  - by eapply history_inv_step.
Qed.

Lemma series_inv_steps a a' :
  rtc Astep a a' → series_inv s cf resps a → series_inv s cf resps a'.
Proof. induction 1; eauto using series_inv_step. Qed.

Lemma series_inv_start n tr :
  r_pc n = PInit → r_count n = 0 → quiet s tr →
  series_inv s cf resps (St undefined_context n tr).
Proof.
  intros Hpc Hcount Hq.
  assert (Hch : _responsesPromise undefined_context = []) by done.
  assert (Hno : ∀ e, e ∈ tr → ev_series e = s → False).
  { intros e. by apply quiet_absurd. }
  constructor.
  - constructor; unfold next_index; simpl; rewrite ?Hch, ?Hcount; simpl; try done.
    + intros i o Hi. by destruct (Hno _ Hi).
    + intros i Hi. lia.
    + intros i c Hi. by destruct (Hno _ Hi).
  - constructor; simpl.
    + intros config i c Hi. by destruct (Hno _ Hi).
    + intros i Hi. by apply head_at_none in Hi.
    + intros He. done.
    + intros c Hi. by destruct (Hno _ Hi).
    + intros [Hi|Hi]; by apply head_at_none in Hi.
  - constructor; simpl; intros;
      match goal with H : _ ∈ tr |- _ => by destruct (Hno _ H) end.
  - constructor; simpl; intros; done.
  - by left.
  - simpl. rewrite <- (app_nil_r tr).
    apply history_quiet; [done|].
    constructor; apply each_event_nil.
Qed.
End invariants.

(** ** The closing handlers of a run *)

Section tail.
Context (r : nat).

Lemma lookup_upd_run w f n :
  runs w !! r = Some n → runs (upd_run r f w) !! r = Some (f n).
Proof. intros H. unfold upd_run. simpl. by rewrite lookup_alter_eq, H. Qed.

Lemma lookup_perform b w n :
  runs w !! r = Some n →
  ∃ n', runs (perform b w).1 !! r = Some n' ∧ same_position n n'.
Proof.
  intros H. destruct (perform_calm b w) as (_&_&_&_&_&Hr).
  specialize (Hr r). rewrite H in Hr. inversion Hr; subst. eauto.
Qed.

Lemma closing_step w n o :
  runs w !! r = Some n → heap w !! r_self n = Some o →
  r_pc n = PVerify ∨ closing (r_pc n) →
  ∃ n', runs (main_step r w) !! r = Some n'
        ∧ r_self n' = r_self n ∧ r_callback n' = r_callback n
        ∧ r_pc n' = next_pc (r_pc n)
        ∧ r_settled n' = settles_next n (ctx o).
Proof.
  intros Hn Ho Hpc. unfold main_step, settles_next. rewrite Hn.
  destruct Hpc as [Hpc|[Hpc|[Hpc|[Hpc|Hpc]]]]; rewrite Hpc; simpl.
  - unfold goto, then_, verify_handler. destruct (r_settled n) as [v|e] eqn:Hv.
    + rewrite Ho. eexists. split.
      { apply lookup_upd_run, lookup_upd_run, Hn. }
      done.
    + eexists. split; [apply lookup_upd_run, Hn|]. by rewrite ?Hpc, ?Hv.
  - unfold goto, then_, callback_handler. destruct (r_settled n) as [v|e] eqn:Hv.
    + rewrite Ho. destruct (r_callback n) as [cb|] eqn:Hcb.
      * rewrite perform_pair.
        destruct (lookup_perform (cb (_component (ctx o))) w n Hn) as (n1 & Hn1 & (?&?&?&?&?)).
        eexists. split; [apply lookup_upd_run, lookup_upd_run, Hn1|].
        simpl. split_and!; congruence.
      * eexists. split; [apply lookup_upd_run, lookup_upd_run, Hn|].
        simpl. by rewrite ?Hcb.
    + eexists. split; [apply lookup_upd_run, Hn|]. by rewrite ?Hv.
  - unfold goto, then_, wrap_handler. destruct (r_settled n) as [v|e] eqn:Hv.
    + rewrite Ho. eexists. split; [apply lookup_upd_run, lookup_upd_run, Hn|]. done.
    + eexists. split; [apply lookup_upd_run, Hn|]. by rewrite ?Hv.
  - unfold goto, finally_, _cleanUpAfterResponses. simpl.
    eexists. split; [apply lookup_upd_run|].
    { unfold upd_ctx. simpl. exact Hn. }
    simpl. by destruct (r_settled n).
  - exists n. rewrite Hpc. split_and!; try done. by destruct (r_settled n).
Qed.
End tail.


Section closing.
Context (r s : nat) (cf : config) (resps : list response_callback).

Lemma mains_cons act sched :
  mains r (act :: sched) = (if is_main r act then 1 else 0) + mains r sched.
Proof.
  unfold mains. rewrite filter_cons.
  destruct (decide (is_main r act = true)) as [Hm|Hm]; [by rewrite Hm|].
  by destruct (is_main r act).
Qed.

Lemma is_main_spec act : is_main r act = true ↔ act = Main r.
Proof.
  destruct act; simpl; try (split; [done | discriminate]).
  rewrite Nat.eqb_eq. split; congruence.
Qed.

Lemma step_position w a act n :
  coupled r s cf resps w a → is_main r act = false → runs w !! r = Some n →
  ∃ n', runs (step w act) !! r = Some n' ∧ same_position n n'.
Proof.
  intros [Hs Hu] Hact Hn.
  assert (Hcalm : calm w (step w act) →
            ∃ n', runs (step w act) !! r = Some n' ∧ same_position n n').
  { intros (_&_&_&_&_&Hr). specialize (Hr r). rewrite Hn in Hr.
    inversion Hr; subst. eauto. }
  destruct act as [r'|s'|config|to from]; try (apply Hcalm, step_calm; done).
  simpl in Hact. apply Nat.eqb_neq in Hact.
  destruct (main_step_other r s cf resps r' w a Hact Hs Hu) as (a' & _ & Hs' & Ho).
  destruct Hs as (_ & Hn0 & _). destruct Hs' as (_ & Hn' & _).
  exists (a_run a'). split; [done|].
  assert (a_run a = n) as <- by congruence.
  by destruct Ho as (_&_&_&_&_&_&_&_&?).
Qed.

Lemma closing_next p : closing p → closing (next_pc p).
Proof. unfold closing. intros [-> | [-> | [-> | ->]]]; simpl; auto. Qed.

Lemma closing_left p : closing p → handlers_left (next_pc p) = handlers_left p - 1.
Proof. unfold closing. by intros [-> | [-> | [-> | ->]]]. Qed.

(** A property of the run that the closing handlers keep holds from then on,
    whatever else is scheduled between them. *)
Lemma closing_exec (P : run → Prop) :
  (∀ n n', same_position n n' → P n → P n') →
  (∀ n n' x, closing (r_pc n) → r_callback n' = r_callback n →
     r_pc n' = next_pc (r_pc n) → r_settled n' = settles_next n x → P n → P n') →
  ∀ sched w a n,
    coupled r s cf resps w a → runs w !! r = Some n → closing (r_pc n) → P n →
    ∃ n2, runs (exec sched w) !! r = Some n2 ∧ closing (r_pc n2) ∧ P n2
          ∧ handlers_left (r_pc n2) = handlers_left (r_pc n) - mains r sched.
Proof.
  intros Henv Hown. induction sched as [|act sched IH]; intros w a n Hc Hn Hpc HP.
  - exists n. split_and!; try done. unfold mains. simpl. lia.
  - simpl. destruct (step_coupled r s cf resps w a act Hc) as (a1 & _ & Hc1).
    rewrite mains_cons.
    destruct (is_main r act) eqn:Hact.
    + apply is_main_spec in Hact as ->.
      pose proof Hc as [(Ho & Hn0 & _ & Hself & _) _].
      assert (a_run a = n) as E by congruence. rewrite E in Hself.
      destruct (closing_step r w n _ Hn ltac:(by rewrite Hself) (or_intror Hpc))
        as (n1 & Hn1 & _ & Hcb & Hp1 & Hs1).
      destruct (IH _ a1 n1 Hc1 Hn1) as (n2 & Hn2 & Hp2 & HP2 & Hleft).
      * rewrite Hp1. by apply closing_next.
      * by eapply Hown.
      * exists n2. split_and!; try done. rewrite Hleft, Hp1, closing_left by done. lia.
    + destruct (step_position w a act n Hc Hact Hn) as (n1 & Hn1 & Hpos).
      pose proof Hpos as (_&_&_&Hp1&_).
      destruct (IH _ a1 n1 Hc1 Hn1) as (n2 & Hn2 & Hp2 & HP2 & Hleft).
      * by rewrite Hp1.
      * by eapply Henv.
      * exists n2. split_and!; try done. by rewrite Hleft, Hp1.
Qed.

Lemma rejected_stays e sched w a n :
  coupled r s cf resps w a → runs w !! r = Some n → closing (r_pc n) →
  r_settled n = Rejected e →
  ∃ n2, runs (exec sched w) !! r = Some n2 ∧ r_settled n2 = Rejected e
        ∧ handlers_left (r_pc n2) = handlers_left (r_pc n) - mains r sched.
Proof.
  intros Hc Hn Hpc Hset.
  destruct (closing_exec (λ n, r_settled n = Rejected e)) with sched w a n
    as (n2 & ? & _ & ? & ?); try done.
  - intros ? ? (_&_&_&_&?) ?. congruence.
  - intros n0 n' x _ _ _ Hs H0. rewrite Hs. unfold settles_next. by rewrite H0.
  - eauto.
Qed.

Lemma fulfilled_stays sched w a n v :
  coupled r s cf resps w a → runs w !! r = Some n → r_pc n = PCallback →
  r_settled n = Fulfilled v → callback_returns n →
  ∃ n2 v', runs (exec sched w) !! r = Some n2 ∧ r_settled n2 = Fulfilled v'
        ∧ handlers_left (r_pc n2) = 3 - mains r sched.
Proof.
  intros Hc Hn Hpc Hset Hcb.
  destruct (closing_exec (λ n, (∃ v, r_settled n = Fulfilled v)
                               ∧ (r_pc n = PCallback → callback_returns n)))
    with sched w a n as (n2 & ? & _ & [[v' ?] _] & Hleft); try done.
  - intros n0 n' (_&E1&_&E2&E3) [[v0 H0] H1]. split; [exists v0; congruence|].
    intros Hp. rewrite E2 in Hp. destruct (H1 Hp) as (cb & ? & ?).
    exists cb. split; [congruence | done].
  - intros n0 n' x Hcl E1 E2 E3 [[v0 H0] H1]. split.
    + rewrite E3. unfold settles_next. rewrite H0.
      destruct Hcl as [Hp|[Hp|[Hp|Hp]]]; rewrite Hp; eauto.
      destruct (H1 Hp) as (cb & -> & Hret).
      destruct (Hret (_component x)) as [v1 ->]. by exists v1.
    + intros Hp. rewrite E2 in Hp.
      destruct Hcl as [Hq|[Hq|[Hq|Hq]]]; rewrite Hq in Hp; done.
  - unfold closing. auto.
  - split; [eauto | done].
  - rewrite Hpc in Hleft. eauto.
Qed.
End closing.


(** ** The check of the state *)

Section verify.
Context (r s : nat) (cf : config) (resps : list response_callback).

Lemma unstarted_coupled w :
  unstarted r s cf resps w →
  ∃ a, coupled r s cf resps w a ∧ series_inv s cf resps a.
Proof.
  intros (n & Ho & Hn & Hself & Hpc & Hcount & Hresps & Huniq & Hq & Hd).
  exists {| a_ctx := undefined_context; a_run := n; a_trace := trace w |}.
  split.
  - split; [by split_and! | by intros ? ? ?].
  - by apply series_inv_start.
Qed.

(** Every world that a schedule reaches shows the series in a state that
    satisfies the invariants. *)
Lemma reachable_inv w0 sched :
  unstarted r s cf resps w0 →
  ∃ a, coupled r s cf resps (exec sched w0) a ∧ series_inv s cf resps a.
Proof.
  intros Hu. destruct (unstarted_coupled _ Hu) as (a & Hc & Hi).
  destruct (exec_coupled r s cf resps sched w0 a Hc) as (a' & Hr & Hc').
  exists a'. split; [done|]. by eapply series_inv_steps.
Qed.

Lemma handlers_left_done p : handlers_left p = 0 → p = PDone.
Proof. by destruct p. Qed.

Lemma stored_nav a :
  series_inv s cf resps a →
  is_set (_errorFromBeforeEachNav (a_ctx a)) = true ↔ nav_threw s (a_trace a).
Proof.
  intros Hi. split.
  - apply (so_nav _ _ (si_sources _ _ _ _ Hi)).
  - intros (to & from & e & ? & ?). by eapply (ei_nav _ _ (si_errors _ _ _ _ Hi)).
Qed.

Lemma stored_any a :
  series_inv s cf resps a →
  is_set (_errorFromBeforeAnyResponse (a_ctx a)) = true ↔ any_threw s (a_trace a).
Proof.
  intros Hi. split.
  - apply (so_any _ _ (si_sources _ _ _ _ Hi)).
  - intros (e & ? & ?). by eapply (ei_any _ _ (si_errors _ _ _ _ Hi)).
Qed.

Lemma stored_each a :
  series_inv s cf resps a →
  is_set (_errorFromBeforeEachResponse (a_ctx a)) = true ↔ each_threw s (a_trace a).
Proof.
  intros Hi. split.
  - apply (hi_each_err _ _ _ (si_hooks _ _ _ _ Hi)).
  - intros (config & i & e & ? & ?). by eapply (ei_each _ _ (si_errors _ _ _ _ Hi)).
Qed.

Lemma stored_response a :
  series_inv s cf resps a →
  is_set (_errorFromResponse (a_ctx a)) = true ↔ response_threw s (a_trace a).
Proof.
  intros Hi. split.
  - apply (so_response _ _ (si_sources _ _ _ _ Hi)).
  - intros (i & e & ? & ?). by eapply (ei_response _ _ (si_errors _ _ _ _ Hi)).
Qed.

Lemma not_set b (P : Prop) : (b = true ↔ P) → ¬ P → b = false.
Proof. intros [H _] HP. destruct b; [|done]. by destruct HP; apply H. Qed.

(** What the run settles to at the check of the state, and keeps from then
    on unless the completion callback throws. *)
Lemma verify_settles w a n sched :
  coupled r s cf resps w a → runs w !! r = Some n → r_pc n = PVerify →
  ¬ is_rejected (r_settled n) →
  ∃ n2, runs (exec (Main r :: sched) w) !! r = Some n2
    ∧ (3 ≤ mains r sched → r_pc n2 = PDone)
    ∧ (∀ e, _checkStateAfterWait (a_ctx a) = Throw e → r_settled n2 = Rejected e)
    ∧ (∀ v, _checkStateAfterWait (a_ctx a) = Return v → callback_returns n →
         ∃ v', r_settled n2 = Fulfilled v').
Proof.
  intros Hc Hn Hpc Hful.
  pose proof Hc as [(Ho & Hn0 & _ & Hself & _) _].
  assert (a_run a = n) as E by congruence. rewrite E in Hself.
  destruct (closing_step r w n _ Hn ltac:(by rewrite Hself) (or_introl Hpc))
    as (n1 & Hn1 & _ & Hcb & Hp1 & Hs1).
  rewrite Hpc in Hp1. simpl in Hp1, Hs1.
  unfold settles_next in Hs1. rewrite Hpc in Hs1.
  destruct (r_settled n) as [v0|e0] eqn:Hv; [clear Hful | by destruct Hful].
  destruct (step_coupled r s cf resps w a (Main r) Hc) as (a1 & _ & Hc1).
  simpl in Hc1. change (exec (Main r :: sched) w) with (exec sched (main_step r w)).
  destruct (_checkStateAfterWait (a_ctx a)) as [v|e] eqn:Hcheck; simpl in Hs1.
  - destruct (closing_exec r s cf resps (λ _, True)) with sched (main_step r w) a1 n1
      as (n2 & Hn2 & _ & _ & Hleft); try done.
    { rewrite Hp1. unfold closing. auto. }
    exists n2. split_and!; try done.
    + intros Hm. apply handlers_left_done. rewrite Hleft, Hp1. simpl. lia.
    + intros v1 _ Hret.
      destruct (fulfilled_stays r s cf resps sched (main_step r w) a1 n1 v)
        as (n2' & v' & Hn2' & ? & _); try done.
      { destruct Hret as (cb & ? & ?). exists cb. split; [congruence | done]. }
      exists v'. congruence.
  - destruct (rejected_stays r s cf resps e sched (main_step r w) a1 n1)
      as (n2 & Hn2 & Hrej & Hleft); try done.
    { rewrite Hp1. unfold closing. auto. }
    exists n2. split_and!; try done.
    + intros Hm. apply handlers_left_done. rewrite Hleft, Hp1. simpl. lia.
    + intros e' [= <-]. done.
Qed.

End verify.

(** ** The number of requests *)



(** ** The transport *)

Lemma steady_refl w : steady w w.
Proof. split; [done|]. intros s. destruct (heap w !! s); by constructor. Qed.

Lemma steady_trans w1 w2 w3 : steady w1 w2 → steady w2 w3 → steady w1 w3.
Proof.
  intros [? Hh] [? Hh']. split; [congruence|].
  intros s. specialize (Hh s). specialize (Hh' s).
  destruct Hh as [o1 o2 (?&?&?)|]; inversion Hh' as [? o3 (?&?&?)|];
    constructor; repeat split; congruence.
Qed.

Lemma calm_steady w w' : calm w w' → steady w w'.
Proof.
  intros (?&_&_&_&Hh&_). split; [done|].
  intros s. specialize (Hh s). destruct Hh as [o1 o2 (?&?&?&?)|]; by constructor.
Qed.

Lemma steady_same w w' : http w' = http w → heap w' = heap w → steady w w'.
Proof.
  intros ? Hh. split; [done|]. intros s. rewrite Hh.
  destruct (heap w !! s); by constructor.
Qed.

Lemma steady_perform b w : steady w (perform b w).1.
Proof. apply calm_steady, perform_calm. Qed.

Lemma steady_component s v w : steady w (upd_ctx s (set_component v) w).
Proof.
  split; [done|]. intros s'. simpl. destruct (decide (s = s')) as [->|].
  - rewrite lookup_alter_eq. destruct (heap w !! s') as [o|]; by constructor.
  - rewrite lookup_alter_ne by done. destruct (heap w !! s'); by constructor.
Qed.

Lemma steady_then r h n w :
  (∀ v, steady w (h v w).1) → steady w (then_ r h n w).
Proof.
  intros H. unfold then_. destruct (r_settled n) as [v|e]; [|apply steady_refl].
  specialize (H v). destruct (h v w) as [w1 c]. simpl in H.
  eapply steady_trans; [done|]. by apply steady_same.
Qed.

Lemma steady_finally r h w : steady w (h w).1 → steady w (finally_ r h w).
Proof.
  intros H. unfold finally_. destruct (h w) as [w1 c]. simpl in H.
  destruct c; [done|]. eapply steady_trans; [done|]. by apply steady_same.
Qed.

Lemma steady_goto r p w w' : steady w w' → steady w (goto r p w').
Proof. intros H. eapply steady_trans; [done|]. by apply steady_same. Qed.

Lemma steady_run_mount s m w : steady w (run_mount s m w).1.
Proof.
  unfold run_mount. rewrite perform_pair. destruct (completes m); simpl.
  - eapply steady_trans; [apply steady_perform | apply steady_component].
  - apply steady_perform.
Qed.

Lemma steady_navigateAndMount s w : steady w (_navigateAndMount s w).1.
Proof.
  unfold _navigateAndMount, _navigate.
  destruct (heap w !! s) as [o|]; [|apply steady_refl].
  destruct (negb _), (_mount (cfg o)) as [m|]; simpl; try apply steady_refl.
  - pose proof (steady_run_mount s m w) as H.
    destruct (run_mount s m w) as [w1 c]. by destruct c.
  - apply steady_run_mount.
Qed.

Lemma steady_request s w : steady w (request_handler s w).1.
Proof.
  unfold request_handler.
  destruct (heap w !! s) as [o|]; [|apply steady_refl].
  destruct (_request (cfg o)); [|apply steady_refl].
  destruct (_checkStateBeforeRequest o); [apply steady_perform | apply steady_refl].
Qed.

Lemma steady_poll s n w : steady w (poll_handler s n w).1.
Proof.
  unfold poll_handler, waitUntil.
  destruct (r_pollWork n) as [pw|]; [|apply steady_refl].
  destruct (heap w !! s) as [o|]; [|apply steady_refl].
  rewrite perform_pair. destruct (completes _); [|apply steady_perform].
  destruct (truthy v); apply steady_perform.
Qed.

Lemma steady_callback s n w : steady w (callback_handler s n w).1.
Proof.
  unfold callback_handler.
  destruct (r_callback n) as [cb|]; [|apply steady_refl].
  destruct (heap w !! s) as [o|]; [|apply steady_refl].
  apply steady_perform.
Qed.

(** The handlers between the first one and the one that restores, and the
    ones between that one and the last. *)
Lemma main_step_steady r w n :
  runs w !! r = Some n →
  r_pc n ≠ PInit → r_pc n ≠ PRestore → r_pc n ≠ PCleanup →
  steady w (main_step r w).
Proof.
  intros Hn H1 H2 H3. unfold main_step. rewrite Hn.
  destruct (r_pc n); try done.
  - apply steady_goto, steady_then. intros _.
    destruct (heap w !! r_self n) as [o|]; [|apply steady_refl].
    destruct (bool_decide _); [by apply steady_same | apply steady_refl].
  - apply steady_goto, steady_then. intros _. apply steady_navigateAndMount.
  - apply steady_goto, steady_then. intros _. apply steady_refl.
  - apply steady_goto, steady_then. intros _. apply steady_request.
  - apply steady_goto, steady_finally, steady_refl.
  - apply steady_goto, steady_finally, steady_poll.
  - apply steady_goto, steady_then. intros _. unfold verify_handler.
    destruct (heap w !! r_self n); apply steady_refl.
  - apply steady_goto, steady_then. intros _. apply steady_callback.
  - apply steady_goto, steady_then. intros v. unfold wrap_handler.
    destruct (heap w !! r_self n); apply steady_refl.
  - apply steady_refl.
Qed.

Lemma main_step_cleanup r w n :
  runs w !! r = Some n → r_pc n = PCleanup → http (main_step r w) = http w.
Proof. intros Hn Hpc. unfold main_step. by rewrite Hn, Hpc. Qed.

Lemma main_step_restore r w n o :
  runs w !! r = Some n → r_pc n = PRestore → heap w !! r_self n = Some o →
  http (main_step r w) = (if _inProgress (ctx o) then _previousHttp (ctx o) else http w)
  ∧ heap (main_step r w) = heap w.
Proof.
  intros Hn Hpc Ho. unfold main_step. rewrite Hn, Hpc.
  unfold goto, finally_, _restoreHttp. rewrite Ho.
  by destruct (_inProgress (ctx o)).
Qed.

Section solo.
Context (r s : nat) (cf : config) (resps : list response_callback).

Lemma left_next p : handlers_left (next_pc p) = handlers_left p - 1.
Proof. by destruct p. Qed.

Lemma main_step_next w a n :
  coupled r s cf resps w a → runs w !! r = Some n → r_pc n ≠ PInit →
  ∃ n', runs (main_step r w) !! r = Some n' ∧ r_pc n' = next_pc (r_pc n).
Proof.
  intros Hc Hn Hpc.
  destruct (step_coupled r s cf resps w a (Main r) Hc) as (a1 & _ & [(_ & Hn1 & _) _]).
  simpl in Hn1. exists (a_run a1). split; [done|].
  revert Hn1. unfold main_step. rewrite Hn.
  destruct (r_pc n) eqn:E; try done; simpl; try apply goto_pc.
  intros. congruence.
Qed.

Lemma calm_previous_outcome w w' o o' s' :
  calm w w' → heap w !! s' = Some o → heap w' !! s' = Some o' →
  previous_outcome w' o' = previous_outcome w o.
Proof.
  intros (_&_&_&_&Hh&Hr) Ho Ho'. specialize (Hh s'). rewrite Ho, Ho' in Hh.
  inversion Hh as [? ? (Hcfg&_)|]; subst. unfold previous_outcome. rewrite Hcfg.
  destruct (_previousPromise (cfg o)) as [p|]; [|done].
  specialize (Hr p). destruct Hr as [n n' (_&_&_&Hp&Hs)|]; [|done].
  by rewrite Hp, Hs.
Qed.

(** The first handler: it waits for the previous promise, or it moves on and
    either leaves the transport and the fields of the series alone or saves
    the transport in the series. *)
Lemma main_step_first w n o :
  runs w !! r = Some n → r_pc n = PInit → heap w !! r_self n = Some o →
  (previous_outcome w o = None ∧ main_step r w = w)
  ∨ (is_Some (previous_outcome w o)
     ∧ ∃ n' x, runs (main_step r w) !! r = Some n' ∧ r_pc n' = PGuard
         ∧ heap (main_step r w) !! r_self n = Some {| cfg := cfg o; ctx := x |}
         ∧ ((http (main_step r w) = http w ∧ x = ctx o)
            ∨ (_inProgress x = true ∧ _previousHttp x = http w))).
Proof.
  intros Hn Hpc Ho. unfold main_step. rewrite Hn, Hpc, Ho.
  destruct (previous_outcome w o) as [prev|]; [right; split; [done|] | by left].
  unfold goto, then_. simpl. destruct prev as [v|e].
  - unfold _initialPromise. destruct (Js.get v "component") as [component|].
    + simpl. destruct (inProgress w).
      * eexists _, (ctx o). simpl. rewrite !lookup_alter_eq, Hn. simpl.
        split_and!; try done; [by destruct o | by left].
      * rewrite Ho. eexists _, _. simpl. rewrite !lookup_alter_eq, Hn, Ho. simpl.
        split_and!; try reflexivity. by right.
    + eexists _, (ctx o). simpl. rewrite !lookup_alter_eq, Hn. simpl.
      split_and!; try done; [by destruct o | by left].
  - eexists _, (ctx o). simpl. rewrite !lookup_alter_eq, Hn. simpl.
    split_and!; try done; [by destruct o | by left].
Qed.

Lemma solo_step t0 k w a act :
  coupled r s cf resps w a → solo r [act] = true →
  transport_inv t0 w (a_run a) (a_ctx a) →
  ∃ a', coupled r s cf resps (step w act) a'
        ∧ transport_inv t0 (step w act) (a_run a') (a_ctx a')
        ∧ (on_time cf k w a →
           on_time cf (k + if is_main r act then 1 else 0) (step w act) a').
Proof.
  intros Hc Hsolo Hinv.
  destruct (step_coupled r s cf resps w a act Hc) as (a' & _ & Hc').
  exists a'. split; [done|].
  pose proof Hc as [(Ho & Hn & _ & Hself & _) _].
  pose proof Hc' as [(Ho' & Hn' & _ & Hself' & _) _].
  unfold on_time, transport_inv in *.
  destruct (is_main r act) eqn:Hact.
  - apply is_main_spec in Hact as ->. cbn [step] in *.
    rewrite <- Hself in Ho, Ho'.
    destruct (decide (r_pc (a_run a) = PInit)) as [Hpc|Hpc].
    + (* the first handler *)
      rewrite Hpc in *.
      destruct (main_step_first w _ _ Hn Hpc Ho)
        as [[Hprev E]|(Hprev & n1 & x1 & Hn1 & Hp1 & Ho1 & Hcase)].
      * rewrite E in *. assert (a_ctx a' = a_ctx a) as -> by congruence.
        assert (a_run a' = a_run a) as -> by congruence.
        rewrite Hpc. split; [done|].
        intros [_ Hready]. specialize (Hready eq_refl).
        rewrite Hprev in Hready. by destruct Hready.
      * assert (a_run a' = n1) as -> by congruence.
        assert (a_ctx a' = x1) as -> by (simpl in Ho1; congruence).
        rewrite Hp1. destruct Hinv as [Ht Hx]. split.
        -- destruct Hcase as [[Hh ->]|[? ?]]; [right | left]; split;
             simpl in *; congruence.
        -- intros [Hk _]. cbn [handlers_left] in *. split; [lia | done].
    + destruct (main_step_next w a _ Hc Hn Hpc) as (n1 & Hn1 & Hp1).
      assert (a_run a' = n1) as -> by congruence.
      assert (Htime :
        handlers_left (r_pc (a_run a)) = 12 - k
        ∧ (r_pc (a_run a) = PInit →
           is_Some (previous_outcome w {| cfg := cf; ctx := a_ctx a |}))
        → handlers_left (r_pc n1) = 12 - (k + 1)
          ∧ (r_pc n1 = PInit →
             is_Some (previous_outcome (main_step r w)
                        {| cfg := cf; ctx := a_ctx a' |}))).
      { intros [Hk _]. rewrite Hp1, left_next, Hk. split; [lia|].
        by destruct (r_pc (a_run a)). }
      split; [clear Htime | exact Htime].
      destruct (decide (r_pc (a_run a) = PRestore)) as [Hq|Hq];
        [|destruct (decide (r_pc (a_run a) = PCleanup)) as [Hq'|Hq']].
      * (* the handler that restores *)
        destruct (main_step_restore r w _ _ Hn Hq Ho) as [Hh Hheap].
        rewrite Hp1, Hq. rewrite Hq in Hinv. simpl in *.
        rewrite Hh. destruct Hinv as [[-> ?]|[-> ?]]; done.
      * pose proof (main_step_cleanup r w _ Hn Hq') as Hh.
        rewrite Hp1, Hq'. rewrite Hq' in Hinv. simpl. congruence.
      * pose proof (main_step_steady r w _ Hn Hpc Hq Hq') as [Hh Hheap].
        specialize (Hheap (r_self (a_run a))). rewrite Ho, Ho' in Hheap.
        inversion Hheap as [? ? (_ & E1 & E2)|]; subst. simpl in E1, E2.
        rewrite Hp1, E1, E2, Hh.
        destruct (r_pc (a_run a)); simpl; done.
  - assert (Hcalm : calm w (step w act)).
    { apply step_calm. intros r' ->. simpl in *.
      rewrite andb_true_r in Hsolo. congruence. }
    pose proof (calm_previous_outcome _ _ _ _ _ Hcalm Ho Ho') as Hprev.
    destruct Hcalm as (Hh&_&_&_&Hheap&Hruns).
    specialize (Hheap s). rewrite Ho, Ho' in Hheap.
    inversion Hheap as [? ? (_ & E1 & E2 & _)|]; subst. simpl in E1, E2.
    specialize (Hruns r). rewrite Hn, Hn' in Hruns.
    inversion Hruns as [? ? (_&_&_&Hp&_)|]; subst.
    rewrite Hp, Hh, E1, E2, Hprev, Nat.add_0_r.
    done.
Qed.

Lemma solo_cons act sched :
  solo r (act :: sched) = true → solo r [act] = true ∧ solo r sched = true.
Proof. unfold solo. simpl. rewrite andb_true_r. apply andb_prop. Qed.

Lemma solo_exec t0 sched : ∀ k w a,
  coupled r s cf resps w a → solo r sched = true →
  transport_inv t0 w (a_run a) (a_ctx a) →
  ∃ a', coupled r s cf resps (exec sched w) a'
        ∧ transport_inv t0 (exec sched w) (a_run a') (a_ctx a')
        ∧ (on_time cf k w a → on_time cf (k + mains r sched) (exec sched w) a').
Proof.
  induction sched as [|act sched IH]; intros k w a Hc Hsolo Hinv.
  - exists a. split_and!; try done. unfold mains. simpl. by rewrite Nat.add_0_r.
  - apply solo_cons in Hsolo as [H1 H2].
    destruct (solo_step t0 k w a act Hc H1 Hinv) as (a1 & Hc1 & Hinv1 & Ht1).
    destruct (IH (k + if is_main r act then 1 else 0) _ a1 Hc1 H2 Hinv1)
      as (a2 & Hc2 & Hinv2 & Ht2).
    exists a2. split_and!; try done.
    intros Ht. rewrite mains_cons, Nat.add_assoc. auto.
Qed.

End solo.

(** X7. A series executes alone: the schedule runs the handlers of its run,
    of its chain of responses, the requests of the application and the guards
    of the router, in any order, and no handler of another run. Then from the
    handler that restores the transport on, and so when the run is done,
    whether its promise is fulfilled or rejected, [Vue.prototype.$http] is
    what it was before the series started. The run is done once twelve of its
    handlers were scheduled, if the promise it follows had settled. *)
Theorem transport_restored (r s : nat) (cf : config)
    (resps : list response_callback) (w0 : world) (sched : list action) :
  unstarted r s cf resps w0 → solo r sched = true →
  ∃ n, runs (exec sched w0) !! r = Some n
       ∧ (handlers_left (r_pc n) ≤ 4 → http (exec sched w0) = http w0)
       ∧ (is_Some (previous_outcome w0 {| cfg := cf; ctx := undefined_context |}) →
          12 ≤ mains r sched → r_pc n = PDone).
Proof.
  intros Hu Hsolo.
  pose proof Hu as (n0 & Ho0 & Hn0 & Hself0 & Hpc0 & _).
  assert (Hc : coupled r s cf resps w0
                 {| a_ctx := undefined_context; a_run := n0; a_trace := trace w0 |}).
  { destruct Hu as (n & ? & ? & ? & ? & ? & ? & ? & ? & ?).
    assert (n = n0) as -> by congruence.
    split; [by split_and! | by intros ? ? ?]. }
  destruct (solo_exec r s cf resps (http w0) sched 0 w0 _ Hc Hsolo)
    as (a & [Hs _] & Hinv & Htime).
  { unfold transport_inv. simpl. by rewrite Hpc0. }
  destruct Hs as (_ & Hn & _). exists (a_run a). split_and!; [done| |].
  - intros Hleft. unfold transport_inv in Hinv.
    destruct (r_pc (a_run a)); simpl in Hleft; try lia; done.
  - intros Hready Hm. apply handlers_left_done.
    destruct Htime as [Hk _]; [|simpl in Hk; lia].
    split; simpl; [by rewrite Hpc0 | done].
Qed.

(** ** How the stub and the callbacks are used *)

Section usage.
Context (s : nat) (cf : config) (resps : list response_callback).

Local Abbreviation Astep := (astep s cf resps).
Local Abbreviation St := Build_astate.

Lemma request_counted i config tr :
  EvRequest s i config ∈ tr → requests_received s tr ≠ 0.
Proof.
  intros Hin. unfold requests_received.
  assert (H : EvRequest s i config ∈ filter (λ e, is_request s e = true) tr).
  { apply list_elem_of_filter. split; [|done]. simpl. apply Nat.eqb_refl. }
  destruct (filter _ tr); [by apply elem_of_nil in H | done].
Qed.

Lemma log_advance st x : _requestResponseLog (advance st x) = _requestResponseLog x.
Proof. unfold advance. by destruct (_responsesPromise x). Qed.

Lemma log_caught set c x :
  (∀ e y, _requestResponseLog (set e y) = _requestResponseLog y) →
  _requestResponseLog (caught set c x) = _requestResponseLog x.
Proof. intros H. destruct c; [done|]. apply H. Qed.

Lemma log_accepted count config x :
  _requestResponseLog (accepted resps count config x)
  = _requestResponseLog x ++ [LogRequest config].
Proof. unfold accepted. by destruct (_ =? _)%Z. Qed.

Lemma log_responded c x :
  _requestResponseLog x ≠ [] → _requestResponseLog (responded c x) ≠ [].
Proof.
  unfold responded. destruct c; simpl; [intros _; apply log_grows|].
  by destruct (is_set _).
Qed.

Lemma received_cons e tr :
  requests_received s (e :: tr)
  = (if is_request s e then 1 else 0) + requests_received s tr.
Proof. apply count_cons. Qed.

Lemma accepted_cons e tr :
  accepted_count s (e :: tr) = (if is_accept s e then 1 else 0) + accepted_count s tr.
Proof. apply count_cons. Qed.

(** An event other than a request, a response callback, the guard and the
    beforeEachResponse hook adds nothing to prove. *)
Ltac plain :=
  apply each_event_cons; (split; [|assumption]);
  repeat split; intros; discriminate.

Lemma usage_inv_step a a' :
  Astep a a' → series_inv s cf resps a → usage_inv s resps a → usage_inv s resps a'.
Proof.
  intros Hstep Hinv [Hcount Hbound Hlog Hresp Hreq Hguard Hhook].
  pose proof (si_chain _ _ _ _ Hinv) as Hchain.
  pose proof (λ j rest, head_index s resps a j rest Hchain) as Hhead.
  destruct Hstep; cbn [a_ctx a_run a_trace] in *.
  - (* quiet *)
    constructor; cbn [a_ctx a_run a_trace].
    + rewrite Hcount. symmetry. by apply (count_quiet s (is_accept s)); [apply accept_series|].
    + done.
    + unfold requests_received.
      rewrite (count_quiet s (is_request s)); [done|apply request_series|done].
    + apply (each_event_quiet _ s); [|done..].
      intros e before He i c ->. by destruct He.
    + assert (Hq : ∀ (l' : list event), quiet s l' →
                each_event (requests_numbered s resps) tr →
                each_event (requests_numbered s resps) (l' ++ tr)).
      { clear. intros l' Hq H. apply (each_event_quiet _ s); [|done..].
        intros e before He. split; intros; subst; by destruct He. }
      by apply Hq.
    + apply (each_event_quiet _ s); [|done..].
      intros e before He to from c ->. by destruct He.
    + apply (each_event_quiet _ s); [|done..].
      intros e before He config i c ->. by destruct He.
  - (* accept *)
    constructor; cbn [a_ctx a_run a_trace r_count set_r_count].
    + rewrite accepted_cons. simpl. rewrite Nat.eqb_refl. lia.
    + lia.
    + rewrite log_accepted, received_cons. simpl. rewrite Nat.eqb_refl.
      split; [intros E; by apply log_grows in E | lia].
    + plain.
    + apply each_event_cons. split; [|done]. split.
      * intros i config [= <- _]. split; [done | lia].
      * intros; discriminate.
    + plain.
    + plain.
  - (* surplus *)
    constructor; cbn [a_ctx a_run a_trace].
    + by rewrite accepted_cons.
    + done.
    + unfold refused. simpl. rewrite received_cons. simpl. rewrite Nat.eqb_refl.
      split; [intros E; by apply log_grows in E | lia].
    + plain.
    + apply each_event_cons. split; [|done]. split.
      * intros; discriminate.
      * intros config _. congruence.
    + plain.
    + plain.
  - (* catch *)
    constructor; cbn [a_ctx a_run a_trace]; try done. by rewrite log_advance.
  - constructor; cbn [a_ctx a_run a_trace]; try done. by rewrite log_advance.
  - (* any, run *)
    constructor; cbn [a_ctx a_run a_trace].
    + by rewrite accepted_cons.
    + done.
    + rewrite log_advance, log_caught, received_cons by done. done.
    + plain.
    + plain.
    + plain.
    + plain.
  - constructor; cbn [a_ctx a_run a_trace]; try done. by rewrite log_advance.
  - (* each, run *)
    constructor; cbn [a_ctx a_run a_trace].
    + by rewrite accepted_cons.
    + done.
    + rewrite log_advance, log_caught, received_cons by done. done.
    + plain.
    + plain.
    + plain.
    + apply each_event_cons. split; [|done].
      intros config i c' _ (config' & i' & e' & Hin & Hs).
      pose proof (ei_each _ _ (si_errors _ _ _ _ Hinv) _ _ _ Hin Hs) as E.
      simpl in E. congruence.
  - (* exec *)
    pose proof (ci_jobs _ _ _ Hchain) as Hjobs. simpl in Hjobs.
    match goal with H : _responsesPromise x = _ |- _ => rewrite H in Hjobs end.
    inversion Hjobs as [|? ? [Hcb Hin] _]; subst.
    constructor; cbn [a_ctx a_run a_trace].
    + by rewrite !accepted_cons.
    + done.
    + rewrite !received_cons. simpl.
      pose proof (request_counted _ _ _ Hin) as Hne.
      split; [|lia]. intros E. exfalso. revert E. apply log_responded.
      intros E. apply Hlog in E. done.
    + apply each_event_cons. split; [intros; discriminate|].
      apply each_event_cons. split; [|done].
      intros i c' [= <- _]. split.
      * intros c'' Hi. apply (ci_responded _ _ _ Hchain) in Hi.
        erewrite Hhead in Hi by done. lia.
      * intros i' Hi'. erewrite Hhead in Hi' by done.
        destruct (ci_settled_all _ _ _ Hchain i' Hi') as [o Ho].
        apply list_elem_of_split in Ho as (l1 & l2 & E).
        pose proof (hy_responded _ _ _ _ (si_history _ _ _ _ Hinv)) as Hr.
        simpl in Hr. destruct (Hr l1 _ l2 E i' o eq_refl) as (? & c0 & rest0 & -> & _).
        exists c0. simpl in E. rewrite E. apply elem_of_app. right.
        apply elem_of_cons. right. by left.
    + do 2 (apply each_event_cons; split; [split; intros; discriminate|]). done.
    + do 2 (apply each_event_cons; split; [intros; discriminate|]). done.
    + do 2 (apply each_event_cons; split; [intros; discriminate|]). done.
  - (* guard *)
    constructor; cbn [a_ctx a_run a_trace].
    + by rewrite accepted_cons.
    + done.
    + rewrite log_caught, received_cons by done. done.
    + plain.
    + plain.
    + apply each_event_cons. split; [|done].
      intros to' from' c' _ (to'' & from'' & e' & Hin & Hs).
      pose proof (ei_nav _ _ (si_errors _ _ _ _ Hinv) _ _ _ Hin Hs) as E.
      simpl in E. congruence.
    + plain.
  - (* the first handler *)
    destruct (ci_unborn _ _ _ Hchain) as (Hq & _); [done|]. simpl in Hq.
    constructor; cbn [a_ctx a_run a_trace r_count set_r_count set_r_pc set_r_settled];
      try done.
    + symmetry. by apply (count_none s); [apply accept_series|].
    + lia.
    + simpl. split; [|done]. intros _.
      by apply (count_none s); [apply request_series|].
  - constructor; cbn [a_ctx a_run a_trace]; try done.
  - constructor; cbn [a_ctx a_run a_trace]; try done.
Qed.
End usage.

(** ** The handlers of a run *)

Section handlers.
Context (r s : nat) (cf : config) (resps : list response_callback).

#[local] Opaque perform.

Ltac run_after Hn :=
  simpl; rewrite ?lookup_alter_eq, Hn; simpl; eexists; (split; [reflexivity|]).

(** What one handler of the run, any but the first, does to the run. *)
Lemma own_step w a :
  coupled r s cf resps w a → r_pc (a_run a) ≠ PInit →
  ∃ n', runs (main_step r w) !! r = Some n'
        ∧ r_pc n' = next_pc (r_pc (a_run a))
        ∧ r_settled n' = settles_by cf (a_run a) (a_ctx a)
        ∧ r_self n' = r_self (a_run a)
        ∧ r_callback n' = r_callback (a_run a)
        ∧ r_pollWork n' = r_pollWork (a_run a).
Proof.
  intros [(Ho & Hn & _ & Hself & _) _] Hpc.
  destruct a as [x n tr]. simpl in *. rewrite <- Hself in Ho.
  unfold main_step, settles_by. rewrite Hn.
  destruct (r_pc n) eqn:Hp; try done; simpl.
  - (* the guard *)
    unfold goto, then_. destruct (r_settled n) as [v|e] eqn:Hv.
    + rewrite Ho. destruct (bool_decide _); run_after Hn; simpl; by rewrite ?Hp.
    + run_after Hn. simpl. by rewrite Hv.
  - (* navigation and mount *)
    unfold goto, then_. destruct (r_settled n) as [v|e] eqn:Hv.
    + unfold _navigateAndMount, _navigate, run_mount. rewrite Ho. simpl.
      destruct (_mount cf) as [m|] eqn:Hm.
      * rewrite perform_pair.
        destruct (lookup_perform r m w n Hn) as (n1 & Hn1 & (?&?&?&?&?)).
        destruct (negb _), (completes m); simpl; run_after Hn1; simpl;
          split_and!; congruence.
      * destruct (negb _); run_after Hn; simpl; by rewrite ?Hp.
    + run_after Hn. simpl. by rewrite Hv.
  - unfold goto, then_. destruct (r_settled n) as [v|e] eqn:Hv.
    + run_after Hn. done.
    + run_after Hn. simpl. by rewrite Hv.
  - (* the request *)
    unfold goto, then_. destruct (r_settled n) as [v|e] eqn:Hv.
    + unfold request_handler, _checkStateBeforeRequest. rewrite Ho. simpl.
      destruct (_request cf) as [q|] eqn:Hq.
      * destruct (_requestResponseLog x) eqn:Hlog.
        -- rewrite perform_pair.
           destruct (lookup_perform r (q (_component x)) w n Hn)
             as (n1 & Hn1 & (?&?&?&?&?)).
           run_after Hn1. simpl. split_and!; congruence.
        -- run_after Hn. done.
      * run_after Hn. done.
    + run_after Hn. simpl. by rewrite Hv.
  - unfold goto, finally_. run_after Hn. done.
  - (* the poll *)
    unfold goto, finally_, poll_handler, waitUntil. rewrite Ho. simpl.
    destruct (r_pollWork n) as [pw|] eqn:Hpw.
    + rewrite perform_pair.
      destruct (lookup_perform r (pw (_component x)) w n Hn)
        as (n1 & Hn1 & (?&?&?&?&?)).
      destruct (completes _) as [v|e]; [destruct (truthy v)|]; simpl.
      * run_after Hn1. simpl. split_and!; congruence.
      * run_after Hn1. simpl. split_and!; congruence.
      * run_after Hn1. simpl. split_and!; congruence.
    + run_after Hn. done.
  - unfold goto, finally_, _restoreHttp. rewrite Ho. simpl.
    destruct (_inProgress x); run_after Hn; done.
  - unfold goto, then_, verify_handler, settles_next. rewrite Hp.
    destruct (r_settled n) as [v|e] eqn:Hv.
    + rewrite Ho. run_after Hn. done.
    + run_after Hn. simpl. by rewrite Hv.
  - unfold goto, then_, callback_handler, settles_next. rewrite Hp.
    destruct (r_settled n) as [v|e] eqn:Hv.
    + rewrite Ho. destruct (r_callback n) as [cb|] eqn:Hcb.
      * rewrite perform_pair.
        destruct (lookup_perform r (cb (_component x)) w n Hn)
          as (n1 & Hn1 & (?&?&?&?&?)).
        run_after Hn1. simpl. split_and!; congruence.
      * run_after Hn. simpl. by rewrite ?Hcb.
    + run_after Hn. simpl. by rewrite Hv.
  - unfold goto, then_, wrap_handler, settles_next. rewrite Hp.
    destruct (r_settled n) as [v|e] eqn:Hv.
    + rewrite Ho. run_after Hn. done.
    + run_after Hn. simpl. by rewrite Hv.
  - unfold goto, finally_, _cleanUpAfterResponses. run_after Hn. done.
  - exists n. by rewrite Hp.
Qed.

(** What an action other than a handler of the run leaves alone. *)
Lemma other_step_frame w a act a' :
  coupled r s cf resps w a → is_main r act = false →
  coupled r s cf resps (step w act) a' →
  same_position (a_run a) (a_run a')
  ∧ _component (a_ctx a') = _component (a_ctx a)
  ∧ _inProgress (a_ctx a') = _inProgress (a_ctx a).
Proof.
  intros [Hs Hu] Hact [Hs' _].
  pose proof Hs as (Ho & Hn & _). pose proof Hs' as (Ho' & Hn' & _).
  destruct act as [r'|s'|config|to from].
  - simpl in Hact. apply Nat.eqb_neq in Hact.
    destruct (main_step_other r s cf resps r' w a Hact Hs Hu)
      as (a'' & _ & (Ho'' & Hn'' & _) & Hst).
    simpl in *.
    assert (a_run a'' = a_run a') as <- by congruence.
    assert (a_ctx a'' = a_ctx a') as <- by congruence.
    destruct Hst as (_&?&?&_&_&_&_&_&?). done.
  - pose proof (step_calm w (Chain s') ltac:(done)) as (_&_&_&_&Hh&Hr).
    specialize (Hh s). specialize (Hr r). rewrite Ho, Ho' in Hh. rewrite Hn, Hn' in Hr.
    inversion Hh as [? ? (_&?&_&?)|]; inversion Hr; subst. done.
  - pose proof (step_calm w (Send config) ltac:(done)) as (_&_&_&_&Hh&Hr).
    specialize (Hh s). specialize (Hr r). rewrite Ho, Ho' in Hh. rewrite Hn, Hn' in Hr.
    inversion Hh as [? ? (_&?&_&?)|]; inversion Hr; subst. done.
  - pose proof (step_calm w (NavEvent to from) ltac:(done)) as (_&_&_&_&Hh&Hr).
    specialize (Hh s). specialize (Hr r). rewrite Ho, Ho' in Hh. rewrite Hn, Hn' in Hr.
    inversion Hh as [? ? (_&?&_&?)|]; inversion Hr; subst. done.
Qed.

(** A property of the run and of the component of its series that the
    handlers of the run keep holds whatever is scheduled. *)
Lemma run_exec (P : run → context → Prop) :
  (∀ n n' x x', same_position n n' → _component x' = _component x →
     P n x → P n' x') →
  (∀ w a a', coupled r s cf resps w a → coupled r s cf resps (main_step r w) a' →
     P (a_run a) (a_ctx a) → P (a_run a') (a_ctx a')) →
  ∀ sched w a,
    coupled r s cf resps w a → P (a_run a) (a_ctx a) →
    ∃ a', coupled r s cf resps (exec sched w) a' ∧ P (a_run a') (a_ctx a').
Proof.
  intros Henv Hown. induction sched as [|act sched IH]; intros w a Hc HP.
  - by exists a.
  - simpl. destruct (step_coupled r s cf resps w a act Hc) as (a1 & _ & Hc1).
    apply (IH _ a1 Hc1).
    destruct (is_main r act) eqn:Hact.
    + apply is_main_spec in Hact as ->. exact (Hown w a a1 Hc Hc1 HP).
    + destruct (other_step_frame w a act a1 Hc Hact Hc1) as (? & ? & _).
      exact (Henv _ _ _ _ H H0 HP).
Qed.

(** Each handler of the run that is scheduled runs, once the first one has. *)
Lemma progress_exec sched : ∀ w a,
  coupled r s cf resps w a → r_pc (a_run a) ≠ PInit →
  ∃ a', coupled r s cf resps (exec sched w) a'
        ∧ handlers_left (r_pc (a_run a'))
          = handlers_left (r_pc (a_run a)) - mains r sched.
Proof.
  induction sched as [|act sched IH]; intros w a Hc Hpc.
  - exists a. split; [done|]. unfold mains. simpl. lia.
  - simpl. destruct (step_coupled r s cf resps w a act Hc) as (a1 & _ & Hc1).
    rewrite mains_cons.
    pose proof Hc as [(_ & Hn & _) _]. pose proof Hc1 as [(_ & Hn1 & _) _].
    destruct (is_main r act) eqn:Hact.
    + apply is_main_spec in Hact as ->. simpl in Hn1.
      destruct (main_step_next r s cf resps w a _ Hc Hn Hpc) as (n1 & Hn1' & Hp1).
      assert (a_run a1 = n1) as E by congruence.
      destruct (IH _ a1 Hc1) as (a2 & Hc2 & Hleft).
      { rewrite E, Hp1. by destruct (r_pc (a_run a)). }
      exists a2. split; [done|]. rewrite Hleft, E, Hp1, left_next. lia.
    + destruct (other_step_frame w a act a1 Hc Hact Hc1) as ((_&_&_&Hp&_) & _).
      destruct (IH _ a1 Hc1) as (a2 & Hc2 & Hleft); [congruence|].
      exists a2. split; [done|]. by rewrite Hleft, Hp.
Qed.

(** The state that a world shows is the only one. *)
Lemma coupled_same w a a' :
  coupled r s cf resps w a → coupled r s cf resps w a' →
  a_run a' = a_run a ∧ a_ctx a' = a_ctx a ∧ a_trace a' = a_trace a.
Proof.
  intros [(Ho & Hn & Ht & _) _] [(Ho' & Hn' & Ht' & _) _].
  split_and!; congruence.
Qed.

(** The closing handlers leave the component of the series alone. *)
Lemma closing_component w a a' :
  coupled r s cf resps w a → coupled r s cf resps (main_step r w) a' →
  closing (r_pc (a_run a)) →
  _component (a_ctx a') = _component (a_ctx a).
Proof.
  intros [(Ho & Hn & _ & Hself & _) _] [(Ho' & _) _] Hpc.
  revert Ho'. unfold main_step. rewrite Hn, Hself.
  destruct Hpc as [Hp|[Hp|[Hp|Hp]]]; rewrite Hp.
  - unfold goto, then_, callback_handler. destruct (r_settled _); [|simpl; intros; congruence].
    rewrite Ho. destruct (r_callback _) as [cb|]; [|simpl; intros; congruence].
    rewrite perform_pair. simpl. intros Ho'.
    destruct (perform_calm (cb (_component (a_ctx a))) w)
      as (_&_&_&_&Hh&_).
    specialize (Hh s). rewrite Ho in Hh. simpl in Ho'. rewrite Ho' in Hh.
    inversion Hh as [? ? (_&_&_&?)|]; subst. done.
  - unfold goto, then_, wrap_handler. destruct (r_settled _); [|simpl; intros; congruence].
    rewrite Ho. simpl. intros; congruence.
  - unfold goto, finally_, _cleanUpAfterResponses. simpl.
    rewrite lookup_alter_eq, Ho. simpl. by intros [= <-].
  - intros; congruence.
Qed.
End handlers.

(** ** Runs under any schedule *)

Section reach.
Context (r s : nat) (cf : config) (resps : list response_callback).

Lemma usage_inv_steps a a' :
  rtc (astep s cf resps) a a' →
  series_inv s cf resps a → usage_inv s resps a →
  series_inv s cf resps a' ∧ usage_inv s resps a'.
Proof.
  induction 1 as [|a1 a2 a3 Hstep _ IH]; [done|]. intros Hi Hu. apply IH.
  - by eapply series_inv_step.
  - by eapply usage_inv_step.
Qed.

Lemma usage_inv_start n tr :
  r_count n = 0 → quiet s tr → usage_inv s resps (Build_astate undefined_context n tr).
Proof.
  intros Hcount Hq. constructor; simpl.
  - rewrite Hcount. symmetry. by apply (count_none s); [apply accept_series|].
  - lia.
  - split; [|done]. intros _. by apply (count_none s); [apply request_series|].
  - rewrite <- (app_nil_r tr). apply (each_event_quiet _ s); [|done|apply each_event_nil].
    intros e before He i c ->. by destruct He.
  - rewrite <- (app_nil_r tr). apply (each_event_quiet _ s); [|done|apply each_event_nil].
    intros e before He. split; intros; subst; by destruct He.
  - rewrite <- (app_nil_r tr). apply (each_event_quiet _ s); [|done|apply each_event_nil].
    intros e before He to from c ->. by destruct He.
  - rewrite <- (app_nil_r tr). apply (each_event_quiet _ s); [|done|apply each_event_nil].
    intros e before He config i c ->. by destruct He.
Qed.

(** Every world that a schedule reaches shows the series in a state that
    satisfies the invariants of its use as well. *)
Lemma reachable_usage w0 sched :
  unstarted r s cf resps w0 →
  ∃ a, coupled r s cf resps (exec sched w0) a
       ∧ series_inv s cf resps a ∧ usage_inv s resps a.
Proof.
  intros (n & Ho & Hn & Hself & Hpc & Hcount & Hresps & Huniq & Hq & Hd).
  set (a0 := {| a_ctx := undefined_context; a_run := n; a_trace := trace w0 |}).
  assert (Hc : coupled r s cf resps w0 a0).
  { split; [by split_and! | by intros ? ? ?]. }
  destruct (exec_coupled r s cf resps sched w0 a0 Hc) as (a' & Hr & Hc').
  exists a'. split; [done|]. apply (usage_inv_steps a0); [done| |].
  - by apply series_inv_start.
  - by apply usage_inv_start.
Qed.

Lemma exec_app sched1 sched2 w :
  exec (sched1 ++ sched2) w = exec sched2 (exec sched1 w).
Proof. unfold exec. apply foldl_app. Qed.

(** Once rejected after its first handler, the run stays rejected, and with
    the same reason unless the poll fails. *)
Lemma rejected_exec e sched w a :
  coupled r s cf resps w a → r_pc (a_run a) ≠ PInit →
  r_settled (a_run a) = Rejected e →
  ∃ a', coupled r s cf resps (exec sched w) a'
        ∧ is_rejected (r_settled (a_run a'))
        ∧ (poll_succeeds (a_run a) → r_settled (a_run a') = Rejected e).
Proof.
  intros Hc Hpc Hrej.
  destruct (run_exec r s cf resps
              (λ n _, r_pc n ≠ PInit ∧ r_pollWork n = r_pollWork (a_run a)
                      ∧ is_rejected (r_settled n)
                      ∧ (poll_succeeds (a_run a) → r_settled n = Rejected e)))
    with sched w a as (a' & Hc' & _ & _ & ? & ?); try done.
  - intros n n' _ _ (_&_&E1&E2&E3) _ (? & ? & ? & ?).
    rewrite E1, E2, E3. done.
  - intros w1 a1 a1' Hc1 Hc1' (Hp1 & Hpw & Hr1 & He1).
    destruct (own_step r s cf resps w1 a1 Hc1 Hp1) as (n' & Hn' & Hp' & Hs' & _ & _ & Hpw').
    destruct Hc1' as [(_ & Hn1' & _) _].
    assert (a_run a1' = n') as -> by congruence.
    split_and!.
    + rewrite Hp'. by destruct (r_pc (a_run a1)).
    + congruence.
    + rewrite Hs'. unfold settles_by, settles_next.
      destruct (r_settled (a_run a1)) as [|e1] eqn:E; [done|].
      destruct (r_pc (a_run a1)); try done.
      destruct (r_pollWork (a_run a1)); [|done].
      destruct (completes _); [|done]. by destruct (truthy _).
    + intros Hpoll. specialize (He1 Hpoll). rewrite Hs'.
      unfold settles_by, settles_next. rewrite He1.
      destruct (r_pc (a_run a1)); try done.
      destruct (r_pollWork (a_run a1)) as [pw|]; [|done].
      destruct (Hpoll pw (_component (a_ctx a1)) (eq_sym Hpw)) as (v & -> & ->).
      done.
  - split_and!; try done. by rewrite Hrej.
  - eauto.
Qed.
End reach.

(** X1. Whatever is scheduled, the stub calls each response callback at most
    once, and only after it has called the response callbacks queued before
    it. *)
Theorem response_callbacks_once (r s : nat) (cf : config)
    (resps : list response_callback) (w0 : world) (sched : list action) :
  unstarted r s cf resps w0 →
  each_event (responds_once_in_order s) (trace (exec sched w0)).
Proof.
  intros Hu. destruct (reachable_usage r s cf resps w0 sched Hu)
    as (a & [(_ & _ & Htr & _) _] & _ & Hus).
  rewrite Htr. apply (us_responses _ _ _ Hus).
Qed.

(** X2. Whatever is scheduled, the guard of [beforeEachNav()] is not called
    again once it has thrown (something other than [null] or [undefined]). *)
Theorem guard_not_called_again (r s : nat) (cf : config)
    (resps : list response_callback) (w0 : world) (sched : list action) :
  unstarted r s cf resps w0 →
  each_event (guard_not_after_throw s) (trace (exec sched w0)).
Proof.
  intros Hu. destruct (reachable_usage r s cf resps w0 sched Hu)
    as (a & [(_ & _ & Htr & _) _] & _ & Hus).
  rewrite Htr. apply (us_guard _ _ _ Hus).
Qed.

(** X3. The first failure wins. Once the promise of [afterResponses()] is
    rejected, after its first handler, it stays rejected whatever is
    scheduled, and with the same reason unless the poll fails; the checks of
    the state and the completion callback do not run over it. The run is done
    once the handlers that were left have been scheduled. *)
Theorem first_failure_wins (r s : nat) (cf : config)
    (resps : list response_callback) (w0 : world) (sched1 sched2 : list action)
    (n : run) (e : exn) :
  unstarted r s cf resps w0 →
  runs (exec sched1 w0) !! r = Some n →
  r_pc n ≠ PInit →
  r_settled n = Rejected e →
  ∃ n2, runs (exec (sched1 ++ sched2) w0) !! r = Some n2
        ∧ is_rejected (r_settled n2)
        ∧ (poll_succeeds n → r_settled n2 = Rejected e)
        ∧ (handlers_left (r_pc n) ≤ mains r sched2 → r_pc n2 = PDone).
Proof.
  intros Hu Hn Hpc Hrej.
  destruct (reachable_inv r s cf resps w0 sched1 Hu) as (a & Hc & _).
  pose proof Hc as [(_ & Hn0 & _) _].
  assert (a_run a = n) as E by congruence. subst n.
  destruct (rejected_exec r s cf resps e sched2 _ a Hc Hpc Hrej) as (a2 & Hc2 & ? & ?).
  destruct (progress_exec r s cf resps sched2 _ a Hc Hpc) as (a3 & Hc3 & Hleft).
  destruct (coupled_same r s cf resps _ _ _ Hc2 Hc3) as (E & _).
  destruct Hc2 as [(_ & Hn2 & _) _].
  exists (a_run a2). rewrite exec_app. split_and!; try done.
  intros Hm. apply handlers_left_done. rewrite <- E, Hleft. lia.
Qed.

(** X4. A series that follows a rejected promise does not execute: its first
    handler changes nothing but the run, which is rejected with the reason of
    the previous promise; no stub is installed and no flag is set. The run
    stays rejected, with that reason unless the poll fails. *)
Theorem follows_rejected (r s : nat) (cf : config)
    (resps : list response_callback) (w0 : world) (sched1 sched2 : list action)
    (n : run) (o : MockHttp) (e : exn) :
  unstarted r s cf resps w0 →
  let w1 := exec sched1 w0 in
  runs w1 !! r = Some n → r_pc n = PInit →
  heap w1 !! s = Some o →
  previous_outcome w1 o = Some (Rejected e) →
  (http (main_step r w1) = http w1
   ∧ inProgress (main_step r w1) = inProgress w1
   ∧ heap (main_step r w1) = heap w1
   ∧ guards (main_step r w1) = guards w1
   ∧ trace (main_step r w1) = trace w1)
  ∧ ∃ n2, runs (exec (Main r :: sched2) w1) !! r = Some n2
          ∧ is_rejected (r_settled n2)
          ∧ (poll_succeeds n → r_settled n2 = Rejected e)
          ∧ (11 ≤ mains r sched2 → r_pc n2 = PDone).
Proof.
  intros Hu w1 Hn Hpc Ho Hprev.
  destruct (reachable_inv r s cf resps w0 sched1 Hu) as (a & Hc & _). fold w1 in Hc.
  pose proof Hc as [(Ho0 & Hn0 & _ & Hself & _) _].
  assert (a_run a = n) as E by congruence. subst n.
  assert (Hstep : main_step r w1
                  = goto r PGuard (upd_run r (set_r_settled (Rejected e)) w1)).
  { unfold main_step. rewrite Hn, Hpc, Hself, Ho, Hprev. reflexivity. }
  split; [by rewrite Hstep|].
  destruct (step_coupled r s cf resps w1 a (Main r) Hc) as (a1 & _ & Hc1).
  simpl in Hc1. pose proof Hc1 as [(_ & Hn1 & _) _].
  assert (Hrun : a_run a1 = set_r_pc PGuard (set_r_settled (Rejected e) (a_run a))).
  { rewrite Hstep in Hn1. unfold goto, upd_run in Hn1. simpl in Hn1.
    rewrite !lookup_alter_eq, Hn in Hn1. simpl in Hn1. congruence. }
  assert (Hp1 : r_pc (a_run a1) ≠ PInit) by (by rewrite Hrun).
  assert (Hs1 : r_settled (a_run a1) = Rejected e) by (by rewrite Hrun).
  change (exec (Main r :: sched2) w1) with (exec sched2 (main_step r w1)).
  destruct (rejected_exec r s cf resps e sched2 _ a1 Hc1 Hp1 Hs1) as (a2 & Hc2 & ? & Hsame).
  destruct (progress_exec r s cf resps sched2 _ a1 Hc1 Hp1) as (a3 & Hc3 & Hleft).
  destruct (coupled_same r s cf resps _ _ _ Hc2 Hc3) as (E & _).
  destruct Hc2 as [(_ & Hn2 & _) _].
  exists (a_run a2). split_and!; try done.
  - intros Hpoll. apply Hsame. intros pw c Hpw. apply Hpoll.
    by rewrite Hrun in Hpw.
  - intros Hm. apply handlers_left_done. rewrite <- E, Hleft, Hrun. simpl. lia.
Qed.

Section result.
Context (r s : nat) (cf : config) (resps : list response_callback).

Lemma carries_exec sched w a :
  coupled r s cf resps w a → carries (a_run a) (a_ctx a) →
  ∃ a', coupled r s cf resps (exec sched w) a' ∧ carries (a_run a') (a_ctx a').
Proof.
  apply (run_exec r s cf resps carries).
  - intros n n' x x' (_&E1&_&E2&E3) E4. unfold carries. by rewrite E1, E2, E3, E4.
  - intros w1 a1 a1' Hc1 Hc1' HP.
    pose proof Hc1 as [(Ho & Hn & _ & Hself & _) _].
    pose proof Hc1' as [(Ho' & Hn' & _) _].
    destruct (decide (r_pc (a_run a1) = PInit)) as [Hp|Hp].
    { rewrite <- Hself in Ho.
      destruct (main_step_first r w1 _ _ Hn Hp Ho)
        as [[_ E]|(_ & n1 & x1 & Hn1 & Hp1 & _)].
      - rewrite E in Hn', Ho'. rewrite Hself in Ho.
        assert (a_run a1' = a_run a1) as -> by congruence.
        assert (a_ctx a1' = a_ctx a1) as -> by congruence. done.
      - assert (a_run a1' = n1) as -> by congruence. unfold carries. by rewrite Hp1. }
    destruct (own_step r s cf resps w1 a1 Hc1 Hp) as (n' & Hn1 & Hp' & Hs' & _ & Hcb & _).
    assert (a_run a1' = n') as -> by congruence.
    unfold carries in *. rewrite Hp', Hs', Hcb. unfold settles_by, settles_next.
    destruct (r_pc (a_run a1)) eqn:Hpc; try done; simpl.
    + (* the completion callback *)
      pose proof (closing_component r s cf resps w1 a1 a1' Hc1 Hc1') as Hcomp.
      rewrite Hpc in Hcomp. rewrite Hcomp by (unfold closing; auto).
      destruct (r_settled (a_run a1)) as [v0|]; [|done].
      destruct (r_callback (a_run a1)) as [cb|]; [|done].
      intros v Hv. exists cb. split; [done|]. by destruct (completes _); simplify_eq/=.
    + (* the wrapping of the result *)
      pose proof (closing_component r s cf resps w1 a1 a1' Hc1 Hc1') as Hcomp.
      rewrite Hpc in Hcomp. rewrite Hcomp by (unfold closing; auto).
      destruct (r_settled (a_run a1)) as [v0|]; [|done].
      intros v [= <-]. destruct (HP v0 eq_refl) as (cb & ? & ?). by exists cb, v0.
    + pose proof (closing_component r s cf resps w1 a1 a1' Hc1 Hc1') as Hcomp.
      rewrite Hpc in Hcomp. rewrite Hcomp by (unfold closing; auto). done.
    + pose proof (closing_component r s cf resps w1 a1 a1' Hc1 Hc1') as Hcomp.
      rewrite Hpc in Hcomp. rewrite Hcomp by (unfold closing; auto). done.
Qed.
End result.

(** X5. What awaiting a series gives. When the run is done and its promise is
    fulfilled, the value is the object [{ component, result }], where
    [component] is the component that the series holds and [result] is what
    the completion callback returned for it. *)
Theorem fulfilled_with_result (r s : nat) (cf : config)
    (resps : list response_callback) (w0 : world) (sched : list action)
    (n : run) (v : value) :
  unstarted r s cf resps w0 →
  runs (exec sched w0) !! r = Some n →
  r_pc n = PDone →
  r_settled n = Fulfilled v →
  ∃ callback x result,
    r_callback n = Some callback
    ∧ heap (exec sched w0) !! s = Some {| cfg := cf; ctx := x |}
    ∧ completes (callback (_component x)) = Return result
    ∧ v = VObj [("component", _component x); ("result", result)].
Proof.
  intros Hu Hn Hpc Hv.
  pose proof Hu as (n0 & Ho0 & Hn0 & Hself0 & Hpc0 & Hcount & Hresps & Huniq & Hq & Hd).
  set (a0 := {| a_ctx := undefined_context; a_run := n0; a_trace := trace w0 |}).
  assert (Hc : coupled r s cf resps w0 a0).
  { split; [by split_and! | by intros ? ? ?]. }
  destruct (carries_exec r s cf resps sched w0 a0 Hc) as (a & [(Ho & Hn' & _) _] & HP).
  { unfold carries. simpl. by rewrite Hpc0. }
  assert (a_run a = n) as E by congruence. rewrite E in HP.
  unfold carries in HP. rewrite Hpc in HP.
  destruct (HP v Hv) as (cb & res & ? & ? & ?). by exists cb, (a_ctx a), res.
Qed.

(** X6. [route()] and [mount()] may send requests, but then there must be no
    [request()] callback. When the run comes to the handler of the request
    with its promise fulfilled so far and the series has a [request()]
    callback: if the stub has received a request already, the callback is not
    run and the promise is rejected with 'a request was sent before the
    request() callback was run'; if it has received none, the callback runs
    and the promise settles as the callback completes. *)
Theorem request_needs_quiet_start (r s : nat) (cf : config)
    (resps : list response_callback) (w0 : world) (sched : list action)
    (n : run) (x : context) (request : value → behaviour) :
  unstarted r s cf resps w0 →
  let w1 := exec sched w0 in
  runs w1 !! r = Some n → r_pc n = PRequest → ¬ is_rejected (r_settled n) →
  heap w1 !! s = Some {| cfg := cf; ctx := x |} →
  _request cf = Some request →
  ∃ n', runs (main_step r w1) !! r = Some n'
        ∧ r_pc n' = PWait
        ∧ (0 < requests_received s (trace w1) →
           r_settled n'
           = Rejected (JsError "a request was sent before the request() callback was run")
           ∧ trace (main_step r w1) = trace w1
           ∧ heap (main_step r w1) = heap w1)
        ∧ (requests_received s (trace w1) = 0 →
           r_settled n' = settle (completes (request (_component x)))).
Proof.
  intros Hu w1 Hn Hpc Hful Ho Hreq.
  destruct (reachable_usage r s cf resps w0 sched Hu) as (a & Hc & _ & Hus). fold w1 in Hc.
  pose proof Hc as [(Ho0 & Hn0 & Htr & Hself & _) _].
  assert (a_run a = n) as E by congruence.
  assert (a_ctx a = x) as Ex by congruence.
  destruct (own_step r s cf resps w1 a Hc) as (n' & Hn' & Hp' & Hs' & _).
  { rewrite E, Hpc. done. }
  exists n'. rewrite E, Hpc in Hp'. split_and!; [done..| |].
  - intros Hpos. rewrite Htr in Hpos.
    destruct (_requestResponseLog (a_ctx a)) as [|l0 l] eqn:Hlog.
    { apply (us_log _ _ _ Hus) in Hlog. lia. }
    split_and!.
    + rewrite Hs'. unfold settles_by. rewrite E, Hpc, Hreq, Hlog.
      destruct (r_settled n); [done | by destruct Hful].
    + unfold main_step. rewrite Hn, Hpc. unfold goto, then_, request_handler.
      destruct (r_settled n); [|done]. rewrite <- E, Hself, Ho0. simpl.
      rewrite Hreq. unfold _checkStateBeforeRequest. simpl. by rewrite Hlog.
    + unfold main_step. rewrite Hn, Hpc. unfold goto, then_, request_handler.
      destruct (r_settled n); [|done]. rewrite <- E, Hself, Ho0. simpl.
      rewrite Hreq. unfold _checkStateBeforeRequest. simpl. by rewrite Hlog.
  - intros Hzero. rewrite Htr in Hzero. apply (us_log _ _ _ Hus) in Hzero.
    rewrite Hs'. unfold settles_by. rewrite E, Hpc, Hreq, Hzero, Ex.
    destruct (r_settled n); [done | by destruct Hful].
Qed.
(** ** The order of the responses *)

Lemma settles_once_history s resps tr :
  each_event (settles_as_responded s resps) tr →
  each_event (responds_once_in_order s) tr →
  each_event (settles_once s) tr.
Proof.
  intros Hr Ho after e before Htr i o -> o' Hin.
  destruct (Hr after _ before Htr i o eq_refl) as (config & c & rest & -> & _).
  apply elem_of_cons in Hin as [Hin|Hin]; [discriminate|].
  apply list_elem_of_split in Hin as (l1 & l2 & ->).
  destruct (Hr (after ++ EvSettle s i o :: EvResponse s i c :: l1)
              (EvSettle s i o') l2) with i o' as (config' & c' & rest' & -> & _);
    [by rewrite Htr, <- app_assoc | done |].
  destruct (Ho (after ++ [EvSettle s i o]) (EvResponse s i c)
              (l1 ++ EvSettle s i o' :: EvResponse s i c' :: rest')) with i c
    as [Hno _]; [by rewrite Htr, <- app_assoc | done |].
  apply (Hno c'). apply elem_of_app. right.
  apply list_elem_of_further, list_elem_of_here.
Qed.

(** C1. In every history that a schedule produces from a series that has not
    started, whatever the requests and wherever they come from. The stub
    numbers the requests it takes 0, 1, 2, ... in the order in which it
    receives them, and takes no more than there are responses; a request that
    comes when every response has been taken is turned down at once
    ([EvSurplus]: its promise is rejected there and then, outside the order
    of the responses). The promises of the requests it took settle in the
    order of their numbers: response [i + 1] settles after response [i] has
    settled, and each response settles once, for a request that was taken.
    Before response [i] settles, the beforeEachResponse hook, if there is
    one, has run for request [i], unless it had thrown for an earlier
    request; and once it has thrown it is not run again. Before the first
    response settles, the beforeAnyResponse hook, if there is one, has run;
    and when that hook runs, no response has settled and the hook has not run
    before. *)
Theorem responses_in_order (r s : nat) (cf : config)
    (resps : list response_callback) (w0 : world) (sched : list action) :
  unstarted r s cf resps w0 →
  let tr := trace (exec sched w0) in
  each_event (requests_numbered s resps) tr
  ∧ accepted_count s tr ≤ length resps
  ∧ each_event (settles_in_order s) tr
  ∧ each_event (settles_once s) tr
  ∧ each_event (settles_as_responded s resps) tr
  ∧ each_event (hook_before_response s cf) tr
  ∧ each_event (hook_not_after_throw s) tr
  ∧ each_event (any_hook_before_first s cf) tr
  ∧ each_event (any_hook_first_and_once s) tr.
Proof.
  intros Hu tr.
  destruct (reachable_usage r s cf resps w0 sched Hu)
    as (a & [(_ & _ & Htr & _) _] & Hi & Hus).
  subst tr. rewrite Htr.
  destruct (si_history _ _ _ _ Hi) as [H1 H2 H3 H4 H5].
  split_and!; try done.
  - apply (us_requests _ _ _ Hus).
  - rewrite <- (us_count _ _ _ Hus). apply (us_bound _ _ _ Hus).
  - eapply settles_once_history; [done | apply (us_responses _ _ _ Hus)].
  - apply (us_hook _ _ _ Hus).
Qed.

(** ** The errors of the callbacks *)

(** C7. In every world that a schedule produces from a series that has not
    started: every response settles as its own response callback completed,
    fulfilled or rejected by the status of what the callback returned, and
    rejected with what the callback threw if it threw; so what the guard and
    the two hooks throw never reaches the application, and what a response
    callback throws does. What any of the four throws (something other than
    [null] or [undefined]) is stored: the field of the series for that
    callback is set exactly if it has thrown. And when the run comes to the
    check of the state with its promise fulfilled so far, and a callback has
    thrown, the promise of [afterResponses()] is rejected with one labelled
    error, that of the first category that threw in the order guard,
    beforeAnyResponse hook, beforeEachResponse hook, response callback; and
    it stays so. *)
Theorem hook_errors_reported (r s : nat) (cf : config)
    (resps : list response_callback) (w0 : world) (sched1 sched2 : list action) :
  unstarted r s cf resps w0 →
  let w1 := exec sched1 w0 in
  let tr := trace w1 in
  each_event (settles_as_responded s resps) tr
  ∧ (∃ x, heap w1 !! s = Some {| cfg := cf; ctx := x |}
          ∧ (is_set (_errorFromBeforeEachNav x) = true ↔ nav_threw s tr)
          ∧ (is_set (_errorFromBeforeAnyResponse x) = true ↔ any_threw s tr)
          ∧ (is_set (_errorFromBeforeEachResponse x) = true ↔ each_threw s tr)
          ∧ (is_set (_errorFromResponse x) = true ↔ response_threw s tr))
  ∧ ∀ n, runs w1 !! r = Some n → r_pc n = PVerify → ¬ is_rejected (r_settled n) →
    ∃ n2, runs (exec (Main r :: sched2) w1) !! r = Some n2
      ∧ (3 ≤ mains r sched2 → r_pc n2 = PDone)
      ∧ (nav_threw s tr →
         r_settled n2 = Rejected (JsError "beforeEachNav() callback threw an error"))
      ∧ (¬ nav_threw s tr → any_threw s tr →
         r_settled n2 = Rejected (JsError "beforeAnyResponse() callback threw an error"))
      ∧ (¬ nav_threw s tr → ¬ any_threw s tr → each_threw s tr →
         r_settled n2 = Rejected (JsError "beforeEachResponse() callback threw an error"))
      ∧ (¬ nav_threw s tr → ¬ any_threw s tr → ¬ each_threw s tr →
         response_threw s tr →
         r_settled n2 = Rejected (JsError "a response callback threw an error")).
Proof.
  intros Hu w1 tr.
  destruct (reachable_inv r s cf resps w0 sched1 Hu) as (a & Hc & Hi). fold w1 in Hc.
  pose proof Hc as [(Ho & Hn0 & Htr & _) _]. fold tr in Htr.
  split_and!.
  { rewrite Htr. apply (hy_responded _ _ _ _ (si_history _ _ _ _ Hi)). }
  { exists (a_ctx a). rewrite Htr. split; [done|].
    split_and!; [apply (stored_nav s cf resps a Hi) | apply (stored_any s cf resps a Hi)
                | apply (stored_each s cf resps a Hi)
                | apply (stored_response s cf resps a Hi)]. }
  intros n Hn Hpc Hful.
  destruct (verify_settles r s cf resps w1 a n sched2 Hc Hn Hpc Hful)
    as (n2 & Hn2 & Hdone & Hrej & _).
  exists n2. rewrite Htr. split_and!; try done.
  - intros H1. apply Hrej. unfold _checkStateAfterWait.
    apply (stored_nav s cf resps a Hi) in H1. by rewrite H1.
  - intros H1 H2. apply Hrej. unfold _checkStateAfterWait.
    apply (not_set _ _ (stored_nav s cf resps a Hi)) in H1.
    apply (stored_any s cf resps a Hi) in H2. by rewrite H1, H2.
  - intros H1 H2 H3. apply Hrej. unfold _checkStateAfterWait.
    apply (not_set _ _ (stored_nav s cf resps a Hi)) in H1.
    apply (not_set _ _ (stored_any s cf resps a Hi)) in H2.
    apply (stored_each s cf resps a Hi) in H3. by rewrite H1, H2, H3.
  - intros H1 H2 H3 H4. apply Hrej. unfold _checkStateAfterWait.
    apply (not_set _ _ (stored_nav s cf resps a Hi)) in H1.
    apply (not_set _ _ (stored_any s cf resps a Hi)) in H2.
    apply (not_set _ _ (stored_each s cf resps a Hi)) in H3.
    apply (stored_response s cf resps a Hi) in H4. by rewrite H1, H2, H3, H4.
Qed.

(** ** The example runs *)

Ltac by_evaluation := apply (bool_decide_unpack _); vm_compute; exact I.

(** The examples have not started. *)
Lemma cycle_unstarted :
  unstarted 0 cycle_self cycle_config cycle_responses follow_up.2.
Proof.
  eexists. split_and!; try (vm_compute; reflexivity); by_evaluation.
Qed.

Lemma hooked_unstarted :
  unstarted 0 hooked_self hooked_config hooked_responses hooked.2.
Proof.
  eexists. split_and!; try (vm_compute; reflexivity); by_evaluation.
Qed.


Lemma hooked_history_eq : trace (exec hooked_to_end hooked.2) = hooked_history.
Proof. vm_compute. reflexivity. Qed.

Lemma faulty_history_eq : trace (exec faulty_schedule faulty.2) = faulty_history.
Proof. vm_compute. reflexivity. Qed.

Ltac is_there :=
  solve [repeat first [apply list_elem_of_here | apply list_elem_of_further]].

Ltac not_there H :=
  repeat (apply elem_of_cons in H as [H|H]; [discriminate|]);
  by apply elem_of_nil in H.

(** The hooked series: its two requests have the numbers 0 and 1, its
    responses settle in that order, the hook ran for the first request and
    was left out for the second. *)
Lemma responses_in_order_witness :
  unstarted 0 hooked_self hooked_config hooked_responses hooked.2
  ∧ each_event (requests_numbered hooked_self hooked_responses) hooked_history
  ∧ accepted_count hooked_self hooked_history ≤ length hooked_responses
  ∧ each_event (settles_in_order hooked_self) hooked_history
  ∧ each_event (settles_once hooked_self) hooked_history
  ∧ each_event (settles_as_responded hooked_self hooked_responses) hooked_history
  ∧ each_event (hook_before_response hooked_self hooked_config) hooked_history
  ∧ each_event (hook_not_after_throw hooked_self) hooked_history
  ∧ each_event (any_hook_before_first hooked_self hooked_config) hooked_history
  ∧ each_event (any_hook_first_and_once hooked_self) hooked_history.
Proof.
  pose proof hooked_unstarted as Hu. split; [exact Hu|].
  pose proof (responses_in_order 0 hooked_self hooked_config hooked_responses
                hooked.2 hooked_to_end Hu) as H.
  cbv zeta in H. rewrite hooked_history_eq in H. exact H.
Defined.

(** A request that finds no response left is turned down at once: here the
    second request, while the response to the first has not settled. *)
Lemma surplus_rejected_at_once :
  trace (exec (times 5 (Main 0)) surplus.2)
  = [EvSurplus surplus_self get_b; EvRequest surplus_self 0 get_a].
Proof. vm_compute. reflexivity. Qed.

(** The beforeEachResponse hook does not run for every request: in the hooked
    series the second response settles and the hook has not run for it. *)
Lemma hook_skipped_after_error :
  ¬ each_event (hook_before_response_always hooked_self hooked_config)
      (trace (exec hooked_to_end hooked.2)).
Proof.
  rewrite hooked_history_eq. intros H.
  destruct (H [] _ _ eq_refl 1 _ eq_refl) as (config & c & Hin).
  { by eexists. }
  not_there Hin.
Qed.



(** The hooked series: its responses settle as their callbacks completed,
    what the hook threw is stored, and the run is rejected with the error
    that names the hook. *)
Lemma hook_errors_reported_witness :
  unstarted 0 hooked_self hooked_config hooked_responses hooked.2
  ∧ each_event (settles_as_responded hooked_self hooked_responses) hooked_history
  ∧ (∃ x, heap (exec hooked_to_verify hooked.2) !! hooked_self
          = Some {| cfg := hooked_config; ctx := x |}
          ∧ is_set (_errorFromBeforeEachResponse x) = true)
  ∧ ∃ n, runs (exec hooked_to_end hooked.2) !! 0 = Some n
         ∧ r_pc n = PDone
         ∧ r_settled n
           = Rejected (JsError "beforeEachResponse() callback threw an error").
Proof.
  pose proof hooked_unstarted as Hu. split; [exact Hu|].
  assert (Hn : runs (exec hooked_to_verify hooked.2) !! 0 = Some hooked_at_verify)
    by (vm_compute; reflexivity).
  assert (Htr : trace (exec hooked_to_verify hooked.2) = hooked_history)
    by (vm_compute; reflexivity).
  assert (Hthrew : each_threw hooked_self hooked_history).
  { exists get_a, 0, boom. split; [|reflexivity]. unfold hooked_history. is_there. }
  destruct (hook_errors_reported 0 hooked_self hooked_config hooked_responses
              hooked.2 hooked_to_verify (times 3 (Main 0)) Hu)
    as (Hsettle & (x & Hx & _ & _ & Hstored & _) & Hverify).
  rewrite Htr in Hsettle, Hstored.
  split; [exact Hsettle|]. split.
  { exists x. split; [exact Hx|]. by apply Hstored. }
  destruct (Hverify hooked_at_verify Hn) as (n & Hn2 & Hdone & _ & _ & Heach & _).
  - reflexivity.
  - simpl. intros [].
  - exists n. split_and!.
    + rewrite <- Hn2. vm_compute. reflexivity.
    + apply Hdone. vm_compute. lia.
    + rewrite Htr in Heach. apply Heach.
      * intros (to & from & e & Hin & _). not_there Hin.
      * intros (e & Hin & _). not_there Hin.
      * exact Hthrew.
Defined.

(** What a response callback throws does reach the application: the promise
    of the request is rejected with it. *)
Lemma response_error_reaches_application :
  ¬ kept_from_application faulty_self (trace (exec faulty_schedule faulty.2)).
Proof.
  rewrite faulty_history_eq. intros H. apply (H 0 boom).
  - unfold faulty_history. is_there.
  - unfold faulty_history. is_there.
Qed.

(** One cycle, alone, with a navigation and a late request of the
    application: the transport is the one from before. *)
Lemma transport_restored_witness :
  unstarted 0 cycle_self cycle_config cycle_responses follow_up.2
  ∧ solo 0 cycle_alone = true
  ∧ ∃ n, runs (exec cycle_alone follow_up.2) !! 0 = Some n
         ∧ r_pc n = PDone
         ∧ http (exec cycle_alone follow_up.2) = http follow_up.2.
Proof.
  pose proof cycle_unstarted as Hu. split; [exact Hu|]. split; [reflexivity|].
  destruct (transport_restored 0 cycle_self cycle_config cycle_responses
              follow_up.2 cycle_alone Hu eq_refl) as (n & Hn & Hhttp & Hdone).
  assert (Hpc : r_pc n = PDone).
  { apply Hdone; [by eexists | vm_compute; lia]. }
  exists n. split_and!; [done | done |].
  apply Hhttp. rewrite Hpc. simpl. lia.
Defined.

(** The response of [respondWithSuccess()] has status 200: fulfilled. *)
Lemma response_settles_by_status_witness :
  heap cycle_waiting !! cycle_self = Some waiting_series
  ∧ ∃ l, trace (chain_step cycle_self cycle_waiting)
         = EvSettle cycle_self 0
             (Fulfilled (spread_with success_response "config" get_a))
           :: EvResponse cycle_self 0 (Return success_response) :: l.
Proof.
  assert (Ho : heap cycle_waiting !! cycle_self = Some waiting_series)
    by (vm_compute; reflexivity).
  split; [exact Ho|].
  destruct (response_settles_by_status cycle_self cycle_waiting waiting_series
              waiting_job [] success_response Ho eq_refl eq_refl eq_refl)
    as (settled & l & Htr & Hok & _).
  exists l. rewrite Htr, Hok; [reflexivity|].
  apply num_range_spec. reflexivity.
Defined.

(** ** The in-progress flag *)

(** A series that starts while the flag is set is rejected. *)
Lemma rejected_while_in_progress r w n o v component :
  runs w !! r = Some n → r_pc n = PInit → heap w !! r_self n = Some o →
  previous_outcome w o = Some (Fulfilled v) →
  Js.get v "component" = Some component →
  inProgress w = true →
  inProgress (main_step r w) = true
  ∧ r_settled <$> runs (main_step r w) !! r
    = Some (Rejected (JsError "another series is in progress")).
Proof.
  intros Hn Hpc Ho Hprev Hc Hflag. unfold main_step. rewrite Hn, Hpc, Ho, Hprev.
  unfold goto, then_, _initialPromise. simpl. rewrite Hc, Hflag. simpl.
  split; [done|]. by rewrite !lookup_alter_eq, Hn.
Qed.

(** The last handler of every run clears the flag, whether the run had set
    it or not. *)
Lemma cleanup_clears_flag r w n :
  runs w !! r = Some n → r_pc n = PCleanup → inProgress (main_step r w) = false.
Proof. intros Hn Hpc. unfold main_step. by rewrite Hn, Hpc. Qed.

(** C3. The flag does not keep a series from starting while another one is
    executing. Of three series, the first is executing (its request is sent,
    its wait has not begun, it holds the stub) when the second starts: the
    second is rejected with 'another series is in progress', and at its end
    it clears the flag that the first one had set. The third, started next
    and while the first is still executing, is not rejected: it takes the
    flag and installs its own stub. *)
Theorem lock_cleared_by_rejected_series :
  let w := exec overtaking trio in
  let w' := step w (Main 2) in
  (* the first series is executing *)
  r_pc (run_of w 0) = PWait
  ∧ (_inProgress ∘ ctx <$> heap w !! series_of trio 0) = Some true
  ∧ http w = Stub 0
  (* the second one was rejected and is done *)
  ∧ r_pc (run_of w 1) = PDone
  ∧ r_settled (run_of w 1) = Rejected (JsError "another series is in progress")
  ∧ inProgress w = false
  (* the third one starts *)
  ∧ r_pc (run_of w 2) = PInit
  ∧ r_pc (run_of w' 2) = PGuard
  ∧ r_settled (run_of w' 2) = Fulfilled VUndefined
  ∧ (_inProgress ∘ ctx <$> heap w' !! series_of trio 2) = Some true
  ∧ http w' = Stub 2
  ∧ r_pc (run_of w' 0) = PWait.
Proof. vm_compute. by split_and!. Qed.

(** ** The transport under overlapping series *)

(** C5. The transport is not restored when series overlap, which the flag
    lets them do. Of three series started on one page, the first takes the
    flag, saves the transport and puts its stub in. The second is rejected
    and clears the flag at its end. In the first schedule the first series
    then restores the transport, the third series starts and puts its stub
    in, and the first series ends: it is done, its promise is fulfilled, and
    [Vue.prototype.$http] is the stub of the third series, not what it was
    before the first series started. In the second schedule the third series
    starts before the first one restores, and so saves the stub of the first
    as the transport to restore: when all three series are done, and for
    good, [Vue.prototype.$http] is the stub of the first series. *)
Theorem transport_left_replaced :
  let w0 := exec (times 5 (Main 0)) trio in
  let w1 := exec overlapping trio in
  let w2 := exec stranded trio in
  http trio = Axios 0
  (* the first series began executing *)
  ∧ (_inProgress ∘ ctx <$> heap w0 !! series_of trio 0) = Some true
  ∧ (_previousHttp ∘ ctx <$> heap w0 !! series_of trio 0) = Some (Axios 0)
  ∧ http w0 = Stub 0
  (* first schedule: it is done and fulfilled *)
  ∧ r_pc (run_of w1 0) = PDone
  ∧ r_settled (run_of w1 0)
    = Fulfilled (VObj [("component", VUndefined); ("result", VUndefined)])
  ∧ http w1 = Stub 2
  (* second schedule: all three series are done *)
  ∧ r_pc (run_of w2 0) = PDone
  ∧ r_pc (run_of w2 1) = PDone
  ∧ r_pc (run_of w2 2) = PDone
  ∧ inProgress w2 = false
  ∧ http w2 = Stub 0.
Proof. vm_compute. by split_and!. Qed.
(** ** More example runs *)

Lemma faulty_unstarted :
  unstarted 0 faulty_self faulty_config faulty_responses faulty.2.
Proof.
  eexists. split_and!; try (vm_compute; reflexivity); by_evaluation.
Qed.

Lemma after_faulty_unstarted :
  unstarted 1 after_faulty_self after_faulty_config after_faulty_responses
    after_faulty.2.
Proof.
  eexists. split_and!; try (vm_compute; reflexivity); by_evaluation.
Qed.

Lemma eager_unstarted :
  unstarted 0 eager_self eager_config eager_responses eager.2.
Proof.
  eexists. split_and!; try (vm_compute; reflexivity); by_evaluation.
Qed.

Lemma guarded_unstarted :
  unstarted 0 guarded_self guarded_config guarded_responses guarded.2.
Proof.
  eexists. split_and!; try (vm_compute; reflexivity); by_evaluation.
Qed.

Lemma guarded_history_eq : trace (exec guarded_schedule guarded.2) = guarded_history.
Proof. vm_compute. reflexivity. Qed.

(** The hooked series: each response callback is called once, in order. *)
Lemma response_callbacks_once_witness :
  unstarted 0 hooked_self hooked_config hooked_responses hooked.2
  ∧ each_event (responds_once_in_order hooked_self) hooked_history.
Proof.
  pose proof hooked_unstarted as Hu. split; [exact Hu|].
  pose proof (response_callbacks_once 0 hooked_self hooked_config hooked_responses
                hooked.2 hooked_to_end Hu) as H.
  rewrite hooked_history_eq in H. exact H.
Defined.

(** The guarded series: the guard threw at the first navigation and was not
    called at the second. *)
Lemma guard_not_called_again_witness :
  unstarted 0 guarded_self guarded_config guarded_responses guarded.2
  ∧ each_event (guard_not_after_throw guarded_self) guarded_history
  ∧ filter (λ e, is_guard guarded_self e = true) guarded_history
    = [EvGuard guarded_self (VStr "/a") (VStr "/") (Throw boom)].
Proof.
  pose proof guarded_unstarted as Hu. split; [exact Hu|].
  pose proof (guard_not_called_again 0 guarded_self guarded_config guarded_responses
                guarded.2 guarded_schedule Hu) as H.
  rewrite guarded_history_eq in H. split; [exact H|].
  vm_compute. reflexivity.
Defined.

(** The faulty series: rejected at the check of the state, and still so at
    its end. *)
Lemma first_failure_wins_witness :
  unstarted 0 faulty_self faulty_config faulty_responses faulty.2
  ∧ ∃ n, runs (exec (faulty_checked ++ times 3 (Main 0)) faulty.2) !! 0 = Some n
         ∧ r_pc n = PDone
         ∧ r_settled n = Rejected (JsError "a response callback threw an error").
Proof.
  pose proof faulty_unstarted as Hu. split; [exact Hu|].
  assert (Hn : runs (exec faulty_checked faulty.2) !! 0 = Some faulty_at_callback)
    by (vm_compute; reflexivity).
  destruct (first_failure_wins 0 faulty_self faulty_config faulty_responses faulty.2
              faulty_checked (times 3 (Main 0)) faulty_at_callback
              (JsError "a response callback threw an error") Hu Hn)
    as (n & Hn2 & _ & Hsame & Hdone).
  - discriminate.
  - reflexivity.
  - exists n. split_and!; [done| |].
    + apply Hdone. vm_compute. lia.
    + apply Hsame. intros pw c Hpw. discriminate.
Defined.

(** The series that follows the faulty one: rejected with the same reason,
    and the transport is left alone. *)
Lemma follows_rejected_witness :
  unstarted 1 after_faulty_self after_faulty_config after_faulty_responses
    after_faulty.2
  ∧ http (exec (faulty_to_end ++ [Main 1]) after_faulty.2)
    = http (exec faulty_to_end after_faulty.2)
  ∧ ∃ n, runs (exec (faulty_to_end ++ times 12 (Main 1)) after_faulty.2) !! 1 = Some n
         ∧ r_pc n = PDone
         ∧ r_settled n = Rejected (JsError "a response callback threw an error").
Proof.
  pose proof after_faulty_unstarted as Hu. split; [exact Hu|].
  assert (Hn : runs (exec faulty_to_end after_faulty.2) !! 1 = Some after_faulty_start)
    by (vm_compute; reflexivity).
  assert (Ho : heap (exec faulty_to_end after_faulty.2) !! after_faulty_self
               = Some after_faulty_series) by (vm_compute; reflexivity).
  assert (Hprev : previous_outcome (exec faulty_to_end after_faulty.2) after_faulty_series
                  = Some (Rejected (JsError "a response callback threw an error")))
    by (vm_compute; reflexivity).
  assert (Hpc : r_pc after_faulty_start = PInit) by reflexivity.
  destruct (follows_rejected 1 after_faulty_self after_faulty_config
              after_faulty_responses after_faulty.2 faulty_to_end (times 11 (Main 1))
              after_faulty_start after_faulty_series _ Hu Hn Hpc Ho Hprev)
    as ((Hhttp & _) & n & Hn2 & _ & Hsame & Hdone).
  split.
  - rewrite <- Hhttp. vm_compute. reflexivity.
  - exists n. split_and!.
    + rewrite <- Hn2. vm_compute. reflexivity.
    + apply Hdone. vm_compute. lia.
    + apply Hsame. intros pw c Hpw. discriminate.
Defined.

(** The cycle: fulfilled with the component and what [complete()] gives for
    it, the component itself. *)
Lemma fulfilled_with_result_witness :
  unstarted 0 cycle_self cycle_config cycle_responses follow_up.2
  ∧ runs (exec cycle_to_end follow_up.2) !! 0 = Some cycle_at_end
  ∧ r_settled cycle_at_end
    = Fulfilled (VObj [("component", VHost 1); ("result", VHost 1)])
  ∧ ∃ callback, r_callback cycle_at_end = Some callback
                ∧ completes (callback (VHost 1)) = Return (VHost 1).
Proof.
  pose proof cycle_unstarted as Hu. split; [exact Hu|].
  assert (Hn : runs (exec cycle_to_end follow_up.2) !! 0 = Some cycle_at_end)
    by (vm_compute; reflexivity).
  assert (Hpc : r_pc cycle_at_end = PDone) by reflexivity.
  assert (Hv : r_settled cycle_at_end
               = Fulfilled (VObj [("component", VHost 1); ("result", VHost 1)]))
    by reflexivity.
  split; [exact Hn|]. split; [exact Hv|].
  destruct (fulfilled_with_result 0 cycle_self cycle_config cycle_responses
              follow_up.2 cycle_to_end cycle_at_end _ Hu Hn Hpc Hv)
    as (cb & x & res & Hcb & _ & Hres & Hx).
  injection Hx as Hx1 Hx2.
  exists cb. split; [exact Hcb|]. congruence.
Defined.

(** The eager series: mounting sent a request, so the [request()] callback
    is not run. *)
Lemma request_needs_quiet_start_witness :
  unstarted 0 eager_self eager_config eager_responses eager.2
  ∧ ∃ n, runs (exec (eager_to_request ++ [Main 0]) eager.2) !! 0 = Some n
         ∧ r_settled n
           = Rejected (JsError "a request was sent before the request() callback was run").
Proof.
  pose proof eager_unstarted as Hu. split; [exact Hu|].
  assert (Hn : runs (exec eager_to_request eager.2) !! 0 = Some eager_at_request)
    by (vm_compute; reflexivity).
  assert (Ho : heap (exec eager_to_request eager.2) !! eager_self
               = Some {| cfg := eager_config; ctx := eager_fields |})
    by (vm_compute; reflexivity).
  assert (Hpc : r_pc eager_at_request = PRequest) by reflexivity.
  assert (Hful : ¬ is_rejected (r_settled eager_at_request)) by (simpl; intros []).
  assert (Hreq : ∃ q, _request eager_config = Some q) by (by eexists).
  destruct Hreq as [q Hq].
  destruct (request_needs_quiet_start 0 eager_self eager_config eager_responses
              eager.2 eager_to_request eager_at_request eager_fields q Hu Hn Hpc Hful
              Ho Hq)
    as (n & Hn2 & _ & Hrej & _).
  exists n. split.
  - rewrite <- Hn2. vm_compute. reflexivity.
  - apply Hrej. vm_compute. lia.
Defined.

(** ** Awaiting a series *)

(** X8. Awaiting a series that has responses, a guard or a hook, but neither
    a route, nor a component to mount, nor a [request()] callback, throws
    'route(), mount(), and/or request() required' at once, whether or not
    the series follows another one: [toPromise()] takes it for a series to
    execute. *)
Theorem await_needs_action (this : nat) (w : world) (o : MockHttp) :
  heap w !! this = Some o →
  setup_without_action w o →
  toPromise this w = Raise (JsError "route(), mount(), and/or request() required").
Proof.
  intros Ho (Hl & Hm & Hq & Hsetup).
  assert (Hc : complete this w
               = Raise (JsError "route(), mount(), and/or request() required")).
  { unfold complete, afterResponses. by rewrite Ho, Hl, Hm, Hq. }
  unfold toPromise. rewrite Ho, Hl, Hm, Hq, Hc. simpl.
  destruct Hsetup as [Hg|[Hr|[Ha|He]]].
  - rewrite (bool_decide_eq_true_2 _ Hg). done.
  - destruct (responses_of w o); [done|]. simpl.
    by destruct (bool_decide _).
  - rewrite (bool_decide_eq_true_2 _ Ha).
    by repeat (destruct (bool_decide _) || destruct (_ =? _); simpl).
  - rewrite (bool_decide_eq_true_2 _ He).
    by repeat (destruct (bool_decide _) || destruct (_ =? _); simpl).
Qed.

Lemma await_needs_action_witness :
  ∃ s w, respondWithSuccess blank.1 blank.2 = Ok (s, w)
       ∧ toPromise s w
         = Raise (JsError "route(), mount(), and/or request() required").
Proof.
  destruct (respondWithSuccess blank.1 blank.2) as [[s w]|] eqn:E;
    [|by vm_compute in E].
  exists s, w. split; [done|].
  assert (Ho : ∃ o, heap w !! s = Some o ∧ setup_without_action w o).
  { vm_compute in E. injection E as <- <-. eexists. split; [vm_compute; reflexivity|].
    split_and!; try reflexivity. right. left. vm_compute. discriminate. }
  destruct Ho as (o & Ho & Hs).
  exact (await_needs_action s w o Ho Hs).
Defined.

Lemma fresh_runs w : runs w !! fresh (dom (runs w)) = None.
Proof. apply not_elem_of_dom, is_fresh. Qed.

(** X9. Awaiting a series that has something to execute executes it once, as
    [complete()] does: one new run of the series is made, at its first
    handler, with the completion callback that returns the component, and
    with no poll; the promise is that of the run; the runs, series and arrays
    that were there are unchanged, and nothing has run yet. Awaiting the
    series that [complete()] returns gives the promise of the same run and
    changes nothing: it does not execute the series again. *)
Theorem await_executes_once (this : nat) (w : world) (o : MockHttp) :
  heap w !! this = Some o →
  executable o →
  ∃ r next w',
    complete this w = Ok (next, w')
    ∧ toPromise this w = Ok (ThenResult r, w')
    ∧ runs w !! r = None
    ∧ runs w' = <[r := completing_run this]> (runs w)
    ∧ (∀ s o, heap w !! s = Some o → heap w' !! s = Some o)
    ∧ (∀ a l, arrays w !! a = Some l → arrays w' !! a = Some l)
    ∧ inProgress w' = inProgress w ∧ http w' = http w
    ∧ guards w' = guards w ∧ trace w' = trace w
    ∧ toPromise next w' = Ok (ThenResult r, w').
Proof.
  intros Ho Hx.
  assert (Hgo : nullish (_location (cfg o)) && bool_decide (_mount (cfg o) = None)
                && bool_decide (_request (cfg o) = None) = false).
  { destruct Hx as [Hl|[[m Hm]|[q Hq]]].
    - by rewrite Hl.
    - rewrite Hm. by destruct (nullish _).
    - rewrite Hq. by destruct (nullish _), (bool_decide _). }
  assert (Hany : negb (nullish (_location (cfg o)))
                 || bool_decide (is_Some (_beforeEachNavGuard (cfg o)))
                 || bool_decide (is_Some (_mount (cfg o)))
                 || bool_decide (is_Some (_request (cfg o))) = true).
  { destruct Hx as [Hl|[Hm|Hq]].
    - by rewrite Hl.
    - rewrite (bool_decide_eq_true_2 _ Hm). by rewrite ?orb_true_r.
    - rewrite (bool_decide_eq_true_2 _ Hq). by rewrite ?orb_true_r. }
  set (r := fresh (dom (runs w))).
  set (w1 := w_runs (<[r := completing_run this]> (runs w)) w).
  set (a := fresh (dom (arrays w1))).
  set (w2 := w_arrays (<[a := []]> (arrays w1)) w1).
  set (next := fresh (dom (heap w2))).
  set (c := {| _previousPromise := Some r; _location := VNull;
               _beforeEachNavGuard := None; _mount := None; _request := None;
               _responses := a; _beforeAnyResponse := None;
               _beforeEachResponse := None |}).
  set (w' := w_heap (<[next := {| cfg := c; ctx := undefined_context |}]> (heap w2)) w2).
  assert (Hc : complete this w = Ok (next, w')).
  { unfold complete, afterResponses. by rewrite Ho, Hgo. }
  assert (Hnext : heap w' !! next = Some {| cfg := c; ctx := undefined_context |}).
  { unfold w'. simpl. by rewrite lookup_insert_eq. }
  exists r, next, w'. split_and!; try done.
  - unfold toPromise. rewrite Ho. cbv zeta. rewrite Hany. simpl.
    by rewrite Hc, Hnext.
  - apply fresh_runs.
  - intros s o' Hs. unfold w'. simpl. rewrite lookup_insert_ne; [done|].
    intros <-. assert (heap w2 !! next = None) by apply fresh_heap. by simplify_eq/=.
  - intros a' l Ha. unfold w'. simpl. rewrite lookup_insert_ne; [done|].
    intros <-. assert (arrays w1 !! a = None) by apply fresh_arrays. by simplify_eq/=.
  - unfold toPromise. rewrite Hnext. cbv zeta. unfold responses_of. simpl.
    by rewrite lookup_insert_eq.
Qed.

Lemma await_executes_once_witness :
  ∃ r next w',
    complete one_cycle.1 one_cycle.2 = Ok (next, w')
    ∧ toPromise one_cycle.1 one_cycle.2 = Ok (ThenResult r, w')
    ∧ runs w' = <[r := completing_run one_cycle.1]> (runs one_cycle.2)
    ∧ toPromise next w' = Ok (ThenResult r, w').
Proof.
  assert (Ho : ∃ o, heap one_cycle.2 !! one_cycle.1 = Some o ∧ executable o).
  { eexists. split; [vm_compute; reflexivity|]. right. left. by eexists. }
  destruct Ho as (o & Ho & Hx).
  destruct (await_executes_once one_cycle.1 one_cycle.2 o Ho Hx)
    as (r & next & w' & H1 & H2 & _ & H3 & _ & _ & _ & _ & _ & _ & H4).
  by exists r, next, w'.
Defined.

(** ** The responses for a component *)

Lemma keeps_refl w : keeps w w.
Proof. by split_and!. Qed.

Lemma keeps_trans w1 w2 w3 : keeps w1 w2 → keeps w2 w3 → keeps w1 w3.
Proof.
  intros (H1 & H2 & ? & ? & ? & ? & ?) (H1' & H2' & ? & ? & ? & ? & ?).
  split_and!; [by eauto | by eauto | congruence..].
Qed.

Lemma extends_keeps w w' new : extends w w' new → keeps w w'.
Proof. by intros (_ & ?). Qed.

Lemma with_responses_twice a a' c :
  with_responses a' (with_responses a c) = with_responses a' c.
Proof. done. Qed.

(** One response more: the new series holds the responses of the receiver
    and [cb]. *)
Lemma respond_appends s callback w o :
  heap w !! s = Some o → _location (cfg o) ≠ VUndefined →
  ∃ new w' o',
    respond s callback w = Ok (new, w')
    ∧ keeps w w'
    ∧ heap w' !! new = Some o'
    ∧ responses_of w' o' = responses_of w o ++ [RespondWrapper callback]
    ∧ cfg o' = with_responses (_responses (cfg o')) (cfg o).
Proof.
  intros Ho Hl.
  destruct (respond_makes_copy s callback w o Ho Hl)
    as (new & w' & E & Hext & a & _ & Ha & Hnew).
  exists new, w', {| cfg := with_responses a (cfg o); ctx := undefined_context |}.
  split_and!; [done | by eapply extends_keeps | done | |done].
  unfold responses_of. simpl. by rewrite Ha.
Qed.

Lemma respond_entry_appends options s entry w o :
  heap w !! s = Some o → _location (cfg o) ≠ VUndefined →
  ∃ new w' o',
    respond_entry options (Ok (s, w)) entry = Ok (new, w')
    ∧ keeps w w'
    ∧ heap w' !! new = Some o'
    ∧ responses_of w' o'
      = responses_of w o ++ option_list (entry_response options entry)
    ∧ cfg o' = with_responses (_responses (cfg o')) (cfg o).
Proof.
  intros Ho Hl. destruct entry as [key callback].
  unfold respond_entry, entry_response. simpl.
  assert (Hsame : ∃ new w' o',
            Ok (s, w) = Ok (new, w') ∧ keeps w w' ∧ heap w' !! new = Some o'
            ∧ responses_of w' o' = responses_of w o ++ option_list None
            ∧ cfg o' = with_responses (_responses (cfg o')) (cfg o)).
  { exists s, w, o. split_and!; [done | apply keeps_refl | done | |by destruct (cfg o)].
    simpl. by rewrite app_nil_r. }
  destruct (option_of options key) as [[v|f]|];
    [|by apply respond_appends..].
  destruct (nullish v) eqn:Hn; [by apply respond_appends|].
  destruct (is_false v); [done|].
  destruct (String.eqb (typeof v) "number") eqn:Ht; [|by apply respond_appends].
  unfold respondWithProblem. destruct v; try done. by apply respond_appends.
Qed.

Lemma respondForComponent_cons this entry entries options w new w' :
  respond_entry options (Ok (this, w)) entry = Ok (new, w') →
  respondForComponent this (entry :: entries) options w
  = respondForComponent new entries options w'.
Proof. intros E. unfold respondForComponent. cbn [foldl]. by rewrite E. Qed.

Lemma respond_entries_append (this : nat)
    (entries : list (string * behaviour)) (options : option (gmap string override))
    (w : world) (o : MockHttp) :
  heap w !! this = Some o →
  _location (cfg o) ≠ VUndefined →
  ∃ new w' o',
    respondForComponent this entries options w = Ok (new, w')
    ∧ keeps w w'
    ∧ heap w' !! new = Some o'
    ∧ responses_of w' o'
      = responses_of w o ++ omap (entry_response options) entries
    ∧ cfg o' = with_responses (_responses (cfg o')) (cfg o).
Proof.
  revert this w o. induction entries as [|entry entries IH]; intros this w o Ho Hl.
  - exists this, w, o. split_and!; [done | apply keeps_refl | done | |by destruct (cfg o)].
    simpl. by rewrite app_nil_r.
  - destruct (respond_entry_appends options this entry w o Ho Hl)
      as (s1 & w1 & o1 & E1 & Hk1 & Ho1 & Hr1 & Hc1).
    assert (Hl1 : _location (cfg o1) ≠ VUndefined) by (by rewrite Hc1).
    destruct (IH s1 w1 o1 Ho1 Hl1) as (new & w' & o' & E & Hk & Ho' & Hr & Hc).
    exists new, w', o'. split_and!; [|by eapply keeps_trans|done| |].
    + by rewrite (respondForComponent_cons _ _ _ _ _ _ _ E1).
    + rewrite Hr, Hr1, <- app_assoc. f_equal. simpl.
      by destruct (entry_response options entry).
    + rewrite Hc, Hc1. apply with_responses_twice.
Qed.

(** The options of the comment above [respondFor()] for [/projects/1]: no
    forms. *)

(** X10. [respondForComponent()] never throws. It returns a series that
    holds the responses of the receiver followed by one response for each
    entry of the request data of the component, in their order: the default
    callback of the entry, or what the options give for its key (another
    callback, or a problem for a status code), and none for an entry that the
    options switch off with [false]. The other options of the series are
    those of the receiver, and every series and array that was there is
    unchanged, the receiver and its responses among them. *)
Theorem respondForComponent_appends (this : nat)
    (entries : list (string * behaviour)) (options : option (gmap string override))
    (w : world) (o : MockHttp) :
  heap w !! this = Some o →
  _location (cfg o) ≠ VUndefined →
  ∃ new w' o',
    respondForComponent this entries options w = Ok (new, w')
    ∧ keeps w w'
    ∧ heap w' !! new = Some o'
    ∧ responses_of w' o'
      = responses_of w o ++ omap (entry_response options) entries
    ∧ cfg o' = with_responses (_responses (cfg o')) (cfg o).
Proof. apply respond_entries_append. Qed.

Lemma respondForComponent_appends_witness :
  ∃ new w' o',
    respondForComponent blank.1 project_entries
      (Some {[ "forms" := OverrideValue (VBool false) ]}) blank.2 = Ok (new, w')
    ∧ heap w' !! new = Some o'
    ∧ responses_of w' o' = [RespondWrapper (returns (VStr "project"))].
Proof.
  assert (Ho : heap blank.2 !! blank.1 = Some blank_series) by (vm_compute; reflexivity).
  assert (Hr : responses_of blank.2 blank_series = []) by (vm_compute; reflexivity).
  destruct (respondForComponent_appends blank.1 project_entries
              (Some {[ "forms" := OverrideValue (VBool false) ]}) blank.2
              blank_series Ho ltac:(discriminate))
    as (new & w' & o' & E & _ & Ho' & Hr' & _).
  exists new, w', o'. split_and!; [done..|].
  rewrite Hr', Hr. vm_compute. reflexivity.
Defined.

Lemma respond_entry_raise options e entries :
  foldl (respond_entry options) (Raise e) entries = Raise e.
Proof. by induction entries. Qed.

Lemma respondForComponent_app this l1 l2 options w :
  respondForComponent this (l1 ++ l2) options w
  = match respondForComponent this l1 options w with
    | Raise e => Raise e
    | Ok (series, w') => respondForComponent series l2 options w'
    end.
Proof.
  unfold respondForComponent. rewrite foldl_app.
  destruct (foldl _ _ l1) as [[s w']|e]; [done | apply respond_entry_raise].
Qed.

Lemma respondFor_from options series components :
  foldl (λ series entries,
           match series with
           | Raise e => Raise e
           | Ok (series, w) => respondForComponent series entries options w
           end) series components
  = match series with
    | Raise e => Raise e
    | Ok (s, w) => respondFor s components options w
    end.
Proof.
  destruct series as [[s w]|e]; [done|]. by induction components.
Qed.

Lemma respondFor_flat (this : nat) (components : list (list (string * behaviour)))
    (options : option (gmap string override)) (w : world) :
  respondFor this components options w
  = respondForComponent this (concat components) options w.
Proof.
  revert this w. induction components as [|entries components IH]; intros this w.
  { done. }
  simpl. rewrite respondForComponent_app.
  unfold respondFor. cbn [foldl]. rewrite respondFor_from.
  destruct (respondForComponent this entries options w) as [[s w']|e]; [apply IH | done].
Qed.

(** X11. The responses for a location are those for its components, one
    component after the other: [respondFor()] is [respondForComponent()] for
    the request data of all the components in a row. *)
Theorem respondFor_concat (this : nat) (components : list (list (string * behaviour)))
    (options : option (gmap string override)) (w : world) :
  respondFor this components options w
  = respondForComponent this (concat components) options w.
Proof. apply respondFor_flat. Qed.

(** X12. The examples of the comment above [respondFor()] hold, for a
    location with one component whose request data are [project] and
    [forms]: without options it is [.respondWithData(project)
    .respondWithData(forms)]; with a callback for [forms] that callback
    replaces the default; with the status code 500.1 for [forms] it is
    [.respondWithData(project).respondWithProblem(500.1)]; with [false] for
    [forms] it is [.respondWithData(project)] alone. *)
Theorem respondFor_as_documented (this : nat) (w : world)
    (project forms other : behaviour) :
  let components := [[("project", project); ("forms", forms)]] in
  respondFor this components None w
  = chained (λ s, respondWithData s forms) (respondWithData this project w)
  ∧ respondFor this components (Some {[ "forms" := OverrideCallback other ]}) w
    = chained (λ s, respondWithData s other) (respondWithData this project w)
  ∧ respondFor this components
      (Some {[ "forms" := OverrideValue (VNum (Fin (5001 # 10))) ]}) w
    = chained (λ s, respondWithProblem s (VNum (Fin (5001 # 10))))
        (respondWithData this project w)
  ∧ respondFor this components (Some {[ "forms" := OverrideValue (VBool false) ]}) w
    = respondWithData this project w.
Proof.
  assert (Hp : ∀ x : override,
            ({[ "forms" := x ]} : gmap string override) !! "project" = None)
    by (intros x; by apply lookup_singleton_ne).
  assert (Hf : ∀ x : override,
            ({[ "forms" := x ]} : gmap string override) !! "forms" = Some x)
    by (intros x; apply lookup_singleton_eq).
  unfold respondFor, respondForComponent, respond_entry, option_of, respondWithData,
    chained.
  cbn [foldl]. rewrite !Hp, !Hf. cbn.
  split_and!; by destruct (respond this project w) as [[s w']|e].
Qed.

(** X13. The method [load()] on a series that has a location already throws
    'cannot call route() more than once in a single series', and no response
    is queued. On a series without a location it returns a series with the
    location and, after the responses of the receiver, the responses for all
    the components of the location; what was there is unchanged. *)
Theorem load_routes_and_responds (this : nat) (location : value)
    (components : list (list (string * behaviour)))
    (options : option (gmap string override)) (w : world) (o : MockHttp) :
  heap w !! this = Some o →
  _location (cfg o) ≠ VUndefined →
  (nullish (_location (cfg o)) = false →
   load this location components options w
   = Raise (JsError "cannot call route() more than once in a single series"))
  ∧ (nullish (_location (cfg o)) = true →
     ∃ new w' o',
       load this location components options w = Ok (new, w')
       ∧ keeps w w'
       ∧ heap w' !! new = Some o'
       ∧ _location (cfg o') = (if nullish location then VNull else location)
       ∧ responses_of w' o'
         = responses_of w o ++ omap (entry_response options) (concat components)).
Proof.
  intros Ho Hl. split; intros Hn.
  - unfold load, route. by rewrite Ho, Hn.
  - set (s1 := fresh (dom (heap w))).
    set (o1 := {| cfg := with_location (if nullish location then VNull else location)
                           (cfg o);
                  ctx := undefined_context |}).
    set (w1 := w_heap (<[s1 := o1]> (heap w)) w).
    assert (E1 : route this location w = Ok (s1, w1)).
    { unfold route, _with. rewrite Ho, Hn. simpl. unfold new_MockHttp.
      destruct o as [[p l g m q a b e] x]; simpl in *.
      by destruct l. }
    assert (Ho1 : heap w1 !! s1 = Some o1) by (unfold w1; simpl; by rewrite lookup_insert_eq).
    assert (Hl1 : _location (cfg o1) ≠ VUndefined) by (simpl; by destruct location).
    assert (Hk1 : keeps w w1).
    { split_and!; try done. intros s o' Hs. unfold w1. simpl.
      rewrite lookup_insert_ne; [done|]. intros <-.
      assert (heap w !! s1 = None) by apply fresh_heap. by simplify_eq/=. }
    destruct (respond_entries_append s1 (concat components) options w1 o1 Ho1 Hl1)
      as (new & w' & o' & E & Hk & Ho' & Hr & Hc).
    exists new, w', o'. split_and!.
    + unfold load. by rewrite E1, respondFor_flat.
    + by eapply keeps_trans.
    + done.
    + by rewrite Hc.
    + by rewrite Hr.
Qed.

(** A series with a request, loaded with the project of the comment above
    [respondFor()]. *)
Lemma load_routes_and_responds_witness :
  ∃ new w' o',
    load blank.1 (VStr "/projects/1") [project_entries] None blank.2 = Ok (new, w')
    ∧ heap w' !! new = Some o'
    ∧ _location (cfg o') = VStr "/projects/1"
    ∧ responses_of w' o'
      = [RespondWrapper (returns (VStr "project"));
         RespondWrapper (returns (VArr [VStr "form"]))].
Proof.
  assert (Ho : heap blank.2 !! blank.1 = Some blank_series) by (vm_compute; reflexivity).
  assert (Hr : responses_of blank.2 blank_series = []) by (vm_compute; reflexivity).
  destruct (load_routes_and_responds blank.1 (VStr "/projects/1") [project_entries]
              None blank.2 blank_series Ho ltac:(discriminate)) as [_ H].
  destruct (H eq_refl) as (new & w' & o' & E & _ & Ho' & Hloc & Hr').
  exists new, w', o'. split_and!; [done..|].
  rewrite Hr', Hr. reflexivity.
Defined.

(** ** The request helpers *)

Lemma assoc_put_eq k x fields : assoc k (put k x fields) = x.
Proof.
  induction fields as [|[k' v] fields IH]; simpl.
  - by rewrite String.eqb_refl.
  - destruct (String.eqb k k') eqn:E; simpl; rewrite ?String.eqb_refl, ?E; done.
Qed.

Lemma assoc_put_ne k k' x fields :
  k ≠ k' → assoc k' (put k x fields) = assoc k' fields.
Proof.
  intros Hne. induction fields as [|[k0 v] fields IH]; simpl.
  - destruct (String.eqb k' k) eqn:E; [|done]. apply String.eqb_eq in E. congruence.
  - destruct (String.eqb k k0) eqn:E; simpl.
    + apply String.eqb_eq in E as <-.
      destruct (String.eqb k' k) eqn:E'; [|done]. apply String.eqb_eq in E'. congruence.
    + by rewrite IH.
Qed.

Lemma get_spread_eq v k x : get (spread_with v k x) k = Some x.
Proof.
  destruct v; simpl; rewrite ?String.eqb_refl; try done. by rewrite assoc_put_eq.
Qed.

Lemma get_spread_other fields k k' x :
  k ≠ k' → get (spread_with (VObj fields) k x) k' = get (VObj fields) k'.
Proof. intros Hne. simpl. by rewrite assoc_put_ne. Qed.

Lemma spread_is_object v k x : ∃ fields, spread_with v k x = VObj fields.
Proof. destruct v; by eexists. Qed.

Lemma with_method_requests config method url :
  requests (with_method config method url) method url.
Proof.
  unfold requests, with_method. split; [|apply get_spread_eq].
  destruct (spread_is_object config "method" (VStr method)) as [fields E].
  pose proof (get_spread_eq config "method" (VStr method)) as H.
  rewrite E in *. by rewrite get_spread_other.
Qed.

Lemma with_data_requests config method url data :
  requests (spread_with (with_method config method url) "data" data) method url
  ∧ get (spread_with (with_method config method url) "data" data) "data" = Some data.
Proof.
  split; [|apply get_spread_eq].
  destruct (with_method_requests config method url) as [H1 H2].
  destruct (spread_is_object (spread_with config "method" (VStr method)) "url" url)
    as [fields E].
  unfold requests, with_method in *. rewrite E in *.
  by rewrite !get_spread_other.
Qed.

Lemma http_call_received w r rn o config :
  http w = Stub r → runs w !! r = Some rn → heap w !! r_self rn = Some o →
  received (r_self rn) (r_count rn) config w (http_call w config).
Proof.
  intros Hh Hr Ho. unfold http_call, _http, received. rewrite Hh, Hr, Ho.
  destruct (_ && _); simpl; auto.
Qed.

(** X14. While the stub of a run is installed, each of the helpers [get],
    [post], [put], [patch] and [delete] sends exactly one request to it,
    which the stub takes or turns down like any other. The request names the
    method of the helper and the URL given, also when [config] names others,
    and for [post], [put] and [patch] it carries the data given; the other
    properties of [config] are passed on. *)
Theorem helpers_send_one_request (w : world) (r : nat) (rn : run) (o : MockHttp)
    (url data config : value) :
  http w = Stub r →
  runs w !! r = Some rn →
  heap w !! r_self rn = Some o →
  let s := r_self rn in
  let i := r_count rn in
  (∃ c, received s i c w (http_get url config w) ∧ requests c "get" url)
  ∧ (∃ c, received s i c w (http_post url data config w)
          ∧ requests c "post" url ∧ get c "data" = Some data)
  ∧ (∃ c, received s i c w (http_put url data config w)
          ∧ requests c "put" url ∧ get c "data" = Some data)
  ∧ (∃ c, received s i c w (http_patch url data config w)
          ∧ requests c "patch" url ∧ get c "data" = Some data)
  ∧ (∃ c, received s i c w (http_delete url config w) ∧ requests c "delete" url)
  ∧ (∀ fields method k,
       config = VObj fields → k ≠ "method" → k ≠ "url" → k ≠ "data" →
       get (with_method config method url) k = get config k
       ∧ get (spread_with (with_method config method url) "data" data) k
         = get config k).
Proof.
  intros Hh Hr Ho s i. split_and!.
  - eexists. split; [by eapply http_call_received | apply with_method_requests].
  - eexists. split; [by eapply http_call_received | apply with_data_requests].
  - eexists. split; [by eapply http_call_received | apply with_data_requests].
  - eexists. split; [by eapply http_call_received | apply with_data_requests].
  - eexists. split; [by eapply http_call_received | apply with_method_requests].
  - intros fields method k -> H1 H2 H3. unfold with_method. simpl.
    rewrite !assoc_put_ne by done. done.
Qed.

(** The cycle after its first handler: [$http.get('/a', config)] with a
    [config] that names the method [post] is the request [GET /a]. *)
Lemma helpers_send_one_request_witness :
  http (exec [Main 0] follow_up.2) = Stub 0
  ∧ ∃ c, received cycle_self 0 c (exec [Main 0] follow_up.2)
           (http_get (VStr "/a") misnamed (exec [Main 0] follow_up.2))
         ∧ requests c "get" (VStr "/a").
Proof.
  assert (Hh : http (exec [Main 0] follow_up.2) = Stub 0) by (vm_compute; reflexivity).
  assert (Hr : ∃ rn, runs (exec [Main 0] follow_up.2) !! 0 = Some rn
                     ∧ r_self rn = cycle_self ∧ r_count rn = 0)
    by (eexists; split_and!; vm_compute; reflexivity).
  destruct Hr as (rn & Hr & Hself & Hcount).
  assert (Ho : ∃ o, heap (exec [Main 0] follow_up.2) !! r_self rn = Some o)
    by (rewrite Hself; eexists; vm_compute; reflexivity).
  destruct Ho as (o & Ho).
  destruct (helpers_send_one_request _ 0 rn o (VStr "/a") VUndefined misnamed Hh Hr Ho)
    as ((c & Hrec & Hreq) & _).
  rewrite Hself, Hcount in Hrec.
  split; [exact Hh|]. exists c. by split.
Defined.

(** ** Restoring the session *)

(** X15. [restoreSession()] never throws, and what was there is unchanged.
    For a falsy argument it queues one response more, a problem with the
    code 404.1: the request that gets it is rejected, with the status 404.
    For a truthy argument it queues two responses more, the new session and
    then the user. *)
Theorem restoreSession_responses (this : nat) (restore : value)
    (createNew createUser : behaviour) (w : world) (o : MockHttp) :
  heap w !! this = Some o →
  _location (cfg o) ≠ VUndefined →
  ∃ new w' o',
    restoreSession this restore createNew createUser w = Ok (new, w')
    ∧ keeps w w'
    ∧ heap w' !! new = Some o'
    ∧ cfg o' = with_responses (_responses (cfg o')) (cfg o)
    ∧ (truthy restore = false →
       ∃ cb, responses_of w' o' = responses_of w o ++ [cb]
             ∧ response_completion (Some cb)
               = Return (problem_response (of_Z 404) (VNum (Fin (4041 # 10))))
             ∧ ∀ config,
                 response_outcome config (response_completion (Some cb))
                 = Rejected (ErrorWithResponse
                     (spread_with
                        (problem_response (of_Z 404) (VNum (Fin (4041 # 10))))
                        "config" config)))
    ∧ (truthy restore = true →
       responses_of w' o'
       = responses_of w o ++ [RespondWrapper createNew; RespondWrapper createUser]).
Proof.
  intros Ho Hl. unfold restoreSession. destruct (truthy restore) eqn:Ht; simpl.
  - destruct (respond_appends this createNew w o Ho Hl)
      as (s1 & w1 & o1 & E1 & Hk1 & Ho1 & Hr1 & Hc1).
    assert (Hl1 : _location (cfg o1) ≠ VUndefined) by (by rewrite Hc1).
    destruct (respond_appends s1 createUser w1 o1 Ho1 Hl1)
      as (new & w' & o' & E & Hk & Ho' & Hr & Hc).
    exists new, w', o'. unfold respondWithData. rewrite E1.
    split_and!; [done | by eapply keeps_trans | done | | done |].
    + rewrite Hc, Hc1. apply with_responses_twice.
    + intros _. by rewrite Hr, Hr1, <- app_assoc.
  - destruct (respond_appends this
                (returns (VObj [("problem", VNum (Fin (4041 # 10)))])) w o Ho Hl)
      as (new & w' & o' & E & Hk & Ho' & Hr & Hc).
    exists new, w', o'. split_and!; [done..| |done].
    intros _. eexists. split; [exact Hr|]. split; [reflexivity|].
    intros config. reflexivity.
Qed.

Lemma restoreSession_responses_witness :
  ∃ new w' o',
    restoreSession blank.1 (VBool false) (returns VUndefined) (returns VUndefined)
      blank.2 = Ok (new, w')
    ∧ heap w' !! new = Some o'
    ∧ ∃ cb, responses_of w' o' = [cb]
            ∧ response_completion (Some cb)
              = Return (problem_response (of_Z 404) (VNum (Fin (4041 # 10)))).
Proof.
  assert (Ho : heap blank.2 !! blank.1 = Some blank_series) by (vm_compute; reflexivity).
  assert (Hr : responses_of blank.2 blank_series = []) by (vm_compute; reflexivity).
  destruct (restoreSession_responses blank.1 (VBool false) (returns VUndefined)
              (returns VUndefined) blank.2 blank_series Ho ltac:(discriminate))
    as (new & w' & o' & E & _ & Ho' & _ & Hfalse & _).
  destruct (Hfalse eq_refl) as (cb & Hcb & Hc & _).
  exists new, w', o'. split_and!; [done..|].
  exists cb. rewrite Hr in Hcb. by split.
Defined.
